(** * Fantasy draft assistant: draft store, preference valuation, player merge

    A shallow embedding of the three pieces of the application that carry
    its logic:

    - [src/stores/draftStore.ts]: the zustand draft store (turn order,
      picks, undo, manual pick recording);
    - [src/stores/userPreferencesStore.ts]: per-player notes and the
      adjusted-value computation;
    - [src/lib/playerDatabase.ts]: name normalisation and the merge of
      duplicate player records.

    Conventions of the embedding.

    - A JavaScript [number] that holds a count, an index or a pick number is
      an integer of [Z]; [%] is [Z.rem] (sign of the dividend), and
      [Math.floor (a / b)], [Math.ceil (a / b)] are written with [Z.div]
      for a positive divisor.  With [numberOfTeams = 0] JavaScript yields
      [NaN] for the next team index; the integer model has no [NaN], so
      every statement about turn order assumes a positive number of teams.
    - A [number] that holds a projection or a value (vorp, fps, adjusted
      value) is an exact rational of [Q]; binary64 rounding error is not
      modelled.
    - A string is a [string]: a sequence of code units below 256.
    - An optional field is an [option]; [null] settings are [None].
    - [new Date()] is an explicit argument [now].
    - The store is passed explicitly: an action of the store is a function
      from the store value (what [get()] returns) to the store value after
      its [set] calls. *)

From Stdlib Require Import List ZArith QArith Qround String Ascii Bool Lia
  Lqa Permutation Sorted DecimalString.
Import ListNotations.

Local Open Scope Z_scope.

(** ** Types ([src/types]) *)

Inductive Position : Set := QB | RB | WR | TE | K | DEF | DB | DL | LB.

(** A [projectedStats] object: its own keys in insertion order, each with a
    numeric value.  An absent key is an absent pair. *)
Definition Stats : Set := list (string * Q).

(** The four shapes of [Player]; the shape decides which fields exist
    (['vorp' in player], ['tier' in player], ['fps' in player]).  A team
    defence has no [fps] in its interface, but [parseTeamDefensePlayers]
    ([src/lib/csvParser.ts]) sets one on the record when the row has an
    [FPS] column, so the field is optional there. *)
Inductive PlayerData : Set :=
| OffensiveData (vorp fps : Q) (projectedStats : Stats)
                (adp auctionValue : option Q)
| IDPData (tier : Q) (projectedStats : Stats)
| TeamDefenseData (projectedStats : Stats) (fps : option Q)
| KickerData (projectedStats : Stats).

Record Player : Set := mkPlayer {
  id : string;
  name : string;
  team : string;
  position : Position;
  byeWeek : Z;
  data : PlayerData
}.

Record DraftPick : Set := mkDraftPick {
  pickNumber : Z;
  teamIndex : Z;
  player : option Player;
  timestamp : option Z
}.

Record DraftTeam : Set := mkDraftTeam {
  teamId : string;
  teamName : string;
  roster : list Player;
  isUser : bool
}.

Inductive DraftType : Set := snake | linear.

Record RosterPositions : Set := mkRosterPositions {
  rpQB : Z; rpRB : Z; rpWR : Z; rpTE : Z; rpWRT : Z; rpK : Z;
  rpDEF : Z; rpDB : Z; rpDL : Z; rpLB : Z; rpBN : Z; rpIR : Z
}.

Record DraftSettings : Set := mkDraftSettings {
  numberOfTeams : Z;
  userTeamIndex : Z;
  draftType : DraftType;
  pickTimeLimit : Z;
  rosterPositions : RosterPositions
}.

Inductive PositionalNeed : Set := high | medium | low.

Record PlayerRecommendation : Set := mkPlayerRecommendation {
  recPlayer : Player;
  reason : string;
  value : Q;
  reach : bool;
  positionalNeed : PositionalNeed
}.

Record PlayerNote : Set := mkPlayerNote {
  playerId : string;
  note : string;
  isTarget : bool;
  isAvoid : bool;
  customRanking : option Q
}.

(** The state of the draft store: [DraftState] extended as in
    [interface DraftStore]. *)
Record DraftStore : Set := mkDraftStore {
  isActive : bool;
  currentPick : Z;
  currentTeamIndex : Z;
  picks : list DraftPick;
  timeRemaining : Z;
  teams : list DraftTeam;
  settings : option DraftSettings;
  availablePlayers : list Player;
  recommendations : list PlayerRecommendation
}.

(** ** What the store takes from its environment

    [localeCompare] is the collation of the host; [recommend] is the list
    that [generateRecommendations] computes from the store (it reads the
    preference store through [window], sorts by floating-point values and
    formats numbers into the reason strings).  Both are parameters of the
    development. *)
Class Host : Type := {
  localeCompare : string -> string -> Z;
  recommend : DraftStore -> list PlayerRecommendation
}.

(** A collation is consistent when swapping the arguments of a negative
    comparison gives a positive one. *)
Definition consistent_collation (H : Host) : Prop :=
  forall a b : string, localeCompare a b < 0 -> 0 < localeCompare b a.

(** ** Array helpers *)

(** [l.map((x, index) => f x index)]. *)
Fixpoint mapi_from {A B : Type} (f : A -> nat -> B) (i : nat) (l : list A)
  : list B :=
  match l with
  | [] => []
  | x :: l' => f x i :: mapi_from f (S i) l'
  end.

Definition mapi {A B : Type} (f : A -> nat -> B) (l : list A) : list B :=
  mapi_from f 0 l.

(** [Array.prototype.sort] with a comparator is a stable sort: an element is
    placed before the first element it does not compare greater than. *)
Fixpoint sort_insert {A : Type} (cmp : A -> A -> Z) (x : A) (l : list A)
  : list A :=
  match l with
  | [] => [x]
  | y :: l' => if cmp x y <=? 0 then x :: l else y :: sort_insert cmp x l'
  end.

Definition sort {A : Type} (cmp : A -> A -> Z) (l : list A) : list A :=
  fold_right (sort_insert cmp) [] l.

(** [l.slice(0, -1)]. *)
Definition slice_init {A : Type} (l : list A) : list A := removelast l.

(** [===] on strings. *)
Definition str_eqb (a b : string) : bool := String.eqb a b.

(** ** The draft store ([src/stores/draftStore.ts]) *)

Definition initialStore : DraftStore :=
  {| isActive := false; currentPick := 1; currentTeamIndex := 0;
     picks := []; timeRemaining := 120; teams := [];
     settings := None; availablePlayers := []; recommendations := [] |}.

Section Store.
Context {host : Host}.

Definition generateRecommendations (state : DraftStore) : DraftStore :=
  match settings state with
  | None => state
  | Some _ =>
    if (Z.of_nat (List.length (teams state)) =? 0) then state
    else
      {| isActive := isActive state; currentPick := currentPick state;
         currentTeamIndex := currentTeamIndex state; picks := picks state;
         timeRemaining := timeRemaining state; teams := teams state;
         settings := settings state;
         availablePlayers := availablePlayers state;
         recommendations := recommend state |}
  end.

Definition initializeDraft (settings0 : DraftSettings)
    (teams0 : list DraftTeam) (players : list Player) (state : DraftStore)
  : DraftStore :=
  generateRecommendations
    {| isActive := false; currentPick := 1; currentTeamIndex := 0;
       picks := []; timeRemaining := pickTimeLimit settings0;
       teams := teams0; settings := Some settings0;
       availablePlayers := players;
       recommendations := recommendations state |}.

Definition startDraft (state : DraftStore) : DraftStore :=
  {| isActive := true; currentPick := currentPick state;
     currentTeamIndex := currentTeamIndex state; picks := picks state;
     timeRemaining := timeRemaining state; teams := teams state;
     settings := settings state;
     availablePlayers := availablePlayers state;
     recommendations := recommendations state |}.

Definition pauseDraft (state : DraftStore) : DraftStore :=
  {| isActive := false; currentPick := currentPick state;
     currentTeamIndex := currentTeamIndex state; picks := picks state;
     timeRemaining := timeRemaining state; teams := teams state;
     settings := settings state;
     availablePlayers := availablePlayers state;
     recommendations := recommendations state |}.

Definition updateTimer (timeRemaining0 : Z) (state : DraftStore)
  : DraftStore :=
  {| isActive := isActive state; currentPick := currentPick state;
     currentTeamIndex := currentTeamIndex state; picks := picks state;
     timeRemaining := timeRemaining0; teams := teams state;
     settings := settings state;
     availablePlayers := availablePlayers state;
     recommendations := recommendations state |}.

(** [{...team, roster: [...team.roster, player]}] *)
Definition addToRoster (p : Player) (t : DraftTeam) : DraftTeam :=
  {| teamId := teamId t; teamName := teamName t;
     roster := roster t ++ [p]; isUser := isUser t |}.

(** [{...team, roster: team.roster.filter(p => p.id !== q.id)}] *)
Definition removeFromRoster (q : Player) (t : DraftTeam) : DraftTeam :=
  {| teamId := teamId t; teamName := teamName t;
     roster := filter (fun p => negb (str_eqb (id p) (id q))) (roster t);
     isUser := isUser t |}.

(** The next team index as [makePick] computes it (lines 96-115). *)
Definition makePick_nextTeamIndex (st : DraftSettings)
    (currentPick0 currentTeamIndex0 : Z) : Z :=
  let totalTeams := numberOfTeams st in
  match draftType st with
  | snake =>
    let round := - ((- currentPick0) / totalTeams) in
    let pickInRound := Z.rem (currentPick0 - 1) totalTeams + 1 in
    if Z.rem round 2 =? 1 then
      if pickInRound =? totalTeams then totalTeams - 1 else pickInRound
    else
      if pickInRound =? totalTeams then 0 else totalTeams - pickInRound
  | linear => Z.rem (currentTeamIndex0 + 1) totalTeams
  end.

Definition makePick (p : Player) (now : Z) (state : DraftStore)
  : DraftStore :=
  match settings state with
  | None => state
  | Some st =>
    let newPick :=
      {| pickNumber := currentPick state;
         teamIndex := currentTeamIndex state;
         player := Some p; timestamp := Some now |} in
    let updatedTeams :=
      mapi (fun t index =>
              if Z.of_nat index =? currentTeamIndex state
              then addToRoster p t else t) (teams state) in
    let updatedAvailablePlayers :=
      filter (fun q => negb (str_eqb (id q) (id p)))
             (availablePlayers state) in
    let nextPick := currentPick state + 1 in
    let nextTeamIndex :=
      makePick_nextTeamIndex st (currentPick state)
                             (currentTeamIndex state) in
    generateRecommendations
      {| isActive := isActive state; currentPick := nextPick;
         currentTeamIndex := nextTeamIndex;
         picks := picks state ++ [newPick];
         timeRemaining := pickTimeLimit st;
         teams := updatedTeams; settings := settings state;
         availablePlayers := updatedAvailablePlayers;
         recommendations := recommendations state |}
  end.

Definition undoLastPick (state : DraftStore) : DraftStore :=
  if Nat.eqb (List.length (picks state)) 0 then state else
  match nth_error (picks state) (List.length (picks state) - 1) with
  | None => state
  | Some lastPick =>
    match player lastPick with
    | None => state
    | Some lp =>
      let updatedPicks := slice_init (picks state) in
      let updatedTeams :=
        mapi (fun t index =>
                if Z.of_nat index =? teamIndex lastPick
                then removeFromRoster lp t else t) (teams state) in
      let updatedAvailablePlayers :=
        sort (fun a b => localeCompare (name a) (name b))
             (availablePlayers state ++ [lp]) in
      generateRecommendations
        {| isActive := isActive state;
           currentPick := pickNumber lastPick;
           currentTeamIndex := teamIndex lastPick;
           picks := updatedPicks;
           timeRemaining := timeRemaining state;
           teams := updatedTeams; settings := settings state;
           availablePlayers := updatedAvailablePlayers;
           recommendations := recommendations state |}
    end
  end.

(** The next team index as [markPlayerAsDrafted] computes it
    (lines 594-615); [nextTeamIndex] starts as [teamIndex] and is kept when
    there are no settings. *)
Definition markPlayerAsDrafted_nextTeamIndex (st : option DraftSettings)
    (nextPick teamIndex0 : Z) : Z :=
  match st with
  | None => teamIndex0
  | Some st =>
    match draftType st with
    | snake =>
      let nextRound := (nextPick - 1) / numberOfTeams st in
      let nextPositionInRound := Z.rem (nextPick - 1) (numberOfTeams st) in
      if Z.rem nextRound 2 =? 0 then nextPositionInRound
      else numberOfTeams st - 1 - nextPositionInRound
    | linear => Z.rem (teamIndex0 + 1) (numberOfTeams st)
    end
  end.

(** [markPlayerAsDrafted] in the later of the two revisions of the file:
    besides moving the player it logs the pick and advances the counters
    (the earlier revision stops after the roster update). *)
Definition markPlayerAsDrafted (p : Player) (teamIndex0 : Z) (now : Z)
    (state : DraftStore) : DraftStore :=
  let updatedAvailablePlayers :=
    filter (fun q => negb (str_eqb (id q) (id p)))
           (availablePlayers state) in
  let updatedTeams :=
    if (0 <=? teamIndex0) && (teamIndex0 <? Z.of_nat (List.length (teams state)))
    then mapi (fun t index =>
                 if Z.of_nat index =? teamIndex0
                 then addToRoster p t else t) (teams state)
    else teams state in
  let newPick :=
    {| pickNumber := currentPick state; teamIndex := teamIndex0;
       player := Some p; timestamp := Some now |} in
  let nextPick := currentPick state + 1 in
  let nextTeamIndex :=
    markPlayerAsDrafted_nextTeamIndex (settings state) nextPick teamIndex0 in
  generateRecommendations
    {| isActive := isActive state; currentPick := nextPick;
       currentTeamIndex := nextTeamIndex;
       picks := picks state ++ [newPick];
       timeRemaining :=
         match settings state with
         | Some st => if pickTimeLimit st =? 0 then 120 else pickTimeLimit st
         | None => 120
         end;
       teams := updatedTeams; settings := settings state;
       availablePlayers := updatedAvailablePlayers;
       recommendations := recommendations state |}.

Definition resetDraft (state : DraftStore) : DraftStore := initialStore.

End Store.

(** ** The preference store ([src/stores/userPreferencesStore.ts]) *)

Inductive DraftStrategy : Set := conservative | balanced | aggressive.

Record UserPreferences : Set := mkUserPreferences {
  favoriteTeams : list string;
  avoidTeams : list string;
  playerNotes : list PlayerNote;
  draftStrategy : DraftStrategy;
  prioritizePositions : list Position
}.

(** [Partial<PlayerNote>]: a field that is present overrides the field of
    the note it is spread over; [customRanking: undefined] is present and
    clears the ranking. *)
Record PlayerNoteUpdate : Set := mkPlayerNoteUpdate {
  updNote : option string;
  updIsTarget : option bool;
  updIsAvoid : option bool;
  updCustomRanking : option (option Q)
}.

Definition noUpdate : PlayerNoteUpdate :=
  {| updNote := None; updIsTarget := None; updIsAvoid := None;
     updCustomRanking := None |}.

Definition orElse {A : Type} (o : option A) (d : A) : A :=
  match o with Some x => x | None => d end.

(** [{...n, ...updates}] *)
Definition applyUpdate (n : PlayerNote) (u : PlayerNoteUpdate) : PlayerNote :=
  {| playerId := playerId n;
     note := orElse (updNote u) (note n);
     isTarget := orElse (updIsTarget u) (isTarget n);
     isAvoid := orElse (updIsAvoid u) (isAvoid n);
     customRanking := orElse (updCustomRanking u) (customRanking n) |}.

Definition setPlayerNotes (state : UserPreferences) (ns : list PlayerNote)
  : UserPreferences :=
  {| favoriteTeams := favoriteTeams state; avoidTeams := avoidTeams state;
     playerNotes := ns; draftStrategy := draftStrategy state;
     prioritizePositions := prioritizePositions state |}.

Definition getPlayerNote (state : UserPreferences) (pid : string)
  : option PlayerNote :=
  find (fun n => str_eqb (playerId n) pid) (playerNotes state).

Definition addPlayerNote (pid text : string) (state : UserPreferences)
  : UserPreferences :=
  match find (fun n => str_eqb (playerId n) pid) (playerNotes state) with
  | Some _ =>
    setPlayerNotes state
      (map (fun n => if str_eqb (playerId n) pid
                     then applyUpdate n
                            {| updNote := Some text; updIsTarget := None;
                               updIsAvoid := None; updCustomRanking := None |}
                     else n) (playerNotes state))
  | None =>
    setPlayerNotes state
      (playerNotes state ++
       [{| playerId := pid; note := text; isTarget := false;
           isAvoid := false; customRanking := None |}])
  end.

Definition updatePlayerNote (pid : string) (updates : PlayerNoteUpdate)
    (state : UserPreferences) : UserPreferences :=
  setPlayerNotes state
    (map (fun n => if str_eqb (playerId n) pid then applyUpdate n updates
                   else n) (playerNotes state)).

Definition setPlayerTarget (pid : string) (isTarget0 : bool)
    (state : UserPreferences) : UserPreferences :=
  match find (fun n => str_eqb (playerId n) pid) (playerNotes state) with
  | Some existingNote =>
    updatePlayerNote pid
      {| updNote := None; updIsTarget := Some isTarget0;
         updIsAvoid :=
           Some (if isTarget0 then false else isAvoid existingNote);
         updCustomRanking := None |} state
  | None =>
    updatePlayerNote pid
      {| updNote := None; updIsTarget := Some isTarget0;
         updIsAvoid := None; updCustomRanking := None |}
      (addPlayerNote pid EmptyString state)
  end.

Definition setPlayerAvoid (pid : string) (isAvoid0 : bool)
    (state : UserPreferences) : UserPreferences :=
  match find (fun n => str_eqb (playerId n) pid) (playerNotes state) with
  | Some existingNote =>
    updatePlayerNote pid
      {| updNote := None;
         updIsTarget :=
           Some (if isAvoid0 then false else isTarget existingNote);
         updIsAvoid := Some isAvoid0;
         updCustomRanking := None |} state
  | None =>
    updatePlayerNote pid
      {| updNote := None; updIsTarget := None;
         updIsAvoid := Some isAvoid0; updCustomRanking := None |}
      (addPlayerNote pid EmptyString state)
  end.

(** [arr.includes(x)] on an array of strings. *)
Definition includes (l : list string) (x : string) : bool :=
  existsb (fun y => str_eqb y x) l.

(** [Math.round]: the nearest integer, a tie going up. *)
Definition Math_round (x : Q) : Z := Qfloor (x + (1 # 2))%Q.

Definition calculateAdjustedValue (state : UserPreferences) (p : Player)
    (baseValue : Q) : Q :=
  match getPlayerNote state (id p) with
  | None => baseValue
  | Some n =>
    let adjustedValue := baseValue in
    let adjustedValue :=
      match customRanking n with
      | Some r => (r * 2)%Q
      | None => adjustedValue
      end in
    let adjustedValue :=
      if isTarget n then (adjustedValue * (12 # 10))%Q
      else if isAvoid n then (adjustedValue * (6 # 10))%Q
      else adjustedValue in
    let favoriteBoost :=
      if includes (favoriteTeams state) (team p) then (11 # 10)%Q else 1%Q in
    let avoidPenalty :=
      if includes (avoidTeams state) (team p) then (9 # 10)%Q else 1%Q in
    let adjustedValue := (adjustedValue * (favoriteBoost * avoidPenalty))%Q in
    (inject_Z (Math_round (adjustedValue * 100)) / 100)%Q
  end.

(** The adjustment pipeline as the specification words it: five steps in a
    fixed order, applied to every player; a player without a preference
    record has no custom rank and neither flag. *)
Definition adjustedValue_spec (state : UserPreferences) (p : Player)
    (baseValue : Q) : Q :=
  let n := getPlayerNote state (id p) in
  let rank := match n with Some n => customRanking n | None => None end in
  let target := match n with Some n => isTarget n | None => false end in
  let avoid := match n with Some n => isAvoid n | None => false end in
  let v1 := match rank with Some r => (r * 2)%Q | None => baseValue end in
  let v2 := if target then (v1 * (12 # 10))%Q
            else if avoid then (v1 * (6 # 10))%Q else v1 in
  let v3 := if includes (favoriteTeams state) (team p)
            then (v2 * (11 # 10))%Q else v2 in
  let v4 := if includes (avoidTeams state) (team p)
            then (v3 * (9 # 10))%Q else v3 in
  (inject_Z (Qfloor (v4 * 100 + (1 # 2))) / 100)%Q.

(** The turn order as the specification words it. *)
Definition turnOrder_spec (dt : DraftType) (numberOfTeams0 pickNumber0 : Z)
  : Z :=
  match dt with
  | linear => (pickNumber0 - 1) mod numberOfTeams0
  | snake =>
    let round := (pickNumber0 - 1) / numberOfTeams0 in
    let posInRound := (pickNumber0 - 1) mod numberOfTeams0 in
    if Z.even round then posInRound else numberOfTeams0 - 1 - posInRound
  end.

(** ** Identifiers ([src/lib/csvParser.ts]) *)

Definition between (lo hi : nat) (c : ascii) : bool :=
  (lo <=? nat_of_ascii c)%nat && (nat_of_ascii c <=? hi)%nat.

Definition is_upper (c : ascii) : bool := between 65 90 c.
Definition is_lower (c : ascii) : bool := between 97 122 c.
Definition is_digit (c : ascii) : bool := between 48 57 c.

(** [\s] on code units below 256: tab, line feed, vertical tab, form feed,
    carriage return, space and no-break space. *)
Definition is_space (c : ascii) : bool :=
  between 9 13 c || (nat_of_ascii c =? 32)%nat || (nat_of_ascii c =? 160)%nat.

(** [\w]: what [\b] looks at. *)
Definition is_word (c : ascii) : bool :=
  is_lower c || is_upper c || is_digit c || (nat_of_ascii c =? 95)%nat.

(** [toLowerCase] on the letters that matter below: [A-Z] become [a-z];
    no other code unit below 256 is mapped into [a-z], [0-9] or [\s]. *)
Definition lower (c : ascii) : ascii :=
  if is_upper c then ascii_of_nat (nat_of_ascii c + 32) else c.

Definition toLowerCase (s : list ascii) : list ascii := map lower s.

Definition positionName (p : Position) : string :=
  match p with
  | QB => "QB" | RB => "RB" | WR => "WR" | TE => "TE" | K => "K"
  | DEF => "DEF" | DB => "DB" | DL => "DL" | LB => "LB"
  end.

Definition dash : ascii := "-"%char.

Definition generatePlayerId (name0 team0 position0 : string) : string :=
  string_of_list_ascii
    (map (fun c => if is_lower c || is_digit c then c else dash)
         (toLowerCase (list_ascii_of_string name0))
     ++ [dash] ++ toLowerCase (list_ascii_of_string team0)
     ++ [dash] ++ toLowerCase (list_ascii_of_string position0)).

(** ** The player database ([src/lib/playerDatabase.ts]) *)

(** [.replace(/[^a-z0-9\s]/g, '')] *)
Definition removeSpecial (s : list ascii) : list ascii :=
  filter (fun c => is_lower c || is_digit c || is_space c) s.

(** [.replace(/\s+/g, ' ')]: [inRun] tells that the previous code unit was
    white space, whose run has already been replaced. *)
Fixpoint collapseSpaces (inRun : bool) (s : list ascii) : list ascii :=
  match s with
  | [] => []
  | c :: s' =>
    if is_space c
    then if inRun then collapseSpaces true s'
         else " "%char :: collapseSpaces true s'
    else c :: collapseSpaces false s'
  end.

Fixpoint trimStart (s : list ascii) : list ascii :=
  match s with
  | [] => []
  | c :: s' => if is_space c then trimStart s' else s
  end.

Definition trim (s : list ascii) : list ascii :=
  rev (trimStart (rev (trimStart s))).

(** The alternatives of [/\b(jr|sr|iii|ii|iv)\b/], in the order in which
    the regular expression tries them. *)
Definition suffixAlternatives : list (list ascii) :=
  map list_ascii_of_string ["jr"; "sr"; "iii"; "ii"; "iv"]%string.

(** What is left of [s] after the prefix [pat], when [s] starts with it. *)
Fixpoint afterPrefix (pat s : list ascii) : option (list ascii) :=
  match pat, s with
  | [], _ => Some s
  | _ :: _, [] => None
  | a :: pat', c :: s' =>
    if Ascii.eqb a c then afterPrefix pat' s' else None
  end.

(** [\b] between a code unit that is a word character or not ([before])
    and the rest of the input. *)
Definition wordBoundary (before : bool) (rest : list ascii) : bool :=
  xorb before (match rest with [] => false | c :: _ => is_word c end).

(** The length of the match of [(jr|sr|iii|ii|iv)\b] at the head of [s]:
    the first alternative that is a prefix of [s] and ends at a word
    boundary. *)
Fixpoint matchAlternative (alts : list (list ascii)) (s : list ascii)
  : option nat :=
  match alts with
  | [] => None
  | a :: alts' =>
    match afterPrefix a s with
    | Some rest =>
      if wordBoundary true rest then Some (List.length a)
      else matchAlternative alts' s
    | None => matchAlternative alts' s
    end
  end.

(** [.replace(/\b(jr|sr|iii|ii|iv)\b/g, '')]: scan from the left;
    [before] is whether the previous code unit of the input is a word
    character, [skip] counts the code units of a match still to drop. *)
Fixpoint removeSuffixes (before : bool) (skip : nat) (s : list ascii)
  : list ascii :=
  match s with
  | [] => []
  | c :: s' =>
    match skip with
    | S k => removeSuffixes (is_word c) k s'
    | O =>
      match (if wordBoundary before s
             then matchAlternative suffixAlternatives s else None) with
      | Some (S k) => removeSuffixes (is_word c) k s'
      | _ => c :: removeSuffixes (is_word c) 0 s'
      end
    end
  end.

Definition normalizePlayerName (name0 : string) : string :=
  string_of_list_ascii
    (trim
       (removeSuffixes false 0
          (trim
             (collapseSpaces false
                (removeSpecial
                   (toLowerCase (list_ascii_of_string name0))))))).

Inductive ConflictType : Set := statsConflict | teamConflict | positionConflict.

Record Conflict : Set := mkConflict {
  conflictPlayerId : string;
  conflictPlayerName : string;
  conflictType : ConflictType;
  conflictSources : list string
}.

Definition Position_eqb (a b : Position) : bool :=
  match a, b with
  | QB, QB | RB, RB | WR, WR | TE, TE | K, K | DEF, DEF | DB, DB
  | DL, DL | LB, LB => true
  | _, _ => false
  end.

(** A number is truthy when it is not zero; an absent key reads as
    [undefined], which is falsy. *)
Definition truthy (v : option Q) : bool :=
  match v with Some q => negb (Qeq_bool q 0) | None => false end.

Fixpoint statsGet (key : string) (o : Stats) : option Q :=
  match o with
  | [] => None
  | (k, v) :: o' => if str_eqb k key then Some v else statsGet key o'
  end.

(** [o[key] = v]: an own key keeps its place, a new key goes last. *)
Fixpoint statsSet (key : string) (v : Q) (o : Stats) : Stats :=
  match o with
  | [] => [(key, v)]
  | (k, w) :: o' =>
    if str_eqb k key then (k, v) :: o' else (k, w) :: statsSet key v o'
  end.

(** The [Object.keys(...).forEach] of [mergePlayerData]: a statistic of the
    incoming record is adopted when it is truthy and the merged record has
    no truthy value for it. *)
Definition mergeProjectedStats (incoming merged : Stats) : Stats :=
  fold_left
    (fun acc kv =>
       if truthy (Some (snd kv)) && negb (truthy (statsGet (fst kv) acc))
       then statsSet (fst kv) (snd kv) acc
       else acc)
    incoming merged.

Definition setTeam (p : Player) (t : string) : Player :=
  {| id := id p; name := name p; team := t; position := position p;
     byeWeek := byeWeek p; data := data p |}.

Definition setData (p : Player) (d : PlayerData) : Player :=
  {| id := id p; name := name p; team := team p; position := position p;
     byeWeek := byeWeek p; data := d |}.

(** The two statistics blocks of the loop body of [mergePlayerData]:
    ['vorp' in player && 'vorp' in mergedPlayer] holds exactly when both
    are offensive records, ['tier' in ...] when both are IDP records.
    ([mergedPlayer] is a shallow copy of the base record, so the source
    also changes the [projectedStats] object of the base record; the base
    record is not read again after the merge.) *)
Definition mergeData (incoming merged : PlayerData) : PlayerData :=
  match incoming, merged with
  | OffensiveData v _ ps _ _, OffensiveData mv mf mps madp mav =>
    OffensiveData (if Qlt_le_dec mv v then v else mv) mf
                  (mergeProjectedStats ps mps) madp mav
  | IDPData t _, IDPData mt mps =>
    IDPData (if Qlt_le_dec t mt then t else mt) mps
  | _, _ => merged
  end.

(** One turn of the [forEach] over [playerGroup.slice(1)]. *)
Definition mergeOne (basePlayer : Player) (sources : list string)
    (acc : Player * list Conflict) (p : Player) : Player * list Conflict :=
  let '(mergedPlayer, conflicts) := acc in
  let '(mergedPlayer, conflicts) :=
    if negb (str_eqb (team p) (team basePlayer)) then
      (if negb (str_eqb (team p) EmptyString)
          && str_eqb (team mergedPlayer) EmptyString
       then setTeam mergedPlayer (team p) else mergedPlayer,
       conflicts ++ [{| conflictPlayerId := id basePlayer;
                        conflictPlayerName := name basePlayer;
                        conflictType := teamConflict;
                        conflictSources := sources |}])
    else (mergedPlayer, conflicts) in
  let conflicts :=
    if negb (Position_eqb (position p) (position basePlayer)) then
      conflicts ++ [{| conflictPlayerId := id basePlayer;
                       conflictPlayerName := name basePlayer;
                       conflictType := positionConflict;
                       conflictSources := sources |}]
    else conflicts in
  (setData mergedPlayer (mergeData (data p) (data mergedPlayer)), conflicts).

(** [mergePlayerData]: the merged record together with the conflict array
    after the pushes of the call.  The group is never empty at the call
    site; on an empty group the source fails, here [None]. *)
Definition mergePlayerData (playerGroup : list Player)
    (conflicts : list Conflict) (sources : list string)
  : option (Player * list Conflict) :=
  match playerGroup with
  | [] => None
  | basePlayer :: others =>
    Some (fold_left (mergeOne basePlayer sources) others
                    (basePlayer, conflicts))
  end.

(** [Map<string, V>]: keys in insertion order. *)
Definition JsMap (V : Type) : Type := list (string * V).

Fixpoint mapGet {V : Type} (key : string) (m : JsMap V) : option V :=
  match m with
  | [] => None
  | (k, v) :: m' => if str_eqb k key then Some v else mapGet key m'
  end.

Fixpoint mapSet {V : Type} (key : string) (v : V) (m : JsMap V) : JsMap V :=
  match m with
  | [] => [(key, v)]
  | (k, w) :: m' =>
    if str_eqb k key then (k, v) :: m' else (k, w) :: mapSet key v m'
  end.

Record PlayerMergeResult : Set := mkPlayerMergeResult {
  mergedPlayers : list Player;
  duplicatesFound : Z;
  conflicts : list Conflict
}.

(** The first loop of [mergePlayersFromSources]: group by normalised
    name. *)
Definition groupByName (newPlayers : list Player) : JsMap (list Player) :=
  fold_left
    (fun nameMap p =>
       let normalizedName := normalizePlayerName (name p) in
       let existing := orElse (mapGet normalizedName nameMap) [] in
       mapSet normalizedName (existing ++ [p]) nameMap)
    newPlayers [].

(** The second loop: one step per group, on the database map and the
    result under construction. *)
Definition mergeGroup (sources : list string)
    (acc : JsMap Player * PlayerMergeResult)
    (entry : string * list Player) : JsMap Player * PlayerMergeResult :=
  let '(players, res) := acc in
  match snd entry with
  | [p] =>
    (mapSet (id p) p players,
     {| mergedPlayers := mergedPlayers res ++ [p];
        duplicatesFound := duplicatesFound res;
        conflicts := conflicts res |})
  | playerGroup =>
    match mergePlayerData playerGroup (conflicts res) sources with
    | None => acc
    | Some (mergedPlayer, conflicts') =>
      (mapSet (id mergedPlayer) mergedPlayer players,
       {| mergedPlayers := mergedPlayers res ++ [mergedPlayer];
          duplicatesFound :=
            duplicatesFound res + (Z.of_nat (List.length playerGroup) - 1);
          conflicts := conflicts' |})
    end
  end.

(** [mergePlayersFromSources] on the database map [players]: the map after
    the call and the result returned (its [stats] member, a summary with
    a date, is left out). *)
Definition mergePlayersFromSources (players : JsMap Player)
    (newPlayers : list Player) (sources : list string)
  : JsMap Player * PlayerMergeResult :=
  fold_left (mergeGroup sources) (groupByName newPlayers)
    (players,
     {| mergedPlayers := []; duplicatesFound := 0; conflicts := [] |}).

(** ** The draft room ([src/components/DraftRoom.tsx]): what it does to the
    store *)

(** [teams[i]]: [undefined] when [i] is not the index of a team. *)
Definition teamAt (ts : list DraftTeam) (i : Z) : option DraftTeam :=
  if i <? 0 then None else nth_error ts (Z.to_nat i).

(** [teams[currentTeamIndex]?.isUser] *)
Definition isUserTurn (state : DraftStore) : bool :=
  match teamAt (teams state) (currentTeamIndex state) with
  | Some t => isUser t
  | None => false
  end.

Section DraftRoom.
Context {host : Host}.

(** [handlePlayerPick]: the user's own pick goes through [makePick], the
    pick of another team is recorded with [markPlayerAsDrafted] for the
    team on the clock; nothing happens while the draft is paused.  (The
    search box that the handler also clears is not part of the store.) *)
Definition handlePlayerPick (p : Player) (now : Z) (state : DraftStore)
  : DraftStore :=
  if negb (isActive state) then state
  else if isUserTurn state then makePick p now state
  else markPlayerAsDrafted p (currentTeamIndex state) now state.

(** One firing of the timer effect: a second is taken off the clock while
    the draft is active and time is left. *)
Definition timerTick (state : DraftStore) : DraftStore :=
  if negb (isActive state) || (timeRemaining state <=? 0) then state
  else updateTimer (timeRemaining state - 1) state.

End DraftRoom.

(** ** The preference store, continued
    ([src/stores/userPreferencesStore.ts]) *)

Definition removePlayerNote (pid : string) (state : UserPreferences)
  : UserPreferences :=
  setPlayerNotes state
    (filter (fun n => negb (str_eqb (playerId n) pid)) (playerNotes state)).

Definition setCustomRanking (pid : string) (ranking : Q)
    (state : UserPreferences) : UserPreferences :=
  match find (fun n => str_eqb (playerId n) pid) (playerNotes state) with
  | Some _ =>
    updatePlayerNote pid
      {| updNote := None; updIsTarget := None; updIsAvoid := None;
         updCustomRanking := Some (Some ranking) |} state
  | None =>
    updatePlayerNote pid
      {| updNote := None; updIsTarget := None; updIsAvoid := None;
         updCustomRanking := Some (Some ranking) |}
      (addPlayerNote pid EmptyString state)
  end.

Definition clearCustomRanking (pid : string) (state : UserPreferences)
  : UserPreferences :=
  updatePlayerNote pid
    {| updNote := None; updIsTarget := None; updIsAvoid := None;
       updCustomRanking := Some None |} state.

(** [note?.isTarget || false] *)
Definition isPlayerTarget (state : UserPreferences) (pid : string) : bool :=
  match getPlayerNote state pid with
  | Some n => isTarget n
  | None => false
  end.

Definition isPlayerAvoid (state : UserPreferences) (pid : string) : bool :=
  match getPlayerNote state pid with
  | Some n => isAvoid n
  | None => false
  end.

(** [note?.customRanking] *)
Definition getCustomRanking (state : UserPreferences) (pid : string)
  : option Q :=
  match getPlayerNote state pid with
  | Some n => customRanking n
  | None => None
  end.

Definition importPlayerNotes (notes : list PlayerNote)
    (state : UserPreferences) : UserPreferences :=
  setPlayerNotes state notes.

Definition clearAllNotes (state : UserPreferences) : UserPreferences :=
  setPlayerNotes state [].

(** ** The player database, continued ([src/lib/playerDatabase.ts]) *)

(** [Map.prototype.delete]: the map without the key, and whether the key
    was there. *)
Fixpoint mapDelete {V : Type} (key : string) (m : JsMap V) : JsMap V * bool :=
  match m with
  | [] => ([], false)
  | (k, v) :: m' =>
    if str_eqb k key then (m', true)
    else let '(m'', found) := mapDelete key m' in ((k, v) :: m'', found)
  end.

(** [Array.from(this.players.values())] *)
Definition getAllPlayers (players : JsMap Player) : list Player :=
  map snd players.

Definition getPlayer (players : JsMap Player) (pid : string)
  : option Player :=
  mapGet pid players.

Definition addPlayer (p : Player) (players : JsMap Player) : JsMap Player :=
  mapSet (id p) p players.

Definition removePlayer (pid : string) (players : JsMap Player)
  : JsMap Player * bool :=
  mapDelete pid players.

(** ** The quick draft setup ([QuickDraftSetup.tsx]) *)

(** A count or an index in a template string: its decimal digits. *)
Definition decimal (n : nat) : string :=
  NilEmpty.string_of_uint (Nat.to_uint n).

(** [Array.from({ length: numberOfTeams }, (_, index) => ...)] *)
Definition quickTeams (numberOfTeams0 draftPosition : Z) : list DraftTeam :=
  map (fun index =>
         {| teamId := "team-" ++ decimal index;
            teamName := if Z.of_nat index =? draftPosition - 1
                        then "Your Team"
                        else "Team " ++ decimal (index + 1);
            roster := [];
            isUser := Z.of_nat index =? draftPosition - 1 |})
      (seq 0 (Z.to_nat numberOfTeams0)).

Definition quickDefaultRoster : RosterPositions :=
  {| rpQB := 1; rpRB := 2; rpWR := 3; rpTE := 1; rpWRT := 2; rpK := 1;
     rpDEF := 1; rpDB := 1; rpDL := 1; rpLB := 1; rpBN := 6; rpIR := 1 |}.

Section QuickDraftSetup.
Context {host : Host}.

(** [handleQuickStart], as far as the draft store goes: with an empty
    database nothing is initialised; otherwise the draft is initialised
    with the teams above and all the players of the database.
    [draftSettings] is what the settings store holds.  (The write to the
    settings store and the change of screen are left out.) *)
Definition handleQuickStart (numberOfTeams0 draftPosition : Z)
    (draftType0 : DraftType) (pickTimeLimit0 : Z)
    (draftSettings : option DraftSettings) (players : JsMap Player)
    (state : DraftStore) : DraftStore :=
  let allPlayers := getAllPlayers players in
  if Nat.eqb (List.length allPlayers) 0 then state
  else
    let quickSettings :=
      {| numberOfTeams := numberOfTeams0;
         userTeamIndex := draftPosition - 1;
         draftType := draftType0;
         pickTimeLimit := pickTimeLimit0;
         rosterPositions :=
           match draftSettings with
           | Some d => rosterPositions d
           | None => quickDefaultRoster
           end |} in
    initializeDraft quickSettings (quickTeams numberOfTeams0 draftPosition)
                    allPlayers state.

End QuickDraftSetup.

(** ** Team and position codes ([src/lib/csvParser.ts])

    [toUpperCase] is modelled on ASCII input. *)

Definition upper (c : ascii) : ascii :=
  if is_lower c then ascii_of_nat (nat_of_ascii c - 32) else c.

Definition toUpperCase (s : list ascii) : list ascii := map upper s.

Definition TEAM_ABBREVIATIONS : JsMap string :=
  [("ARI", "ARI"); ("ARZ", "ARI"); ("ARIZ", "ARI"); ("ATL", "ATL");
   ("BAL", "BAL"); ("BALT", "BAL"); ("BUF", "BUF"); ("CAR", "CAR");
   ("CHI", "CHI"); ("CIN", "CIN"); ("CLE", "CLE"); ("CLEV", "CLE");
   ("DAL", "DAL"); ("DEN", "DEN"); ("DENV", "DEN"); ("DET", "DET");
   ("GB", "GB"); ("GBP", "GB"); ("GNBY", "GB"); ("HOU", "HOU");
   ("IND", "IND"); ("JAC", "JAC"); ("JAX", "JAC"); ("KC", "KC");
   ("KAN", "KC"); ("LV", "LV"); ("LVR", "LV"); ("RAI", "LV");
   ("LAC", "LAC"); ("LACH", "LAC"); ("SD", "LAC"); ("LAR", "LAR");
   ("LARM", "LAR"); ("STL", "LAR"); ("MIA", "MIA"); ("MIN", "MIN");
   ("MINN", "MIN"); ("NE", "NE"); ("NEP", "NE"); ("NWE", "NE");
   ("NO", "NO"); ("NOR", "NO"); ("NOLA", "NO"); ("NYG", "NYG");
   ("NYGI", "NYG"); ("NYJ", "NYJ"); ("NYJE", "NYJ"); ("PHI", "PHI");
   ("PHIL", "PHI"); ("PIT", "PIT"); ("PITT", "PIT"); ("SF", "SF");
   ("SFO", "SF"); ("SEA", "SEA"); ("SEAT", "SEA"); ("TB", "TB");
   ("TAM", "TB"); ("TEN", "TEN"); ("TENN", "TEN"); ("WAS", "WAS");
   ("WSH", "WAS"); ("WASH", "WAS")]%string.

(** [String(team).toUpperCase().trim()] *)
Definition upperTrim (s : string) : string :=
  string_of_list_ascii (trim (toUpperCase (list_ascii_of_string s))).

(** [TEAM_ABBREVIATIONS[upperTeam] || upperTeam]: every value of the table
    is a non-empty string, and no property that a plain object inherits
    has an upper-case name. *)
Definition normalizeTeam (team0 : string) : string :=
  let upperTeam := upperTrim team0 in
  match mapGet upperTeam TEAM_ABBREVIATIONS with
  | Some t => t
  | None => upperTeam
  end.

(** [s.includes(sub)] *)
Fixpoint includesStr (sub s : list ascii) : bool :=
  match afterPrefix sub s with
  | Some _ => true
  | None => match s with
            | [] => false
            | _ :: s' => includesStr sub s'
            end
  end.

Fixpoint dropDigits (s : list ascii) : list ascii :=
  match s with
  | [] => []
  | c :: s' => if is_digit c then dropDigits s' else s
  end.

(** [pos.replace(/\d+$/, '')]: the digits at the end go. *)
Definition stripTrailingDigits (s : list ascii) : list ascii :=
  rev (dropDigits (rev s)).

Definition cleanPosition (position0 : string) : string :=
  string_of_list_ascii
    (stripTrailingDigits (list_ascii_of_string (upperTrim position0))).

Definition posIncludes (cleanPos sub : string) : bool :=
  includesStr (list_ascii_of_string sub) (list_ascii_of_string cleanPos).

Definition normalizePosition (position0 : string) : string :=
  let cleanPos := cleanPosition position0 in
  if posIncludes cleanPos "LB" || str_eqb cleanPos "MLB"
     || str_eqb cleanPos "OLB" || str_eqb cleanPos "ILB" then "LB"
  else if posIncludes cleanPos "DE" || posIncludes cleanPos "DT"
          || str_eqb cleanPos "NT" || str_eqb cleanPos "DL" then "DL"
  else if posIncludes cleanPos "DB" || str_eqb cleanPos "CB"
          || str_eqb cleanPos "S" || str_eqb cleanPos "SS"
          || str_eqb cleanPos "FS" then "DB"
  else if posIncludes cleanPos "DEF" || str_eqb cleanPos "DST"
          || str_eqb cleanPos "D/ST" then "DEF"
  else if str_eqb cleanPos "K" || str_eqb cleanPos "PK" then "K"
  else if str_eqb cleanPos "QB" then "QB"
  else if str_eqb cleanPos "RB" || str_eqb cleanPos "FB" then "RB"
  else if str_eqb cleanPos "WR" then "WR"
  else if str_eqb cleanPos "TE" then "TE"
  else cleanPos.

(** ** The scoring engine ([src/lib/scoringEngine.ts])

    Points are exact rationals.  A division by a [yardsPerPoint] of zero,
    which gives an infinity in JavaScript, gives 0 here; the statements
    below do not depend on it. *)

Record YardBonus : Set := mkYardBonus { threshold : Q; bonusPoints : Q }.

Record PassingScoring : Set := mkPassingScoring {
  passYardsPerPoint : Q; passTdPoints : Q; interceptionPenalty : Q;
  passYardBonus : list YardBonus
}.

Record RushingScoring : Set := mkRushingScoring {
  rushYardsPerPoint : Q; rushTdPoints : Q; rushYardBonus : list YardBonus
}.

Record ReceivingScoring : Set := mkReceivingScoring {
  recYardsPerPoint : Q; recTdPoints : Q; receptionPoints : Q;
  recYardBonus : list YardBonus
}.

Record FieldGoalRange : Set := mkFieldGoalRange {
  fgMinYards : Q; fgMaxYards : Q; fgPoints : Q
}.

Record MissedFieldGoalRange : Set := mkMissedFieldGoalRange {
  missMinYards : Q; missMaxYards : Q; missPenalty : Q
}.

Record KickingScoring : Set := mkKickingScoring {
  fieldGoalRanges : list FieldGoalRange;
  missedFieldGoalRanges : list MissedFieldGoalRange;
  extraPointValue : Q
}.

Record PointsAllowedRange : Set := mkPointsAllowedRange {
  minPoints : Q; maxPoints : Q; rangePoints : Q
}.

Record TeamDefenseScoring : Set := mkTeamDefenseScoring {
  defSack : Q; defInterception : Q; defFumbleRecovery : Q;
  defTouchdown : Q; defSafety : Q;
  pointsAllowedRanges : list PointsAllowedRange
}.

Record IdpScoring : Set := mkIdpScoring {
  idpSoloTackle : Q; idpAssistTackle : Q; idpSack : Q;
  idpInterception : Q; idpForcedFumble : Q; idpFumbleRecovery : Q;
  idpTouchdown : Q; idpSafety : Q
}.

Record LeagueSettings : Set := mkLeagueSettings {
  passing : PassingScoring;
  rushing : RushingScoring;
  receiving : ReceivingScoring;
  kicking : KickingScoring;
  teamDefense : TeamDefenseScoring;
  idp : IdpScoring
}.

(** [stats.key || 0] *)
Definition statOr0 (stats : Stats) (key : string) : Q :=
  match statsGet key stats with
  | Some v => if Qeq_bool v 0 then 0%Q else v
  | None => 0%Q
  end.

(** [Math.floor(yards / yardsPerPoint)] and the bonuses whose threshold is
    reached, when there are yards at all. *)
Definition yardPoints (yards : option Q) (yardsPerPoint : Q)
    (bonuses : list YardBonus) : Q :=
  if truthy yards then
    let y := orElse yards 0%Q in
    fold_left
      (fun points bonus =>
         if Qle_bool (threshold bonus) y then (points + bonusPoints bonus)%Q
         else points)
      bonuses (inject_Z (Qfloor (y / yardsPerPoint)))
  else 0%Q.

Definition projectedStatsOf (d : PlayerData) : Stats :=
  match d with
  | OffensiveData _ _ ps _ _ => ps
  | IDPData _ ps => ps
  | TeamDefenseData ps _ => ps
  | KickerData ps => ps
  end.

Section ScoringEngine.
Variable leagueSettings : LeagueSettings.

Definition calculatePassingPoints (stats : Stats) : Q :=
  let scoring := passing leagueSettings in
  (yardPoints (statsGet "passingYards" stats) (passYardsPerPoint scoring)
              (passYardBonus scoring)
   + statOr0 stats "passingTDs" * passTdPoints scoring
   + statOr0 stats "interceptions" * interceptionPenalty scoring)%Q.

Definition calculateRushingPoints (stats : Stats) : Q :=
  let scoring := rushing leagueSettings in
  (yardPoints (statsGet "rushingYards" stats) (rushYardsPerPoint scoring)
              (rushYardBonus scoring)
   + statOr0 stats "rushingTDs" * rushTdPoints scoring)%Q.

Definition calculateReceivingPoints (stats : Stats) : Q :=
  let scoring := receiving leagueSettings in
  (statOr0 stats "receptions" * receptionPoints scoring
   + yardPoints (statsGet "receivingYards" stats) (recYardsPerPoint scoring)
                (recYardBonus scoring)
   + statOr0 stats "receivingTDs" * recTdPoints scoring)%Q.

(** [Math.round(points * 100) / 100] *)
Definition round2 (points : Q) : Q :=
  (inject_Z (Math_round (points * 100)) / 100)%Q.

Definition calculateOffensivePoints (stats : Stats) : Q :=
  round2 (0 + calculatePassingPoints stats + calculateRushingPoints stats
          + calculateReceivingPoints stats
          + statOr0 stats "fumbles" * (-2 # 1))%Q.

Definition calculateKickerPoints (stats : Stats) : Q :=
  let scoring := kicking leagueSettings in
  let fieldGoals := statOr0 stats "fieldGoals" in
  let shortFG := inject_Z (Math_round (fieldGoals * (5 # 10))) in
  let mediumFG := inject_Z (Math_round (fieldGoals * (35 # 100))) in
  let longFG := inject_Z (Math_round (fieldGoals * (15 # 100))) in
  let points :=
    fold_left
      (fun points range =>
         if Qeq_bool (fgMinYards range) 0
         then (points + shortFG * fgPoints range)%Q
         else if Qeq_bool (fgMinYards range) 40
         then (points + mediumFG * fgPoints range)%Q
         else if Qeq_bool (fgMinYards range) 50
         then (points + longFG * fgPoints range)%Q
         else points)
      (fieldGoalRanges scoring) 0%Q in
  let points := (points + statOr0 stats "extraPoints"
                          * extraPointValue scoring)%Q in
  let attempts :=
    if truthy (statsGet "fieldGoalAttempts" stats)
    then orElse (statsGet "fieldGoalAttempts" stats) 0%Q else fieldGoals in
  let missedFG := inject_Z (Math_round (attempts * (1 # 10))) in
  let shortMissed := inject_Z (Math_round (missedFG * (3 # 10))) in
  let mediumMissed := inject_Z (Math_round (missedFG * (7 # 10))) in
  let points :=
    fold_left
      (fun points range =>
         if Qeq_bool (missMinYards range) 0
         then (points + shortMissed * missPenalty range)%Q
         else if Qeq_bool (missMinYards range) 20
         then (points + mediumMissed * missPenalty range)%Q
         else points)
      (missedFieldGoalRanges scoring) points in
  round2 points.

(** [stats.pointsAllowed || 21] *)
Definition pointsAllowedOr21 (stats : Stats) : Q :=
  if truthy (statsGet "pointsAllowed" stats)
  then orElse (statsGet "pointsAllowed" stats) 0%Q else 21%Q.

Definition calculateDefensePoints (stats : Stats) : Q :=
  let scoring := teamDefense leagueSettings in
  let points :=
    (0 + statOr0 stats "sacks" * defSack scoring
     + statOr0 stats "interceptions" * defInterception scoring
     + statOr0 stats "fumbleRecoveries" * defFumbleRecovery scoring
     + statOr0 stats "defensiveTDs" * defTouchdown scoring
     + statOr0 stats "safeties" * defSafety scoring)%Q in
  let pointsAllowed := pointsAllowedOr21 stats in
  round2
    (fold_left
       (fun points range =>
          if Qle_bool (minPoints range) pointsAllowed
             && Qle_bool pointsAllowed (maxPoints range)
          then (points + rangePoints range)%Q else points)
       (pointsAllowedRanges scoring) points).

Definition calculateIDPPoints (stats : Stats) : Q :=
  let scoring := idp leagueSettings in
  round2
    (0 + statOr0 stats "soloTackles" * idpSoloTackle scoring
     + statOr0 stats "assistTackles" * idpAssistTackle scoring
     + statOr0 stats "sacks" * idpSack scoring
     + statOr0 stats "interceptions" * idpInterception scoring
     + statOr0 stats "forcedFumbles" * idpForcedFumble scoring
     + statOr0 stats "fumbleRecoveries" * idpFumbleRecovery scoring
     + statOr0 stats "defensiveTDs" * idpTouchdown scoring)%Q.

(** The engine looks at the position and reads the statistics of the
    record as those of that position. *)
Definition calculateWeeklyPoints (p : Player) : Q :=
  let stats := projectedStatsOf (data p) in
  match position p with
  | QB | RB | WR | TE => calculateOffensivePoints stats
  | K => calculateKickerPoints stats
  | DEF => calculateDefensePoints stats
  | DB | DL | LB => calculateIDPPoints stats
  end.

(** The sign of a difference of two numbers, as a comparator result. *)
Definition Qsign (q : Q) : Z := Z.sgn (Qnum q).

(** [l.slice(from, to)] for indices that are not negative. *)
Definition slice {A : Type} (from to : nat) (l : list A) : list A :=
  firstn (to - from) (skipn from l).

(** The players that stand for the replacement level among [n] ranked
    ones: the bounds of the slice of [calculateVORP]. *)
Definition replacementStart (n : Z) : Z := Z.max 0 (Z.min 23 (n - 13)).

Definition replacementEnd (n : Z) : Z :=
  Z.max (replacementStart n + 1) (Z.min 35 (n - 1)).

Definition replacementLevelPlayers {A : Type} (sortedByPoints : list A)
  : list A :=
  let n := Z.of_nat (List.length sortedByPoints) in
  slice (Z.to_nat (replacementStart n)) (Z.to_nat (replacementEnd n + 1))
        sortedByPoints.

Definition calculateVORP (p : Player) (positionPlayers : list Player) : Q :=
  let playerPoints := calculateWeeklyPoints p in
  let sortedByPoints :=
    sort (fun a b => Qsign (snd b - snd a))
         (map (fun q => (q, calculateWeeklyPoints q)) positionPlayers) in
  let window := replacementLevelPlayers sortedByPoints in
  let replacementLevel :=
    if Nat.ltb 0 (List.length window)
    then (fold_left (fun sum e => sum + snd e) window 0
          / inject_Z (Z.of_nat (List.length window)))%Q
    else 0%Q in
  round2 (playerPoints - replacementLevel).

End ScoringEngine.

(** ** Searching the player database ([src/lib/playerDatabase.ts]) *)

Inductive SortKey : Set :=
  byName | byVorp | byFps | byAdp | byProjectedPoints.

Inductive SortDirection : Set := asc | desc.

(** An option that is one value or an array of values. *)
Inductive OneOrMany (A : Type) : Type :=
| one (x : A)
| many (l : list A).
Arguments one {A} x.
Arguments many {A} l.

(** [Array.isArray(v) ? v : [v]] *)
Definition asArray {A : Type} (v : OneOrMany A) : list A :=
  match v with one x => [x] | many l => l end.

Record PlayerSearchOptions : Type := mkPlayerSearchOptions {
  searchPosition : option (OneOrMany Position);
  searchTeam : option (OneOrMany string);
  searchName : option string;
  minVorp : option Q;
  maxVorp : option Q;
  sortBy : option SortKey;
  sortDirection : option SortDirection;
  limit : option Z
}.

(** The truthiness of a team or name option: an absent one and an empty
    string are falsy, an array is truthy even when empty. *)
Definition truthyTeam (t : option (OneOrMany string)) : bool :=
  match t with
  | None => false
  | Some (one s) => negb (str_eqb s "")
  | Some (many _) => true
  end.

Definition truthyName (n : option string) : bool :=
  match n with None => false | Some s => negb (str_eqb s "") end.

Definition isSome {A : Type} (o : option A) : bool :=
  match o with Some _ => true | None => false end.

(** The value-over-replacement number of a record, when it is an offensive
    record (['vorp' in player]). *)
Definition vorpOf (p : Player) : option Q :=
  match data p with OffensiveData v _ _ _ _ => Some v | _ => None end.

(** The [fps] of a record that has the field (['fps' in player]): an
    offensive record, or a team defence whose row carried one. *)
Definition fpsIn (p : Player) : option Q :=
  match data p with
  | OffensiveData _ f _ _ _ => Some f
  | TeamDefenseData _ f => f
  | _ => None
  end.

(** ['adp' in a ? a.adp || 999 : 999] *)
Definition adpOr999 (p : Player) : Q :=
  match data p with
  | OffensiveData _ _ _ (Some a) _ => if Qeq_bool a 0 then 999%Q else a
  | _ => 999%Q
  end.

(** The filter on the VORP range. *)
Definition vorpInRange (options : PlayerSearchOptions) (p : Player) : bool :=
  match vorpOf p with
  | None => false
  | Some vorp =>
    if match minVorp options with
       | Some m => negb (Qle_bool m vorp)
       | None => false
       end then false
    else if match maxVorp options with
            | Some m => negb (Qle_bool vorp m)
            | None => false
            end then false
    else true
  end.

Definition hasSubstring (query s : string) : bool :=
  includesStr (list_ascii_of_string query) (list_ascii_of_string s).

Definition lowerCase (s : string) : string :=
  string_of_list_ascii (toLowerCase (list_ascii_of_string s)).

Section PlayerSearch.
Context {host : Host}.
Variable leagueSettings : LeagueSettings.

(** The number that a numeric sort key reads off a player. *)
Definition sortNumber (key : SortKey) (p : Player) : Q :=
  match key with
  | byName => 0%Q
  | byVorp => orElse (vorpOf p) 0%Q
  | byFps => orElse (fpsIn p) 0%Q
  | byAdp => adpOr999 p
  | byProjectedPoints => calculateWeeklyPoints leagueSettings p
  end.

(** The comparator handed to [results.sort]. *)
Definition searchCompare (key : SortKey) (direction : option SortDirection)
    (a b : Player) : Z :=
  match key with
  | byName =>
    match direction with
    | Some desc => localeCompare (name b) (name a)
    | _ => localeCompare (name a) (name b)
    end
  | _ =>
    match direction with
    | Some desc => Qsign (sortNumber key b - sortNumber key a)
    | _ => Qsign (sortNumber key a - sortNumber key b)
    end
  end.

Definition searchPlayers (options : PlayerSearchOptions)
    (players : JsMap Player) : list Player :=
  let results := getAllPlayers players in
  let results :=
    match searchPosition options with
    | Some ps =>
      filter (fun p => existsb (Position_eqb (position p)) (asArray ps))
             results
    | None => results
    end in
  let results :=
    if truthyTeam (searchTeam options) then
      match searchTeam options with
      | Some ts => filter (fun p => includes (asArray ts) (team p)) results
      | None => results
      end
    else results in
  let results :=
    if truthyName (searchName options) then
      match searchName options with
      | Some n =>
        filter (fun p => hasSubstring (lowerCase n) (lowerCase (name p)))
               results
      | None => results
      end
    else results in
  let results :=
    if isSome (minVorp options) || isSome (maxVorp options)
    then filter (vorpInRange options) results
    else results in
  let results :=
    match sortBy options with
    | Some key => sort (searchCompare key (sortDirection options)) results
    | None => results
    end in
  match limit options with
  | Some n => if 0 <? n then firstn (Z.to_nat n) results else results
  | None => results
  end.

Definition noOptions : PlayerSearchOptions :=
  mkPlayerSearchOptions None None None None None None None None.

Definition getPlayersByPosition (pos : Position) (players : JsMap Player)
  : list Player :=
  searchPlayers
    (mkPlayerSearchOptions (Some (one pos)) None None None None None None
                           None)
    players.

Definition getTopPerformers (pos : Position) (limit0 : Z)
    (players : JsMap Player) : list Player :=
  searchPlayers
    (mkPlayerSearchOptions (Some (one pos)) None None None None
                           (Some byProjectedPoints) (Some desc)
                           (Some limit0))
    players.

Definition getHandcuffRecommendations (rosterPlayers : list Player)
    (players : JsMap Player) : list Player :=
  let rosterRBs :=
    filter (fun p => Position_eqb (position p) RB) rosterPlayers in
  let allRBs := getPlayersByPosition RB players in
  flat_map
    (fun starter =>
       let teamBackups :=
         filter
           (fun rb =>
              str_eqb (team rb) (team starter)
              && negb (str_eqb (id rb) (id starter))
              && negb (existsb (fun rp => str_eqb (id rp) (id rb))
                               rosterPlayers))
           allRBs in
       firstn 1 teamBackups)
    rosterRBs.

End PlayerSearch.

(** ** Vocabulary of the statements *)

(** The players on some roster, team after team. *)
Definition rostered (s : DraftStore) : list Player :=
  List.concat (map roster (teams s)).

(** The ids of the players a pick log names. *)
Definition pickedIds (ps : list DraftPick) : list string :=
  flat_map (fun pk => match player pk with
                      | Some q => [id q]
                      | None => []
                      end) ps.

(** [a] sorts strictly before [b] under the comparator [cmp]. *)
Definition precedes {A : Type} (cmp : A -> A -> Z) (a b : A) : Prop :=
  cmp a b < 0.

(** A list of players in strictly increasing order of name under the
    collation of the host. *)
Definition nameOrdered {host : Host} (l : list Player) : Prop :=
  StronglySorted (precedes (fun a b => localeCompare (name a) (name b))) l.

(** A pick of the log is backed by a roster: it has a pick number of at
    least 1 and names a player who is on the roster of the team whose
    index it carries. *)
Definition pickOnRoster (s : DraftStore) (pk : DraftPick) : Prop :=
  1 <= pickNumber pk /\
  exists (q : Player) (t : DraftTeam),
    player pk = Some q /\ 0 <= teamIndex pk /\
    nth_error (teams s) (Z.to_nat (teamIndex pk)) = Some t /\
    In q (roster t).

(** The invariant of the sessions: available players and rosters together
    are the pool, without repetition of an id; the settings are loaded and
    count the teams; the team on the clock exists; every logged pick is
    backed by a roster, and no id is logged twice. *)
Definition consistentSession (pool : list Player) (s : DraftStore) : Prop :=
  Permutation (availablePlayers s ++ rostered s) pool /\
  NoDup (map id pool) /\
  (exists st, settings s = Some st /\
              numberOfTeams st = Z.of_nat (List.length (teams s)) /\
              0 < numberOfTeams st) /\
  0 <= currentTeamIndex s < Z.of_nat (List.length (teams s)) /\
  1 <= currentPick s /\
  Forall (pickOnRoster s) (picks s) /\
  NoDup (pickedIds (picks s)).

(** The sessions that the store reaches when it is used as intended: a
    draft is initialised with a pool of distinct ids, with as many teams as
    the settings say (at least one) and empty rosters; after that the draft
    may be started and paused, the timer set and the recommendations
    refreshed at any time; a pick is recorded, by [makePick] or by
    [markPlayerAsDrafted], only for an available player,
    [markPlayerAsDrafted] only with the index of a team; [undoLastPick]
    may be used at any time.  ([resetDraft] ends the session: it empties
    the store, and a new pool comes with the next [initializeDraft].) *)
Inductive reachable {host : Host} (pool : list Player) : DraftStore -> Prop :=
| reach_initializeDraft (st : DraftSettings) (ts : list DraftTeam)
    (s0 : DraftStore) :
    NoDup (map id pool) ->
    Forall (fun t => roster t = []) ts ->
    numberOfTeams st = Z.of_nat (List.length ts) ->
    0 < numberOfTeams st ->
    reachable pool (initializeDraft st ts pool s0)
| reach_startDraft (s : DraftStore) :
    reachable pool s -> reachable pool (startDraft s)
| reach_pauseDraft (s : DraftStore) :
    reachable pool s -> reachable pool (pauseDraft s)
| reach_updateTimer (s : DraftStore) (timeRemaining0 : Z) :
    reachable pool s -> reachable pool (updateTimer timeRemaining0 s)
| reach_generateRecommendations (s : DraftStore) :
    reachable pool s -> reachable pool (generateRecommendations s)
| reach_makePick (s : DraftStore) (p : Player) (now : Z) :
    reachable pool s -> In p (availablePlayers s) ->
    reachable pool (makePick p now s)
| reach_markPlayerAsDrafted (s : DraftStore) (p : Player) (ti now : Z) :
    reachable pool s -> In p (availablePlayers s) ->
    0 <= ti < Z.of_nat (List.length (teams s)) ->
    reachable pool (markPlayerAsDrafted p ti now s)
| reach_undoLastPick (s : DraftStore) :
    reachable pool s -> reachable pool (undoLastPick s).

(** [makePick] for each player of a list in turn, the clock advancing by
    one at each pick. *)
Fixpoint makePicks {host : Host} (ps : list Player) (now : Z)
    (state : DraftStore) : DraftStore :=
  match ps with
  | [] => state
  | p :: ps' => makePicks ps' (now + 1) (makePick p now state)
  end.

(** A player the user has not marked: no preference record, or a record
    with both flags off and no custom rank. *)
Definition unmarked (state : UserPreferences) (p : Player) : Prop :=
  match getPlayerNote state (id p) with
  | None => True
  | Some n => isTarget n = false /\ isAvoid n = false /\ customRanking n = None
  end.

(** ** Concrete data for the examples *)

(** A host for the examples: the comparison of code units as collation
    (on the one-letter upper-case names used below every collation agrees
    with it) and an empty recommendation list. *)
Definition exampleHost : Host :=
  {| localeCompare := fun a b =>
       match String.compare a b with Lt => -1 | Eq => 0 | Gt => 1 end;
     recommend := fun _ => [] |}.

Definition noStats : PlayerData := OffensiveData 0 0 [] None None.

Definition examplePlayer (name0 team0 : string) : Player :=
  {| id := generatePlayerId name0 team0 (positionName RB);
     name := name0; team := team0; position := RB; byeWeek := 0;
     data := noStats |}.

Definition playerA : Player := examplePlayer "A" "BAL".
Definition playerB : Player := examplePlayer "B" "PIT".
Definition playerC : Player := examplePlayer "C" "KC".

Definition exampleTeam (n : nat) : DraftTeam :=
  {| teamId := String (ascii_of_nat (65 + n)) EmptyString;
     teamName := String (ascii_of_nat (65 + n)) EmptyString;
     roster := []; isUser := Nat.eqb n 0 |}.

Definition defaultRosterPositions : RosterPositions :=
  {| rpQB := 1; rpRB := 1; rpWR := 2; rpTE := 1; rpWRT := 2; rpK := 1;
     rpDEF := 1; rpDB := 1; rpDL := 1; rpLB := 1; rpBN := 6; rpIR := 1 |}.

Definition exampleSettings (n : Z) (dt : DraftType) : DraftSettings :=
  {| numberOfTeams := n; userTeamIndex := 0; draftType := dt;
     pickTimeLimit := 120; rosterPositions := defaultRosterPositions |}.

(** A two-team snake session just initialised with three players. *)
Definition twoTeamSession : DraftStore :=
  @initializeDraft exampleHost (exampleSettings 2 snake)
    (map exampleTeam (seq 0 2)) [playerA; playerB; playerC] initialStore.

(** Settings with no team and no roster slot. *)
Definition emptySettings : DraftSettings :=
  {| numberOfTeams := 0; userTeamIndex := 0; draftType := snake;
     pickTimeLimit := 120;
     rosterPositions :=
       {| rpQB := 0; rpRB := 0; rpWR := 0; rpTE := 0; rpWRT := 0; rpK := 0;
          rpDEF := 0; rpDB := 0; rpDL := 0; rpLB := 0; rpBN := 0;
          rpIR := 0 |} |}.

(** Twelve teams, and a pool of players named by one letter each. *)
Definition letterPlayer (n : nat) : Player :=
  examplePlayer (String (ascii_of_nat (65 + n)) EmptyString) "BAL".

Definition twelveTeamSession : DraftStore :=
  @initializeDraft exampleHost (exampleSettings 12 snake)
    (map exampleTeam (seq 0 12)) (map letterPlayer (seq 0 20)) initialStore.

(** The twelve-team session after its first twelve picks. *)
Definition sessionAtPick13 : DraftStore :=
  @makePicks exampleHost (map letterPlayer (seq 0 12)) 0 twelveTeamSession.

(** A player that is in no pool of the examples. *)
Definition playerZ : Player := examplePlayer "Z" "NYJ".

(** The two-team session with 57 seconds left on the clock. *)
Definition twoTeamSessionAt57 : DraftStore := updateTimer 57 twoTeamSession.

(** Preferences with Baltimore as a favourite team and no note at all. *)
Definition ravensFan : UserPreferences :=
  {| favoriteTeams := ["BAL"%string]; avoidTeams := []; playerNotes := [];
     draftStrategy := balanced; prioritizePositions := [RB; WR] |}.

(** The default preferences of the store. *)
Definition defaultPreferences : UserPreferences :=
  {| favoriteTeams := []; avoidTeams := []; playerNotes := [];
     draftStrategy := balanced; prioritizePositions := [RB; WR] |}.

(** The two records of the merge scenario, as running backs, with the ids
    that [generatePlayerId] gives them. *)
Definition henryA : Player := examplePlayer "Derrick Henry" "BAL".
Definition henryB : Player := examplePlayer "Derrick Henry Jr." "".

(** ** Further vocabulary *)

(** The pick log is numbered 1, 2, 3, ... and the pick on the clock is the
    next number. *)
Definition logNumbered (s : DraftStore) : Prop :=
  map pickNumber (picks s) =
    map Z.of_nat (seq 1 (List.length (picks s))) /\
  currentPick s = Z.of_nat (List.length (picks s)) + 1.

(** Every entry of a pick log names a player. *)
Definition allWithPlayer (ps : list DraftPick) : Prop :=
  Forall (fun pk => player pk <> None) ps.

(** ** Further data for the examples *)

(** The twelve-team session, started, with team 5 as the user's team, at
    pick 19: the seventh pick of the second round. *)
Definition userAtPick19 : DraftStore :=
  {| isActive := true; currentPick := 19; currentTeamIndex := 5;
     picks := []; timeRemaining := 120;
     teams := map (fun n => {| teamId := teamId (exampleTeam n);
                               teamName := teamName (exampleTeam n);
                               roster := []; isUser := Nat.eqb n 5 |})
                  (seq 0 12);
     settings := Some (exampleSettings 12 snake);
     availablePlayers := map letterPlayer (seq 0 20);
     recommendations := [] |}.

(** No note of the preferences is flagged both as a target and as a player
    to avoid. *)
Definition exclusiveNotes (state : UserPreferences) : Prop :=
  Forall (fun n => isTarget n && isAvoid n = false) (playerNotes state).

(** Preferences with a note for [playerA], flagged as a player to
    avoid, with a custom rank of 5, and one for [playerB]. *)
Definition annotated : UserPreferences :=
  {| favoriteTeams := ["BAL"%string]; avoidTeams := ["PIT"%string];
     playerNotes :=
       [{| playerId := id playerA; note := "injury risk"; isTarget := false;
           isAvoid := true; customRanking := Some (5 # 1) |};
        {| playerId := id playerB; note := ""; isTarget := true;
           isAvoid := false; customRanking := None |}];
     draftStrategy := balanced; prioritizePositions := [RB; WR] |}.

(** A character that may occur in a normalised name: a lower-case letter,
    a digit or the space. *)
Definition nameChar (c : ascii) : bool :=
  is_lower c || is_digit c || Ascii.eqb c " "%char.

(** A character that [normalizePlayerName] drops: neither a letter, nor a
    digit, nor white space. *)
Definition punctuation (c : ascii) : bool :=
  negb (is_upper c || is_lower c || is_digit c || is_space c).

(** The normalised name under which a record is grouped. *)
Definition groupKey (p : Player) : string := normalizePlayerName (name p).

(** A group of the name map is well formed: it is not empty and all its
    records normalise to its key. *)
Definition groupOk (e : string * list Player) : Prop :=
  snd e <> [] /\ Forall (fun p => groupKey p = fst e) (snd e).

(** The conflicts that one incoming record adds against the base record:
    one for a team that differs, then one for a position that differs. *)
Definition conflictsAgainst (basePlayer : Player) (sources : list string)
    (p : Player) : list Conflict :=
  (if str_eqb (team p) (team basePlayer) then []
   else [{| conflictPlayerId := id basePlayer;
            conflictPlayerName := name basePlayer;
            conflictType := teamConflict; conflictSources := sources |}])
  ++
  (if Position_eqb (position p) (position basePlayer) then []
   else [{| conflictPlayerId := id basePlayer;
            conflictPlayerName := name basePlayer;
            conflictType := positionConflict;
            conflictSources := sources |}]).

(** The team of the first record of a list that has one; the empty string
    when none has. *)
Definition firstTeam (l : list Player) : string :=
  match find (fun q => negb (str_eqb (team q) EmptyString)) l with
  | Some q => team q
  | None => EmptyString
  end.

(** The tier of a record, when it is an IDP record. *)
Definition tierOf (p : Player) : option Q :=
  match data p with IDPData t _ => Some t | _ => None end.

(** Every player of the database map is stored under its own id, and no
    key occurs twice. *)
Definition keyedById (players : JsMap Player) : Prop :=
  NoDup (map fst players) /\
  Forall (fun e => fst e = id (snd e)) players.

(** A database with the three players of the examples. *)
Definition exampleDatabase : JsMap Player :=
  addPlayer playerC (addPlayer playerB (addPlayer playerA [])).

(** What the options of a search ask of a player.  An empty team or name
    asks nothing. *)
Definition satisfies (options : PlayerSearchOptions) (p : Player) : Prop :=
  (forall ps, searchPosition options = Some ps ->
              In (position p) (asArray ps)) /\
  (forall ts, searchTeam options = Some ts -> ts <> one EmptyString ->
              In (team p) (asArray ts)) /\
  (forall n, searchName options = Some n ->
             hasSubstring (lowerCase n) (lowerCase (name p)) = true) /\
  (minVorp options <> None \/ maxVorp options <> None ->
   exists v, vorpOf p = Some v /\
             (forall m, minVorp options = Some m -> (m <= v)%Q) /\
             (forall m, maxVorp options = Some m -> (v <= m)%Q)).

(** A list in which the number read by [f] never goes up. *)
Definition descending {A : Type} (f : A -> Q) (l : list A) : Prop :=
  StronglySorted (fun a b => (f b <= f a)%Q) l.

Definition ascending {A : Type} (f : A -> Q) (l : list A) : Prop :=
  StronglySorted (fun a b => (f a <= f b)%Q) l.

(** A two-team linear session just initialised with three players. *)
Definition linearSession : DraftStore :=
  @initializeDraft exampleHost (exampleSettings 2 linear)
    (map exampleTeam (seq 0 2)) [playerA; playerB; playerC] initialStore.

(** The twelve-team session at pick 13, started: a team other than the
    user's is on the clock. *)
Definition runningAtPick13 : DraftStore := startDraft sessionAtPick13.

(** The two-team session started, with 57 seconds left on the clock. *)
Definition runningAt57 : DraftStore := startDraft twoTeamSessionAt57.

(** Preferences whose only note gives [playerC] a custom rank of 5. *)
Definition rankedOnly : UserPreferences :=
  {| favoriteTeams := ["BAL"%string]; avoidTeams := ["PIT"%string];
     playerNotes :=
       [{| playerId := id playerC; note := ""; isTarget := false;
           isAvoid := false; customRanking := Some (5 # 1) |}];
     draftStrategy := balanced; prioritizePositions := [RB; WR] |}.

(** The default league settings of the settings store
    ([src/stores/settingsStore.ts]). *)
Definition defaultLeagueSettings : LeagueSettings :=
  {| passing :=
       {| passYardsPerPoint := 50; passTdPoints := 6;
          interceptionPenalty := -2 # 1;
          passYardBonus := [{| threshold := 300; bonusPoints := 2 |}] |};
     rushing :=
       {| rushYardsPerPoint := 15; rushTdPoints := 6;
          rushYardBonus := [{| threshold := 100; bonusPoints := 1 |}] |};
     receiving :=
       {| recYardsPerPoint := 15; recTdPoints := 6;
          receptionPoints := 1 # 2;
          recYardBonus := [{| threshold := 100; bonusPoints := 1 |}] |};
     kicking :=
       {| fieldGoalRanges :=
            [{| fgMinYards := 0; fgMaxYards := 39; fgPoints := 3 |};
             {| fgMinYards := 40; fgMaxYards := 49; fgPoints := 4 |};
             {| fgMinYards := 50; fgMaxYards := 99; fgPoints := 5 |}];
          missedFieldGoalRanges :=
            [{| missMinYards := 0; missMaxYards := 19;
                missPenalty := -3 # 1 |};
             {| missMinYards := 20; missMaxYards := 29;
                missPenalty := -2 # 1 |};
             {| missMinYards := 30; missMaxYards := 39;
                missPenalty := -1 # 1 |}];
          extraPointValue := 1 |};
     teamDefense :=
       {| defSack := 2; defInterception := 2; defFumbleRecovery := 2;
          defTouchdown := 6; defSafety := 2;
          pointsAllowedRanges :=
            [{| minPoints := 0; maxPoints := 0; rangePoints := 10 |};
             {| minPoints := 1; maxPoints := 6; rangePoints := 7 |};
             {| minPoints := 7; maxPoints := 13; rangePoints := 4 |};
             {| minPoints := 14; maxPoints := 20; rangePoints := 1 |};
             {| minPoints := 21; maxPoints := 27; rangePoints := 0 |};
             {| minPoints := 28; maxPoints := 34; rangePoints := -1 # 1 |};
             {| minPoints := 35; maxPoints := 999;
                rangePoints := -4 # 1 |}] |};
     idp :=
       {| idpSoloTackle := 1; idpAssistTackle := 1 # 2; idpSack := 3;
          idpInterception := 7 # 2; idpForcedFumble := 1;
          idpFumbleRecovery := 1; idpTouchdown := 6; idpSafety := 2 |} |}%Q.

(** The projection of a defence with three sacks that allows no point. *)
Definition shutoutStats : Stats :=
  [("sacks"%string, 3%Q); ("pointsAllowed"%string, 0%Q)].

(** A search for the running backs, the largest VORP first. *)
Definition backsByVorp : PlayerSearchOptions :=
  {| searchPosition := Some (one RB); searchTeam := None;
     searchName := None; minVorp := None; maxVorp := None;
     sortBy := Some byVorp; sortDirection := Some desc; limit := None |}.

(** A database with two running backs of Baltimore. *)
Definition backfield : JsMap Player :=
  addPlayer (letterPlayer 1) (addPlayer (letterPlayer 0) []).

(** A team defence whose row carried an [FPS] column, and the database
    of the examples with it. *)
Definition billsDefense : Player :=
  {| id := generatePlayerId "Buffalo Bills Defense" "BUF" (positionName DEF);
     name := "Buffalo Bills Defense"; team := "BUF"; position := DEF;
     byeWeek := 0; data := TeamDefenseData shutoutStats (Some (8 # 1)%Q) |}.

Definition mixedDatabase : JsMap Player :=
  addPlayer billsDefense exampleDatabase.

(** A search for every player, the largest [fps] first. *)
Definition allByFps : PlayerSearchOptions :=
  {| searchPosition := None; searchTeam := None; searchName := None;
     minVorp := None; maxVorp := None;
     sortBy := Some byFps; sortDirection := Some desc; limit := None |}.

(** * Properties *)

(** ** Array helpers *)

Lemma mapi_from_length {A B : Type} (f : A -> nat -> B) (l : list A) :
  forall i, List.length (mapi_from f i l) = List.length l.
Proof. induction l as [|x l IH]; intros i; simpl; [reflexivity|]. now rewrite IH. Qed.

Lemma mapi_from_nth_error {A B : Type} (f : A -> nat -> B) (l : list A) :
  forall i n x, nth_error l n = Some x ->
    nth_error (mapi_from f i l) n = Some (f x (i + n)%nat).
Proof.
  induction l as [|y l IH]; intros i [|n] x H; simpl in *; try discriminate.
  - injection H as ->. now rewrite Nat.add_0_r.
  - rewrite (IH (S i) n x H). f_equal. f_equal. lia.
Qed.

Lemma mapi_from_id {A : Type} (f : A -> nat -> A) (l : list A) :
  forall i, (forall x n, f x n = x) -> mapi_from f i l = l.
Proof.
  induction l as [|y l IH]; intros i H; simpl; [reflexivity|].
  now rewrite H, IH.
Qed.

Lemma mapi_from_ext {A B : Type} (f g : A -> nat -> B) (l : list A) :
  forall i, (forall x n, (i <= n)%nat -> f x n = g x n) ->
    mapi_from f i l = mapi_from g i l.
Proof.
  induction l as [|y l IH]; intros i H; simpl; [reflexivity|].
  rewrite H by lia. f_equal. apply IH. intros x n Hn. apply H. lia.
Qed.

(** ** The store: what [generateRecommendations] leaves alone *)

Section StoreFacts.
Context {host : Host}.

Lemma generateRecommendations_fields (s : DraftStore) :
  isActive (generateRecommendations s) = isActive s /\
  currentPick (generateRecommendations s) = currentPick s /\
  currentTeamIndex (generateRecommendations s) = currentTeamIndex s /\
  picks (generateRecommendations s) = picks s /\
  timeRemaining (generateRecommendations s) = timeRemaining s /\
  teams (generateRecommendations s) = teams s /\
  settings (generateRecommendations s) = settings s /\
  availablePlayers (generateRecommendations s) = availablePlayers s.
Proof.
  unfold generateRecommendations.
  destruct (settings s) eqn:E; [|now rewrite E].
  destruct (Z.of_nat (List.length (teams s)) =? 0); cbn; now rewrite ?E.
Qed.

End StoreFacts.

Ltac store_fields :=
  repeat match goal with
  | |- context [isActive (generateRecommendations ?s)] =>
    rewrite (proj1 (generateRecommendations_fields s))
  | |- context [currentPick (generateRecommendations ?s)] =>
    rewrite (proj1 (proj2 (generateRecommendations_fields s)))
  | |- context [currentTeamIndex (generateRecommendations ?s)] =>
    rewrite (proj1 (proj2 (proj2 (generateRecommendations_fields s))))
  | |- context [picks (generateRecommendations ?s)] =>
    rewrite (proj1 (proj2 (proj2 (proj2 (generateRecommendations_fields s)))))
  | |- context [timeRemaining (generateRecommendations ?s)] =>
    rewrite (proj1 (proj2 (proj2 (proj2 (proj2
               (generateRecommendations_fields s))))))
  | |- context [teams (generateRecommendations ?s)] =>
    rewrite (proj1 (proj2 (proj2 (proj2 (proj2 (proj2
               (generateRecommendations_fields s)))))))
  | |- context [settings (generateRecommendations ?s)] =>
    rewrite (proj1 (proj2 (proj2 (proj2 (proj2 (proj2 (proj2
               (generateRecommendations_fields s))))))))
  | |- context [availablePlayers (generateRecommendations ?s)] =>
    rewrite (proj2 (proj2 (proj2 (proj2 (proj2 (proj2 (proj2
               (generateRecommendations_fields s))))))))
  end; cbn [isActive currentPick currentTeamIndex picks timeRemaining teams
            settings availablePlayers recommendations].

Section DraftStoreProperties.
Context {host : Host}.

Lemma filter_other_ids (p : Player) (l : list Player) :
  (forall q, In q l -> id q <> id p) ->
  filter (fun q => negb (str_eqb (id q) (id p))) l = l.
Proof.
  induction l as [|q l IH]; intros H; simpl; [reflexivity|].
  unfold str_eqb at 1.
  destruct (String.eqb_spec (id q) (id p)) as [E|E].
  - exfalso. apply (H q); [now left|exact E].
  - simpl. f_equal. apply IH. intros r Hr. apply H. now right.
Qed.

Lemma filter_no_id (p : Player) (l : list Player) :
  forall q, In q (filter (fun q => negb (str_eqb (id q) (id p))) l) ->
    id q <> id p.
Proof.
  intros q Hq. apply filter_In in Hq. destruct Hq as [_ Hq].
  unfold str_eqb in Hq.
  destruct (String.eqb_spec (id q) (id p)); [discriminate|assumption].
Qed.

(** The store after [initializeDraft], field by field. *)
Lemma initializeDraft_fields (st : DraftSettings) (ts : list DraftTeam)
    (ps : list Player) (s : DraftStore) :
  let s' := initializeDraft st ts ps s in
  settings s' = Some st /\ teams s' = ts /\ availablePlayers s' = ps /\
  picks s' = [] /\ currentPick s' = 1 /\ currentTeamIndex s' = 0 /\
  timeRemaining s' = pickTimeLimit st /\ isActive s' = false.
Proof.
  intros s'. subst s'. unfold initializeDraft. store_fields. repeat split.
Qed.

(** C8 (amended): [initializeDraft] checks nothing: whatever the settings,
    zero teams or roster counts that sum to zero included, it installs the
    settings, the teams and the pool, clears the pick log and resets the
    counters. *)
Theorem initializeDraft_accepts_any_settings :
  forall (st : DraftSettings) (ts : list DraftTeam) (ps : list Player)
         (s : DraftStore),
    let s' := initializeDraft st ts ps s in
    settings s' = Some st /\ teams s' = ts /\ availablePlayers s' = ps /\
    picks s' = [] /\ currentPick s' = 1 /\ currentTeamIndex s' = 0 /\
    timeRemaining s' = pickTimeLimit st /\ isActive s' = false.
Proof. intros st ts ps s. apply initializeDraft_fields. Qed.

Lemma mapi_nth_error {A B : Type} (f : A -> nat -> B) (l : list A) n x :
  nth_error l n = Some x -> nth_error (mapi f l) n = Some (f x n).
Proof. intros H. unfold mapi. now rewrite (mapi_from_nth_error f l 0 n x H). Qed.

(** C1 (amended): [makePick] does not look the player up.  With settings
    loaded and a player whose id no available player carries, the call
    goes through: the pick is appended to the log, the pick number
    advances, the team on the clock (when its index names a team) gets the
    player on its roster, and [availablePlayers] is left as it was.
    Without settings the call returns at once. *)
Theorem makePick_unavailable_player_recorded :
  forall (p : Player) (now : Z) (s : DraftStore),
    (forall q, In q (availablePlayers s) -> id q <> id p) ->
    match settings s with
    | None => makePick p now s = s
    | Some st =>
      let s' := makePick p now s in
      picks s' = picks s ++ [{| pickNumber := currentPick s;
                                teamIndex := currentTeamIndex s;
                                player := Some p;
                                timestamp := Some now |}] /\
      currentPick s' = currentPick s + 1 /\
      currentTeamIndex s' =
        makePick_nextTeamIndex st (currentPick s) (currentTeamIndex s) /\
      availablePlayers s' = availablePlayers s /\
      (forall n t, nth_error (teams s) n = Some t ->
         Z.of_nat n = currentTeamIndex s ->
         nth_error (teams s') n = Some (addToRoster p t))
    end.
Proof.
  intros p now s Hid. unfold makePick.
  destruct (settings s) as [st|] eqn:E; [|reflexivity].
  cbv zeta. store_fields. repeat split.
  - now apply filter_other_ids.
  - intros n t Hn Hc. rewrite (mapi_nth_error _ _ _ _ Hn).
    apply Z.eqb_eq in Hc. now rewrite Hc.
Qed.

(** C10: [markPlayerAsDrafted] with a team index that names no team takes
    the player out of [availablePlayers], appends a pick that carries the
    index as given and advances the pick number, while every roster stays
    as it was; a player that was on no roster is then neither available
    nor on a roster. *)
Theorem markPlayerAsDrafted_out_of_range :
  forall (p : Player) (ti now : Z) (s : DraftStore),
    ti < 0 \/ Z.of_nat (List.length (teams s)) <= ti ->
    let s' := markPlayerAsDrafted p ti now s in
    availablePlayers s' =
      filter (fun q => negb (str_eqb (id q) (id p))) (availablePlayers s) /\
    (forall q, In q (availablePlayers s') -> id q <> id p) /\
    ~ In p (availablePlayers s') /\
    picks s' = picks s ++ [{| pickNumber := currentPick s; teamIndex := ti;
                              player := Some p; timestamp := Some now |}] /\
    currentPick s' = currentPick s + 1 /\
    teams s' = teams s /\
    ((forall t, In t (teams s) -> ~ In p (roster t)) ->
     forall t, In t (teams s') -> ~ In p (roster t)).
Proof.
  intros p ti now s Hti s'. subst s'. unfold markPlayerAsDrafted.
  store_fields.
  assert (Hr : (0 <=? ti) && (ti <? Z.of_nat (List.length (teams s))) = false).
  { apply andb_false_iff. destruct Hti as [H|H]; [left|right].
    - now apply Z.leb_gt.
    - now apply Z.ltb_ge. }
  rewrite Hr. repeat split.
  - apply filter_no_id.
  - intros Hin. now apply (filter_no_id p _ p Hin).
  - auto.
Qed.

(** Facts about the pick number and the team index after [makePick]. *)
Lemma makePick_counters (p : Player) (now : Z) (s : DraftStore)
    (st : DraftSettings) :
  settings s = Some st ->
  settings (makePick p now s) = Some st /\
  currentPick (makePick p now s) = currentPick s + 1 /\
  currentTeamIndex (makePick p now s) =
    makePick_nextTeamIndex st (currentPick s) (currentTeamIndex s).
Proof.
  intros E. unfold makePick. rewrite E. cbv zeta. store_fields.
  repeat split.
Qed.

Lemma markPlayerAsDrafted_counters (p : Player) (ti now : Z)
    (s : DraftStore) :
  settings (markPlayerAsDrafted p ti now s) = settings s /\
  currentPick (markPlayerAsDrafted p ti now s) = currentPick s + 1 /\
  currentTeamIndex (markPlayerAsDrafted p ti now s) =
    markPlayerAsDrafted_nextTeamIndex (settings s) (currentPick s + 1) ti.
Proof. unfold markPlayerAsDrafted. store_fields. repeat split. Qed.

(** ** Turn order *)

(** [Math.ceil (pick / n)] for a pick at position [r] of the round [q]. *)
Lemma ceil_div_round (n q r : Z) :
  0 < n -> 0 <= r < n -> - (- (n * q + r + 1) / n) = q + 1.
Proof.
  intros Hn Hr.
  assert (E : - (n * q + r + 1) / n = - (q + 1)).
  { symmetry. apply (Z.div_unique _ n _ (n - r - 1)); [left; lia | ring]. }
  rewrite E. ring.
Qed.

(** The computation of [markPlayerAsDrafted] is the formula of the
    specification, for every pick number of a snake draft. *)
Lemma markPlayerAsDrafted_follows_formula (st : DraftSettings)
    (nextPick ti : Z) :
  draftType st = snake -> 0 < numberOfTeams st -> 1 <= nextPick ->
  markPlayerAsDrafted_nextTeamIndex (Some st) nextPick ti =
    turnOrder_spec snake (numberOfTeams st) nextPick.
Proof.
  intros Hd Hn Hp. unfold markPlayerAsDrafted_nextTeamIndex, turnOrder_spec.
  rewrite Hd. cbv zeta.
  assert (Hq : 0 <= (nextPick - 1) / numberOfTeams st)
    by (apply Z.div_pos; lia).
  rewrite !Z.rem_mod_nonneg by lia.
  rewrite Zeven_mod. reflexivity.
Qed.

(** In a forward round [makePick] computes what the formula gives for the
    next pick. *)
Lemma makePick_forward_round (st : DraftSettings) (cp cti : Z) :
  draftType st = snake -> 0 < numberOfTeams st -> 1 <= cp ->
  Z.even ((cp - 1) / numberOfTeams st) = true ->
  makePick_nextTeamIndex st cp cti =
    turnOrder_spec snake (numberOfTeams st) (cp + 1).
Proof.
  intros Hd Hn Hp Hev. unfold makePick_nextTeamIndex, turnOrder_spec.
  rewrite Hd. cbv zeta.
  set (n := numberOfTeams st) in *.
  pose proof (Z.div_mod (cp - 1) n ltac:(lia)) as Hdm.
  pose proof (Z.mod_pos_bound (cp - 1) n Hn) as Hb.
  set (q := (cp - 1) / n) in *. set (r := (cp - 1) mod n) in *.
  assert (Hq : 0 <= q) by (apply Z.div_pos; lia).
  replace cp with (n * q + r + 1) at 1 by lia.
  rewrite ceil_div_round by lia.
  rewrite !Z.rem_mod_nonneg by lia. fold r.
  apply Zeven_bool_iff in Hev. destruct (Zeven_ex _ Hev) as [k Hk].
  assert (E1 : (q + 1) mod 2 = 1).
  { symmetry. apply (Z.mod_unique _ 2 k); [left; lia | lia]. }
  rewrite E1. cbn [Z.eqb Pos.eqb].
  replace (cp + 1 - 1) with cp by ring.
  destruct (Z.eqb_spec (r + 1) n) as [Er|Er].
  - assert (Ec : cp = n * (q + 1) + 0) by lia.
    assert (Eq' : cp / n = q + 1)
      by (symmetry; apply (Z.div_unique _ n _ 0); [left; lia | lia]).
    assert (Em : cp mod n = 0)
      by (symmetry; apply (Z.mod_unique _ n (q + 1)); [left; lia | lia]).
    rewrite Eq', Em.
    assert (Hodd : Z.even (q + 1) = false).
    { rewrite Z.even_add. apply Zeven_bool_iff in Hev. now rewrite Hev. }
    rewrite Hodd. lia.
  - assert (Eq' : cp / n = q)
      by (symmetry; apply (Z.div_unique _ n _ (r + 1)); [left; lia | lia]).
    assert (Em : cp mod n = r + 1)
      by (symmetry; apply (Z.mod_unique _ n q); [left; lia | lia]).
    rewrite Eq', Em.
    apply Zeven_bool_iff in Hev. now rewrite Hev.
Qed.

(** At the last pick of a reverse round [makePick] hands over to team 0,
    as the formula does. *)
Lemma makePick_reverse_round_last (st : DraftSettings) (cp cti : Z) :
  draftType st = snake -> 0 < numberOfTeams st -> 1 <= cp ->
  Z.even ((cp - 1) / numberOfTeams st) = false ->
  (cp - 1) mod numberOfTeams st + 1 = numberOfTeams st ->
  makePick_nextTeamIndex st cp cti = 0 /\
  turnOrder_spec snake (numberOfTeams st) (cp + 1) = 0.
Proof.
  intros Hd Hn Hp Hodd Hlast. unfold makePick_nextTeamIndex, turnOrder_spec.
  rewrite Hd. cbv zeta.
  set (n := numberOfTeams st) in *.
  pose proof (Z.div_mod (cp - 1) n ltac:(lia)) as Hdm.
  set (q := (cp - 1) / n) in *. set (r := (cp - 1) mod n) in *.
  assert (Hq : 0 <= q) by (apply Z.div_pos; lia).
  replace cp with (n * q + r + 1) at 1 by lia.
  rewrite ceil_div_round by lia.
  rewrite !Z.rem_mod_nonneg by lia. fold r.
  assert (Ho : Zodd q).
  { apply Zodd_bool_iff. rewrite <- Z.negb_even. now rewrite Hodd. }
  destruct (Zodd_ex _ Ho) as [k Hk].
  assert (E1 : (q + 1) mod 2 = 0).
  { symmetry. apply (Z.mod_unique _ 2 (k + 1)); [left; lia | lia]. }
  rewrite E1. cbn [Z.eqb].
  replace (cp + 1 - 1) with cp by ring.
  destruct (Z.eqb_spec (r + 1) n) as [_|Er]; [|lia].
  assert (Eq' : cp / n = q + 1)
    by (symmetry; apply (Z.div_unique _ n _ 0); [left; lia | lia]).
  assert (Em : cp mod n = 0)
    by (symmetry; apply (Z.mod_unique _ n (q + 1)); [left; lia | lia]).
  rewrite Eq', Em.
  assert (Hev : Z.even (q + 1) = true).
  { rewrite Z.even_add, Hodd. reflexivity. }
  rewrite Hev. split; reflexivity.
Qed.

(** C2 (the defect): in a reverse round, at any pick but the last of the
    round, [makePick] hands the next pick to the team the formula gives for
    the current pick, one above the team the formula (and
    [markPlayerAsDrafted]) gives for the next pick. *)
Theorem makePick_reverse_round_off_by_one :
  forall (p : Player) (now ti : Z) (s : DraftStore) (st : DraftSettings),
    settings s = Some st -> draftType st = snake ->
    0 < numberOfTeams st -> 1 <= currentPick s ->
    Z.even ((currentPick s - 1) / numberOfTeams st) = false ->
    (currentPick s - 1) mod numberOfTeams st + 1 < numberOfTeams st ->
    currentTeamIndex (makePick p now s) =
      turnOrder_spec snake (numberOfTeams st) (currentPick s + 1) + 1 /\
    currentTeamIndex (makePick p now s) =
      turnOrder_spec snake (numberOfTeams st) (currentPick s) /\
    currentTeamIndex (markPlayerAsDrafted p ti now s) =
      turnOrder_spec snake (numberOfTeams st) (currentPick s + 1).
Proof.
  intros p now ti s st Hs Hd Hn Hp Hodd Hlast.
  destruct (makePick_counters p now s st Hs) as (_ & _ & ->).
  destruct (markPlayerAsDrafted_counters p ti now s) as (_ & _ & ->).
  rewrite Hs, markPlayerAsDrafted_follows_formula by (assumption || lia).
  assert (G : makePick_nextTeamIndex st (currentPick s) (currentTeamIndex s)
              = turnOrder_spec snake (numberOfTeams st) (currentPick s) /\
              turnOrder_spec snake (numberOfTeams st) (currentPick s) =
              turnOrder_spec snake (numberOfTeams st) (currentPick s + 1) + 1).
  { unfold makePick_nextTeamIndex, turnOrder_spec. rewrite Hd. cbv zeta.
    set (cp := currentPick s) in *. set (n := numberOfTeams st) in *.
    pose proof (Z.div_mod (cp - 1) n ltac:(lia)) as Hdm.
    pose proof (Z.mod_pos_bound (cp - 1) n Hn) as Hb.
    set (q := (cp - 1) / n) in *. set (r := (cp - 1) mod n) in *.
    assert (Hq : 0 <= q) by (apply Z.div_pos; lia).
    replace cp with (n * q + r + 1) at 1 by lia.
    rewrite ceil_div_round by lia.
    rewrite !Z.rem_mod_nonneg by lia. fold r.
    assert (Ho : Zodd q).
    { apply Zodd_bool_iff. rewrite <- Z.negb_even. now rewrite Hodd. }
    destruct (Zodd_ex _ Ho) as [k Hk].
    assert (E1 : (q + 1) mod 2 = 0).
    { symmetry. apply (Z.mod_unique _ 2 (k + 1)); [left; lia | lia]. }
    rewrite E1. cbn [Z.eqb].
    replace (cp + 1 - 1) with cp by ring.
    destruct (Z.eqb_spec (r + 1) n) as [Er|Er]; [lia|].
    assert (Eq' : cp / n = q)
      by (symmetry; apply (Z.div_unique _ n _ (r + 1)); [left; lia | lia]).
    assert (Em : cp mod n = r + 1)
      by (symmetry; apply (Z.mod_unique _ n q); [left; lia | lia]).
    rewrite Eq', Em, Hodd. lia. }
  destruct G as [G1 G2]. rewrite G1. repeat split; lia.
Qed.

(** [makePicks] advances the pick number by the number of picks and keeps
    the settings. *)
Lemma makePicks_counters (ps : list Player) :
  forall (now : Z) (s : DraftStore) (st : DraftSettings),
    settings s = Some st ->
    settings (makePicks ps now s) = Some st /\
    currentPick (makePicks ps now s) =
      currentPick s + Z.of_nat (List.length ps).
Proof.
  induction ps as [|p ps IH]; intros now s st Hs; simpl makePicks.
  - split; [assumption | simpl; lia].
  - destruct (makePick_counters p now s st Hs) as (Hs' & Hc & _).
    destruct (IH (now + 1) _ st Hs') as [IH1 IH2].
    split; [assumption|]. rewrite IH2, Hc. simpl List.length. lia.
Qed.

Lemma makePicks_app (ps qs : list Player) :
  forall (now : Z) (s : DraftStore),
    makePicks (ps ++ qs) now s =
    makePicks qs (now + Z.of_nat (List.length ps)) (makePicks ps now s).
Proof.
  induction ps as [|p ps IH]; intros now s; simpl app; simpl makePicks.
  - simpl. now rewrite Z.add_0_r.
  - rewrite IH. f_equal. simpl List.length. lia.
Qed.

(** C5 (amended): in a 12-team snake draft that starts at pick 1, after
    twelve picks have been recorded the pick number is 13 and the pick
    belongs to team index 11, the team that made pick 12; the formula of
    the specification gives the same team, and so does
    [markPlayerAsDrafted] when it records pick 12. *)
Theorem pick_13_of_12_team_snake :
  forall (ps : list Player) (now : Z) (s : DraftStore) (st : DraftSettings),
    settings s = Some st -> draftType st = snake ->
    numberOfTeams st = 12 -> currentPick s = 1 ->
    List.length ps = 12%nat ->
    currentPick (makePicks ps now s) = 13 /\
    currentTeamIndex (makePicks ps now s) = 11 /\
    turnOrder_spec snake 12 12 = 11 /\
    turnOrder_spec snake 12 13 = 11 /\
    (forall (p : Player) (ti now' : Z) (s12 : DraftStore),
       settings s12 = Some st -> currentPick s12 = 12 ->
       currentTeamIndex (markPlayerAsDrafted p ti now' s12) = 11).
Proof.
  intros ps now s st Hs Hd Hn Hp Hl.
  destruct (makePicks_counters ps now s st Hs) as [_ Hc].
  split; [rewrite Hc, Hp, Hl; reflexivity|].
  split; [|split; [reflexivity|split; [reflexivity|]]].
  2:{ intros p ti now' s12 Hs12 Hp12.
      destruct (markPlayerAsDrafted_counters p ti now' s12) as (_ & _ & ->).
      rewrite Hs12, Hp12. unfold markPlayerAsDrafted_nextTeamIndex.
      rewrite Hd, Hn. reflexivity. }
  destruct (exists_last (l := ps)) as (ps' & p & ->);
    [intros ->; discriminate|].
  rewrite length_app in Hl. simpl in Hl.
  rewrite makePicks_app. simpl makePicks.
  destruct (makePicks_counters ps' now s st Hs) as [Hs' Hc'].
  destruct (makePick_counters p (now + Z.of_nat (List.length ps'))
              _ st Hs') as (_ & _ & ->).
  rewrite Hc', Hp. replace (List.length ps') with 11%nat by lia.
  unfold makePick_nextTeamIndex. rewrite Hd, Hn. reflexivity.
Qed.

(** ** Sorting *)

Section Sorting.
Variable A : Type.
Variable cmp : A -> A -> Z.
Hypothesis cmp_consistent : forall a b, cmp a b < 0 -> 0 < cmp b a.

Lemma sort_insert_first (x : A) (l : list A) :
  Forall (precedes cmp x) l -> sort_insert cmp x l = x :: l.
Proof.
  intros H. destruct l as [|y l]; [reflexivity|]. simpl.
  inversion H as [|? ? Hy _]; subst. unfold precedes in Hy.
  destruct (Z.leb_spec (cmp x y) 0); [reflexivity | lia].
Qed.

Lemma sort_insert_perm (x : A) (l : list A) :
  Permutation (sort_insert cmp x l) (x :: l).
Proof.
  induction l as [|y l IH]; simpl; [reflexivity|].
  destruct (cmp x y <=? 0); [reflexivity|].
  rewrite IH. apply perm_swap.
Qed.

Lemma sort_perm (l : list A) : Permutation (sort cmp l) l.
Proof.
  induction l as [|x l IH]; simpl; [reflexivity|].
  rewrite sort_insert_perm. now constructor.
Qed.

Lemma sort_app (l1 l2 : list A) :
  sort cmp (l1 ++ l2) = fold_right (sort_insert cmp) (sort cmp l2) l1.
Proof. unfold sort. now rewrite fold_right_app. Qed.

(** An element appended to an ordered list that it precedes is moved to
    the front. *)
Lemma sort_last_to_front (x : A) (l : list A) :
  StronglySorted (precedes cmp) (x :: l) -> sort cmp (l ++ [x]) = x :: l.
Proof.
  induction l as [|y l IH]; intros H; [reflexivity|].
  inversion H as [|? ? Hs Hx]; subst.
  inversion Hs as [|? ? Hs' Hy]; subst.
  inversion Hx as [|? ? Hxy Hxl]; subst.
  simpl. change (fold_right (sort_insert cmp) [] (l ++ [x]))
    with (sort cmp (l ++ [x])).
  rewrite IH by (constructor; assumption).
  simpl. unfold precedes in Hxy. apply cmp_consistent in Hxy.
  destruct (Z.leb_spec (cmp y x) 0); [lia|].
  now rewrite sort_insert_first.
Qed.

(** Taking an element out of a strictly ordered list, appending it and
    sorting gives the list back. *)
Lemma sort_reinsert (l1 l2 : list A) (x : A) :
  StronglySorted (precedes cmp) (l1 ++ x :: l2) ->
  sort cmp ((l1 ++ l2) ++ [x]) = l1 ++ x :: l2.
Proof.
  intros H. rewrite <- app_assoc, sort_app.
  induction l1 as [|y l1 IH]; simpl in *.
  - now apply sort_last_to_front.
  - inversion H as [|? ? Hs Hy]; subst.
    rewrite IH by assumption. now apply sort_insert_first.
Qed.

End Sorting.

(** ** A pick and its undo *)

Lemma mapi_from_compose {A B C : Type} (f : A -> nat -> B)
    (g : B -> nat -> C) (l : list A) :
  forall i, mapi_from g i (mapi_from f i l) =
            mapi_from (fun x n => g (f x n) n) i l.
Proof. induction l as [|x l IH]; intros i; simpl; [reflexivity|]. now rewrite IH. Qed.

Lemma mapi_from_id_In {A : Type} (f : A -> nat -> A) (l : list A) :
  forall i, (forall x n, In x l -> f x n = x) -> mapi_from f i l = l.
Proof.
  induction l as [|y l IH]; intros i H; simpl; [reflexivity|].
  rewrite H by (now left). f_equal. apply IH.
  intros x n Hx. apply H. now right.
Qed.

Lemma str_eqb_refl (a : string) : str_eqb a a = true.
Proof. apply String.eqb_refl. Qed.

Lemma str_eqb_neq (a b : string) : a <> b -> str_eqb a b = false.
Proof. intros H. now apply String.eqb_neq. Qed.

Lemma remove_add_roster (p : Player) (t : DraftTeam) :
  (forall q, In q (roster t) -> id q <> id p) ->
  removeFromRoster p (addToRoster p t) = t.
Proof.
  intros H. destruct t as [i n r u]. unfold removeFromRoster, addToRoster.
  cbn [teamId teamName roster isUser] in *.
  rewrite filter_app, filter_other_ids by assumption.
  cbn [filter]. rewrite str_eqb_refl. cbn [negb]. now rewrite app_nil_r.
Qed.

Lemma filter_split_unique (p : Player) (l1 l2 : list Player) :
  NoDup (map id (l1 ++ p :: l2)) ->
  filter (fun q => negb (str_eqb (id q) (id p))) (l1 ++ p :: l2) = l1 ++ l2.
Proof.
  intros H. rewrite map_app in H. cbn [map] in H.
  pose proof (NoDup_remove_2 _ _ _ H) as Hnot.
  rewrite filter_app. cbn [filter]. rewrite str_eqb_refl. cbn [negb].
  rewrite !filter_other_ids; [reflexivity| |].
  - intros q Hq E. apply Hnot. apply in_or_app. right.
    rewrite <- E. now apply in_map.
  - intros q Hq E. apply Hnot. apply in_or_app. left.
    rewrite <- E. now apply in_map.
Qed.

(** The store after [makePick], field by field. *)
Lemma makePick_fields (p : Player) (now : Z) (s : DraftStore)
    (st : DraftSettings) :
  settings s = Some st ->
  let s' := makePick p now s in
  isActive s' = isActive s /\
  picks s' = picks s ++ [{| pickNumber := currentPick s;
                            teamIndex := currentTeamIndex s;
                            player := Some p; timestamp := Some now |}] /\
  timeRemaining s' = pickTimeLimit st /\
  teams s' = mapi (fun t index =>
                     if Z.of_nat index =? currentTeamIndex s
                     then addToRoster p t else t) (teams s) /\
  availablePlayers s' =
    filter (fun q => negb (str_eqb (id q) (id p))) (availablePlayers s).
Proof.
  intros E s'. subst s'. unfold makePick. rewrite E. cbv zeta.
  store_fields. repeat split.
Qed.

(** The store after [undoLastPick] when the log ends with a pick that
    carries a player. *)
Lemma undoLastPick_fields (s : DraftStore) (ps : list DraftPick)
    (lastPick : DraftPick) (lp : Player) :
  picks s = ps ++ [lastPick] -> player lastPick = Some lp ->
  let s' := undoLastPick s in
  isActive s' = isActive s /\
  currentPick s' = pickNumber lastPick /\
  currentTeamIndex s' = teamIndex lastPick /\
  picks s' = ps /\
  timeRemaining s' = timeRemaining s /\
  teams s' = mapi (fun t index =>
                     if Z.of_nat index =? teamIndex lastPick
                     then removeFromRoster lp t else t) (teams s) /\
  settings s' = settings s /\
  availablePlayers s' =
    sort (fun a b => localeCompare (name a) (name b))
         (availablePlayers s ++ [lp]).
Proof.
  intros Hp Hl s'. subst s'. unfold undoLastPick. rewrite Hp.
  rewrite length_app. cbn [List.length].
  replace (List.length ps + 1)%nat with (S (List.length ps)) by lia.
  cbn [Nat.eqb].
  replace (S (List.length ps) - 1)%nat with (List.length ps) by lia.
  rewrite nth_error_app2 by lia. rewrite Nat.sub_diag. cbn [nth_error].
  rewrite Hl. store_fields. unfold slice_init. rewrite removelast_last.
  repeat split.
Qed.

(** [undoLastPick] on an empty log changes nothing. *)
Lemma undoLastPick_empty_log (s : DraftStore) :
  picks s = [] -> undoLastPick s = s.
Proof. intros H. unfold undoLastPick. now rewrite H. Qed.

(** C3 (amended): with settings loaded, [availablePlayers] in strictly
    increasing name order and of distinct ids, and no roster holding the
    id of the picked player, [makePick] followed by [undoLastPick] restores
    the pick log, every roster, [availablePlayers] with its order, the pick
    number, the team index, [isActive] and the settings; [timeRemaining]
    is not restored: it is left at the pick time limit that [makePick]
    set. *)
Theorem makePick_undoLastPick_round_trip :
  forall (p : Player) (now : Z) (s : DraftStore) (st : DraftSettings),
    consistent_collation host ->
    settings s = Some st ->
    In p (availablePlayers s) ->
    nameOrdered (availablePlayers s) ->
    NoDup (map id (availablePlayers s)) ->
    (forall t q, In t (teams s) -> In q (roster t) -> id q <> id p) ->
    let s' := undoLastPick (makePick p now s) in
    picks s' = picks s /\ teams s' = teams s /\
    availablePlayers s' = availablePlayers s /\
    currentPick s' = currentPick s /\
    currentTeamIndex s' = currentTeamIndex s /\
    isActive s' = isActive s /\ settings s' = settings s /\
    timeRemaining s' = pickTimeLimit st.
Proof.
  intros p now s st Hc Hs Hin Hord Hnd Hros s'. subst s'.
  destruct (makePick_fields p now s st Hs) as (M1 & M2 & M3 & M4 & M5).
  destruct (makePick_counters p now s st Hs) as (M6 & _ & _).
  destruct (undoLastPick_fields (makePick p now s) _ _ p M2 eq_refl)
    as (U1 & U2 & U3 & U4 & U5 & U6 & U7 & U8).
  cbn [pickNumber teamIndex] in *.
  rewrite U1, U2, U3, U4, U5, U6, U7, U8, M1, M3, M4, M5, M6, Hs.
  repeat split.
  - unfold mapi. rewrite mapi_from_compose. apply mapi_from_id_In.
    intros t n Ht. destruct (Z.of_nat n =? currentTeamIndex s); [|reflexivity].
    apply remove_add_roster. intros q Hq. now apply (Hros t q).
  - destruct (in_split _ _ Hin) as (l1 & l2 & E). rewrite E in *.
    rewrite filter_split_unique by assumption.
    apply sort_reinsert; [|exact Hord].
    intros a b. apply Hc.
Qed.

(** ** The pool invariant *)

Lemma mapi_update_at {A : Type} (g : A -> A) (ti : Z) (l1 : list A) (t : A)
    (l2 : list A) :
  forall i0, Z.of_nat (i0 + List.length l1) = ti ->
    mapi_from (fun x i => if Z.of_nat i =? ti then g x else x) i0
              (l1 ++ t :: l2) = l1 ++ g t :: l2.
Proof.
  induction l1 as [|y l1 IH]; intros i0 H; simpl in *.
  - rewrite Nat.add_0_r in H. rewrite <- H, Z.eqb_refl. f_equal.
    rewrite (mapi_from_ext _ (fun x _ => x)).
    + now apply mapi_from_id.
    + intros x n Hn. destruct (Z.eqb_spec (Z.of_nat n) (Z.of_nat i0));
        [lia | reflexivity].
  - destruct (Z.eqb_spec (Z.of_nat i0) ti); [lia|]. f_equal.
    apply IH. lia.
Qed.

(** A team index in range splits the team list at that team. *)
Lemma teams_split_at (ts : list DraftTeam) (ti : Z) :
  0 <= ti < Z.of_nat (List.length ts) ->
  exists l1 t l2, ts = l1 ++ t :: l2 /\ Z.of_nat (List.length l1) = ti /\
                  nth_error ts (Z.to_nat ti) = Some t.
Proof.
  intros H.
  destruct (nth_error ts (Z.to_nat ti)) as [t|] eqn:E.
  - destruct (nth_error_split _ _ E) as (l1 & l2 & E1 & E2).
    exists l1, t, l2. repeat split; [assumption | lia].
  - apply nth_error_None in E. lia.
Qed.

Lemma rostered_update (l1 l2 : list DraftTeam) (t t' : DraftTeam)
    (p : Player) :
  Permutation (roster t') (p :: roster t) ->
  Permutation (List.concat (map roster (l1 ++ t' :: l2)))
              (p :: List.concat (map roster (l1 ++ t :: l2))).
Proof.
  intros H. rewrite !map_app, !concat_app. cbn [map List.concat].
  rewrite H. cbn [app]. symmetry. apply Permutation_middle.
Qed.

Lemma NoDup_ids_of_pool (pool l : list Player) :
  Permutation l pool -> NoDup (map id pool) -> NoDup (map id l).
Proof.
  intros Hp Hn. apply (Permutation_NoDup (l := map id pool)); [|assumption].
  symmetry. now apply Permutation_map.
Qed.

Lemma take_out_perm (p : Player) (l : list Player) :
  In p l -> NoDup (map id l) ->
  Permutation l (p :: filter (fun q => negb (str_eqb (id q) (id p))) l).
Proof.
  intros Hin Hnd. destruct (in_split _ _ Hin) as (l1 & l2 & ->).
  rewrite filter_split_unique by assumption.
  symmetry. apply Permutation_middle.
Qed.

Lemma NoDup_snoc {A : Type} (l : list A) (x : A) :
  NoDup l -> ~ In x l -> NoDup (l ++ [x]).
Proof.
  intros Hl Hx. apply (Permutation_NoDup (l := x :: l)).
  - apply Permutation_cons_append.
  - now constructor.
Qed.

Lemma NoDup_app_disjoint {A : Type} (l1 l2 : list A) (x : A) :
  NoDup (l1 ++ l2) -> In x l1 -> In x l2 -> False.
Proof.
  induction l1 as [|y l1 IH]; intros Hn H1 H2; [destruct H1|].
  simpl in Hn. inversion Hn as [|? ? Hy Hn']; subst.
  destruct H1 as [->|H1].
  - apply Hy. apply in_or_app. now right.
  - now apply IH.
Qed.

Lemma pickedIds_app (l1 l2 : list DraftPick) :
  pickedIds (l1 ++ l2) = pickedIds l1 ++ pickedIds l2.
Proof. unfold pickedIds. apply flat_map_app. Qed.

Lemma in_rostered (s : DraftStore) (t : DraftTeam) (q : Player) (n : nat) :
  nth_error (teams s) n = Some t -> In q (roster t) -> In q (rostered s).
Proof.
  intros Hn Hq. unfold rostered. apply in_concat.
  exists (roster t). split; [|assumption].
  apply in_map. now apply nth_error_In with n.
Qed.

Lemma pickedIds_rostered (s : DraftStore) (ps : list DraftPick) (i : string) :
  Forall (pickOnRoster s) ps -> In i (pickedIds ps) ->
  In i (map id (rostered s)).
Proof.
  intros Hf Hi. unfold pickedIds in Hi. apply in_flat_map in Hi.
  destruct Hi as (pk & Hpk & Hi).
  rewrite Forall_forall in Hf.
  destruct (Hf pk Hpk) as (_ & q & t & Eq & _ & Hn & Hq).
  rewrite Eq in Hi. destruct Hi as [<-|[]].
  apply in_map. now apply in_rostered with t (Z.to_nat (teamIndex pk)).
Qed.

(** The next team index of [makePick] names a team. *)
Lemma makePick_nextTeamIndex_range (st : DraftSettings) (cp cti : Z) :
  0 < numberOfTeams st -> 1 <= cp -> 0 <= cti ->
  0 <= makePick_nextTeamIndex st cp cti < numberOfTeams st.
Proof.
  intros Hn Hp Hc. unfold makePick_nextTeamIndex. cbv zeta.
  destruct (draftType st).
  - rewrite (Z.rem_mod_nonneg (cp - 1)) by lia.
    pose proof (Z.mod_pos_bound (cp - 1) (numberOfTeams st) Hn).
    destruct (Z.rem _ 2 =? 1);
      destruct (Z.eqb_spec ((cp - 1) mod numberOfTeams st + 1)
                           (numberOfTeams st)); lia.
  - rewrite Z.rem_mod_nonneg by lia.
    apply Z.mod_pos_bound. lia.
Qed.

(** So does the next team index of [markPlayerAsDrafted]. *)
Lemma markPlayerAsDrafted_nextTeamIndex_range (st : DraftSettings)
    (cp ti : Z) :
  0 < numberOfTeams st -> 1 <= cp -> 0 <= ti ->
  0 <= markPlayerAsDrafted_nextTeamIndex (Some st) (cp + 1) ti
    < numberOfTeams st.
Proof.
  intros Hn Hp Hc. unfold markPlayerAsDrafted_nextTeamIndex. cbv zeta.
  destruct (draftType st).
  - rewrite (Z.rem_mod_nonneg (cp + 1 - 1)) by lia.
    pose proof (Z.mod_pos_bound (cp + 1 - 1) (numberOfTeams st) Hn).
    destruct (Z.rem _ 2 =? 0); lia.
  - rewrite Z.rem_mod_nonneg by lia.
    apply Z.mod_pos_bound. lia.
Qed.

(** The store after [markPlayerAsDrafted], field by field. *)
Lemma markPlayerAsDrafted_fields (p : Player) (ti now : Z) (s : DraftStore) :
  0 <= ti < Z.of_nat (List.length (teams s)) ->
  let s' := markPlayerAsDrafted p ti now s in
  picks s' = picks s ++ [{| pickNumber := currentPick s; teamIndex := ti;
                            player := Some p; timestamp := Some now |}] /\
  teams s' = mapi (fun t index =>
                     if Z.of_nat index =? ti
                     then addToRoster p t else t) (teams s) /\
  availablePlayers s' =
    filter (fun q => negb (str_eqb (id q) (id p))) (availablePlayers s).
Proof.
  intros H s'. subst s'. unfold markPlayerAsDrafted. store_fields.
  assert (E : (0 <=? ti) && (ti <? Z.of_nat (List.length (teams s))) = true).
  { apply andb_true_iff. split; [apply Z.leb_le | apply Z.ltb_lt]; lia. }
  rewrite E. repeat split.
Qed.

(** Recording a pick for an available player on the team [ti] keeps the
    invariant, whatever the counters become, as long as they stay in
    range. *)
Lemma record_pick_consistent (pool : list Player) (s s' : DraftStore)
    (p : Player) (ti now : Z) :
  consistentSession pool s ->
  In p (availablePlayers s) ->
  0 <= ti < Z.of_nat (List.length (teams s)) ->
  picks s' = picks s ++ [{| pickNumber := currentPick s; teamIndex := ti;
                            player := Some p; timestamp := Some now |}] ->
  teams s' = mapi (fun t index =>
                     if Z.of_nat index =? ti
                     then addToRoster p t else t) (teams s) ->
  availablePlayers s' =
    filter (fun q => negb (str_eqb (id q) (id p))) (availablePlayers s) ->
  settings s' = settings s ->
  0 <= currentTeamIndex s' < Z.of_nat (List.length (teams s)) ->
  1 <= currentPick s' ->
  consistentSession pool s'.
Proof.
  intros (Hperm & Hnd & (st & Hs & Hn & Hpos) & Hcti & Hcp & Hpk & Hpid)
         Hin Hti Ep Et Ea Es Hcti' Hcp'.
  destruct (teams_split_at _ _ Hti) as (l1 & t & l2 & E & El & Hnth).
  assert (Et' : teams s' = l1 ++ addToRoster p t :: l2).
  { rewrite Et, E. unfold mapi. apply mapi_update_at. simpl. lia. }
  pose proof (NoDup_ids_of_pool _ _ Hperm Hnd) as Hall.
  assert (Hav : NoDup (map id (availablePlayers s))).
  { rewrite map_app in Hall. now apply NoDup_app_remove_r in Hall. }
  assert (Hlen : List.length (teams s') = List.length (teams s)).
  { rewrite Et. unfold mapi. apply mapi_from_length. }
  assert (Hgrow : forall n u, nth_error (teams s) n = Some u ->
            exists u', nth_error (teams s') n = Some u' /\
                       incl (roster u) (roster u')).
  { intros n u Hu. rewrite Et, (mapi_nth_error _ _ _ _ Hu).
    destruct (Z.of_nat n =? ti).
    - eexists. split; [reflexivity|]. cbn. apply incl_appl, incl_refl.
    - eexists. split; [reflexivity | apply incl_refl]. }
  unfold consistentSession.
  refine (conj _ (conj Hnd (conj _ (conj _ (conj Hcp' (conj _ _)))))).
  - rewrite <- Hperm. unfold rostered. rewrite Ea, Et', E.
    rewrite (rostered_update l1 l2 t (addToRoster p t) p).
    + rewrite (take_out_perm p (availablePlayers s) Hin Hav) at 2.
      cbn [app]. symmetry. apply Permutation_middle.
    + cbn. symmetry. apply Permutation_cons_append.
  - exists st. rewrite Es, Hlen. repeat split; assumption.
  - rewrite Hlen. lia.
  - rewrite Ep. apply Forall_app. split.
    + rewrite Forall_forall in *. intros pk Hpk'.
      destruct (Hpk pk Hpk') as (H1 & q & u & Eq & H0 & Hu & Hq).
      split; [assumption|].
      destruct (Hgrow _ _ Hu) as (u' & Hu' & Hincl).
      exists q, u'. repeat split; try assumption. now apply Hincl.
    + constructor; [|constructor]. split; [cbn; assumption|].
      exists p, (addToRoster p t). cbn [player teamIndex].
      repeat split; try lia.
      * rewrite Et, (mapi_nth_error _ _ _ _ Hnth).
        replace (Z.of_nat (Z.to_nat ti)) with ti by lia.
        now rewrite Z.eqb_refl.
      * cbn. apply in_or_app. right. now left.
  - rewrite Ep, pickedIds_app. cbn. apply NoDup_snoc; [assumption|].
    intros Hi. apply (pickedIds_rostered s) in Hi; [|assumption].
    rewrite map_app in Hall.
    apply (NoDup_app_disjoint _ _ (id p) Hall); [now apply in_map|assumption].
Qed.

Lemma empty_rosters_concat (ts : list DraftTeam) :
  Forall (fun t => roster t = []) ts -> List.concat (map roster ts) = [].
Proof.
  induction 1 as [|t l Ht _ IH]; [reflexivity|]. cbn. now rewrite Ht, IH.
Qed.

Lemma initializeDraft_consistent (pool : list Player) (st : DraftSettings)
    (ts : list DraftTeam) (s0 : DraftStore) :
  NoDup (map id pool) ->
  Forall (fun t => roster t = []) ts ->
  numberOfTeams st = Z.of_nat (List.length ts) ->
  0 < numberOfTeams st ->
  consistentSession pool (initializeDraft st ts pool s0).
Proof.
  intros Hnd Hempty Hn Hpos.
  destruct (initializeDraft_fields st ts pool s0)
    as (E1 & E2 & E3 & E4 & E5 & E6 & _).
  unfold consistentSession, rostered. rewrite E1, E2, E3, E4, E5, E6.
  refine (conj _ (conj Hnd (conj _ (conj _ (conj _ (conj _ _)))))).
  - now rewrite (empty_rosters_concat ts Hempty), app_nil_r.
  - exists st. repeat split; assumption.
  - lia.
  - lia.
  - constructor.
  - constructor.
Qed.

Lemma makePick_consistent (pool : list Player) (s : DraftStore) (p : Player)
    (now : Z) :
  consistentSession pool s -> In p (availablePlayers s) ->
  consistentSession pool (makePick p now s).
Proof.
  intros Hc Hin.
  pose proof Hc as (_ & _ & (st & Hs & Hn & Hpos) & Hcti & Hcp & _).
  destruct (makePick_fields p now s st Hs) as (_ & M2 & _ & M4 & M5).
  destruct (makePick_counters p now s st Hs) as (M6 & M7 & M8).
  apply (record_pick_consistent pool s _ p (currentTeamIndex s) now);
    try assumption.
  - now rewrite M6.
  - rewrite M8, <- Hn. apply makePick_nextTeamIndex_range; lia.
  - lia.
Qed.

Lemma markPlayerAsDrafted_consistent (pool : list Player) (s : DraftStore)
    (p : Player) (ti now : Z) :
  consistentSession pool s -> In p (availablePlayers s) ->
  0 <= ti < Z.of_nat (List.length (teams s)) ->
  consistentSession pool (markPlayerAsDrafted p ti now s).
Proof.
  intros Hc Hin Hti.
  pose proof Hc as (_ & _ & (st & Hs & Hn & Hpos) & Hcti & Hcp & _).
  destruct (markPlayerAsDrafted_fields p ti now s Hti) as (M2 & M4 & M5).
  destruct (markPlayerAsDrafted_counters p ti now s) as (M6 & M7 & M8).
  apply (record_pick_consistent pool s _ p ti now); try assumption.
  - rewrite M8, Hs, <- Hn.
    apply markPlayerAsDrafted_nextTeamIndex_range; lia.
  - lia.
Qed.

Lemma undoLastPick_consistent (pool : list Player) (s : DraftStore) :
  consistentSession pool s -> consistentSession pool (undoLastPick s).
Proof.
  intros Hc.
  destruct (picks s) as [|pk0 rest] eqn:Epk.
  { now rewrite undoLastPick_empty_log. }
  destruct (exists_last (l := pk0 :: rest)) as (ps & lastPick & Elast);
    [discriminate|].
  rewrite Elast in Epk. clear Elast pk0 rest.
  destruct Hc as (Hperm & Hnd & (st & Hs & Hn & Hpos) & Hcti & Hcp & Hpk
                  & Hpid).
  rewrite Epk in Hpk, Hpid.
  apply Forall_app in Hpk. destruct Hpk as [Hps Hlast].
  inversion Hlast as [|? ? (Hnum & q & t & Eq & H0 & Hnth & Hq) _]; subst.
  destruct (undoLastPick_fields s ps lastPick q Epk Eq)
    as (_ & U2 & U3 & U4 & _ & U6 & U7 & U8).
  assert (Hti : 0 <= teamIndex lastPick < Z.of_nat (List.length (teams s))).
  { split; [assumption|].
    assert (Z.to_nat (teamIndex lastPick) < List.length (teams s))%nat
      by (apply nth_error_Some; now rewrite Hnth).
    lia. }
  destruct (teams_split_at _ _ Hti) as (l1 & t0 & l2 & E & El & Hnth').
  rewrite Hnth in Hnth'. injection Hnth' as <-.
  assert (Et' : teams (undoLastPick s) = l1 ++ removeFromRoster q t :: l2).
  { rewrite U6, E. unfold mapi. apply mapi_update_at. simpl. lia. }
  assert (Hlen : List.length (teams (undoLastPick s))
                 = List.length (teams s)).
  { rewrite U6. unfold mapi. apply mapi_from_length. }
  pose proof (NoDup_ids_of_pool _ _ Hperm Hnd) as Hall.
  assert (Hrt : NoDup (map id (roster t))).
  { rewrite map_app in Hall. apply NoDup_app_remove_l in Hall.
    unfold rostered in Hall. rewrite E, map_app, concat_app in Hall.
    cbn [map List.concat] in Hall. rewrite !map_app in Hall.
    apply NoDup_app_remove_l in Hall. now apply NoDup_app_remove_r in Hall. }
  rewrite pickedIds_app in Hpid. cbn in Hpid. rewrite Eq in Hpid.
  cbn in Hpid.
  unfold consistentSession.
  refine (conj _ (conj Hnd (conj _ (conj _ (conj _ (conj _ _)))))).
  - rewrite <- Hperm. unfold rostered. rewrite U8, Et'.
    rewrite sort_perm. rewrite E.
    rewrite (rostered_update l1 l2 (removeFromRoster q t) t q).
    + rewrite <- app_assoc. reflexivity.
    + cbn. now apply take_out_perm.
  - exists st. rewrite U7, Hlen. repeat split; assumption.
  - rewrite Hlen, U3. assumption.
  - now rewrite U2.
  - rewrite U4. rewrite Forall_forall in *. intros pk Hin.
    destruct (Hps pk Hin) as (H1 & q' & u & Eq' & H0' & Hu & Hq').
    split; [assumption|]. rewrite U6, (mapi_nth_error _ _ _ _ Hu).
    destruct (Z.of_nat _ =? teamIndex lastPick).
    + exists q', (removeFromRoster q u). repeat split; try assumption.
      cbn. apply filter_In. split; [assumption|].
      rewrite str_eqb_neq; [reflexivity|].
      intros Eid.
      apply (NoDup_app_disjoint _ _ (id q) Hpid); [|now left].
      unfold pickedIds. apply in_flat_map. exists pk.
      split; [assumption|]. rewrite Eq'. left. assumption.
    + exists q', u. repeat split; assumption.
  - rewrite U4. now apply NoDup_app_remove_r in Hpid.
Qed.

(** The invariant reads the pool, the teams, the settings, the counters
    and the log only: an action that leaves these alone keeps it. *)
Lemma consistentSession_same_fields (pool : list Player)
    (s s' : DraftStore) :
  availablePlayers s' = availablePlayers s -> teams s' = teams s ->
  settings s' = settings s -> currentTeamIndex s' = currentTeamIndex s ->
  currentPick s' = currentPick s -> picks s' = picks s ->
  consistentSession pool s -> consistentSession pool s'.
Proof.
  intros Ea Et Es Ec Ep El.
  unfold consistentSession, rostered, pickOnRoster.
  rewrite Ea, Et, Es, Ec, Ep, El. exact (fun H => H).
Qed.

Lemma generateRecommendations_consistent (pool : list Player)
    (s : DraftStore) :
  consistentSession pool s -> consistentSession pool (generateRecommendations s).
Proof.
  intros H. unfold generateRecommendations.
  destruct (settings s) as [st|] eqn:Es; [|exact H].
  destruct (Z.of_nat (List.length (teams s)) =? 0); [exact H|].
  apply (consistentSession_same_fields pool s); try reflexivity;
    [cbn; now rewrite Es|exact H].
Qed.

(** Every reachable session satisfies the invariant. *)
Lemma reachable_consistent (pool : list Player) (s : DraftStore) :
  reachable pool s -> consistentSession pool s.
Proof.
  induction 1.
  - now apply initializeDraft_consistent.
  - now apply (consistentSession_same_fields pool s).
  - now apply (consistentSession_same_fields pool s).
  - now apply (consistentSession_same_fields pool s).
  - now apply generateRecommendations_consistent.
  - now apply makePick_consistent.
  - now apply markPlayerAsDrafted_consistent.
  - now apply undoLastPick_consistent.
Qed.

(** The two handlers of the draft room stay among the reachable sessions:
    a pick of an available player, whoever is on the clock, and a tick of
    the timer. *)
Lemma handlePlayerPick_reachable (pool : list Player) (s : DraftStore)
    (p : Player) (now : Z) :
  reachable pool s -> In p (availablePlayers s) ->
  reachable pool (handlePlayerPick p now s).
Proof.
  intros Hr Hp. unfold handlePlayerPick.
  destruct (negb (isActive s)); [exact Hr|].
  destruct (isUserTurn s).
  - now apply reach_makePick.
  - apply reach_markPlayerAsDrafted; [exact Hr|exact Hp|].
    now destruct (reachable_consistent pool s Hr) as (_ & _ & _ & Hc & _).
Qed.

Lemma timerTick_reachable (pool : list Player) (s : DraftStore) :
  reachable pool s -> reachable pool (timerTick s).
Proof.
  intros Hr. unfold timerTick.
  destruct (negb (isActive s) || (timeRemaining s <=? 0)); [exact Hr|].
  now apply reach_updateTimer.
Qed.

(** C4 (amended): in every session reached from [initializeDraft] (pool of
    distinct ids, empty rosters, as many teams as the settings say and at
    least one) by [startDraft], [pauseDraft], [updateTimer],
    [generateRecommendations] and [undoLastPick] at any time, and by
    [makePick] and [markPlayerAsDrafted] for available players,
    [markPlayerAsDrafted] with the index of a team, no id is both
    available and on a roster, no id is on two rosters or twice on one,
    and the available players together with the rosters are exactly the
    pool. *)
Theorem reachable_pool_partition :
  forall (pool : list Player) (s : DraftStore),
    reachable pool s ->
    (forall p q, In p (availablePlayers s) -> In q (rostered s) ->
                 id p <> id q) /\
    NoDup (map id (availablePlayers s)) /\
    NoDup (map id (rostered s)) /\
    (forall p, In p pool <-> In p (availablePlayers s) \/ In p (rostered s)) /\
    Permutation (availablePlayers s ++ rostered s) pool.
Proof.
  intros pool s Hr.
  destruct (reachable_consistent pool s Hr) as (Hperm & Hnd & _).
  pose proof (NoDup_ids_of_pool _ _ Hperm Hnd) as Hall.
  rewrite map_app in Hall.
  repeat split.
  - intros p q Hp Hq E.
    apply (NoDup_app_disjoint _ _ (id p) Hall); [now apply in_map|].
    rewrite E. now apply in_map.
  - now apply NoDup_app_remove_r in Hall.
  - now apply NoDup_app_remove_l in Hall.
  - intros Hp. apply in_app_or. apply (Permutation_in p (Permutation_sym Hperm) Hp).
  - intros Hp. apply (Permutation_in p Hperm). now apply in_or_app.
  - assumption.
Qed.

End DraftStoreProperties.

(** C8 (counterexample): with zero teams and roster counts that sum to
    zero, [initializeDraft] on the initial store is not rejected: settings,
    pool and timer are overwritten. *)
Lemma initializeDraft_empty_settings_not_rejected :
  numberOfTeams emptySettings = 0 /\
  settings (@initializeDraft exampleHost emptySettings [] [playerA]
              initialStore) = Some emptySettings /\
  settings initialStore = None /\
  availablePlayers (@initializeDraft exampleHost emptySettings [] [playerA]
                      initialStore) = [playerA] /\
  availablePlayers initialStore = [].
Proof. repeat split. Qed.

(** C1 (counterexample): [playerZ] is not available in the two-team
    session, yet [makePick] records it: the log, the rosters and the pick
    number all change. *)
Lemma makePick_unavailable_player_not_rejected :
  ~ In playerZ (availablePlayers twoTeamSession) /\
  picks (@makePick exampleHost playerZ 0 twoTeamSession)
    <> picks twoTeamSession /\
  teams (@makePick exampleHost playerZ 0 twoTeamSession)
    <> teams twoTeamSession /\
  currentPick (@makePick exampleHost playerZ 0 twoTeamSession)
    <> currentPick twoTeamSession /\
  currentTeamIndex (@makePick exampleHost playerZ 0 twoTeamSession)
    <> currentTeamIndex twoTeamSession.
Proof.
  split.
  - intros H. vm_compute in H.
    destruct H as [H|[H|[H|[]]]]; discriminate H.
  - vm_compute. repeat split; discriminate.
Qed.

Lemma makePick_unavailable_player_recorded_witness :
  (forall q, In q (availablePlayers twoTeamSession) -> id q <> id playerZ) /\
  currentPick (@makePick exampleHost playerZ 0 twoTeamSession) = 2 /\
  availablePlayers (@makePick exampleHost playerZ 0 twoTeamSession) =
    [playerA; playerB; playerC].
Proof.
  assert (H : forall q, In q (availablePlayers twoTeamSession) ->
                        id q <> id playerZ).
  { intros q Hq. vm_compute in Hq.
    destruct Hq as [<-|[<-|[<-|[]]]]; vm_compute; discriminate. }
  split; [exact H|].
  pose proof (@makePick_unavailable_player_recorded exampleHost playerZ 0
                twoTeamSession H) as T.
  change (settings twoTeamSession) with (Some (exampleSettings 2 snake)) in T.
  cbv zeta in T. destruct T as (_ & T2 & _ & T4 & _).
  rewrite T2, T4. split; reflexivity.
Defined.

Lemma markPlayerAsDrafted_out_of_range_witness :
  (5 < 0 \/ Z.of_nat (List.length (teams twoTeamSession)) <= 5) /\
  teams (@markPlayerAsDrafted exampleHost playerA 5 0 twoTeamSession) =
    teams twoTeamSession /\
  ~ In playerA
      (availablePlayers
         (@markPlayerAsDrafted exampleHost playerA 5 0 twoTeamSession)).
Proof.
  assert (H : 5 < 0 \/ Z.of_nat (List.length (teams twoTeamSession)) <= 5)
    by (right; vm_compute; discriminate).
  split; [exact H|].
  destruct (@markPlayerAsDrafted_out_of_range exampleHost playerA 5 0
              twoTeamSession H) as (_ & _ & T3 & _ & _ & T6 & _).
  split; assumption.
Defined.

Lemma makePick_reverse_round_off_by_one_witness :
  currentPick sessionAtPick13 = 13 /\
  currentTeamIndex (@makePick exampleHost (letterPlayer 12) 0 sessionAtPick13)
    = turnOrder_spec snake 12 14 + 1 /\
  currentTeamIndex
    (@markPlayerAsDrafted exampleHost (letterPlayer 12) 11 0 sessionAtPick13)
    = turnOrder_spec snake 12 14.
Proof.
  split; [reflexivity|].
  destruct (@makePick_reverse_round_off_by_one exampleHost (letterPlayer 12)
              0 11 sessionAtPick13 (exampleSettings 12 snake))
    as (T1 & _ & T3);
    [reflexivity | reflexivity | reflexivity | vm_compute; discriminate
    | reflexivity | reflexivity | ].
  split; assumption.
Defined.

(** C5 (counterexample): twelve picks into the twelve-team snake session,
    pick 13 is on the clock for team index 11, not 0. *)
Lemma pick_13_is_not_team_0 :
  currentPick twelveTeamSession = 1 /\
  currentTeamIndex twelveTeamSession = 0 /\
  currentPick sessionAtPick13 = 13 /\
  currentTeamIndex sessionAtPick13 = 11 /\
  currentTeamIndex sessionAtPick13 <> 0.
Proof. vm_compute. repeat split; discriminate. Qed.

Lemma pick_13_of_12_team_snake_witness :
  currentPick (@makePicks exampleHost (map letterPlayer (seq 0 12)) 0
                 twelveTeamSession) = 13 /\
  currentTeamIndex (@makePicks exampleHost (map letterPlayer (seq 0 12)) 0
                      twelveTeamSession) = 11.
Proof.
  destruct (@pick_13_of_12_team_snake exampleHost
              (map letterPlayer (seq 0 12)) 0 twelveTeamSession
              (exampleSettings 12 snake))
    as (T1 & T2 & _); try reflexivity.
  split; assumption.
Defined.

(** The collation of the examples is consistent. *)
Lemma exampleHost_consistent : consistent_collation exampleHost.
Proof.
  intros a b. cbn [localeCompare exampleHost].
  rewrite (String.compare_antisym a b).
  destruct (String.compare b a); cbn; lia.
Qed.

(** C3 (counterexample): with 57 seconds left, picking the available
    [playerA] and undoing the pick leaves 120 seconds on the clock. *)
Lemma makePick_undoLastPick_loses_timer :
  In playerA (availablePlayers twoTeamSessionAt57) /\
  timeRemaining twoTeamSessionAt57 = 57 /\
  timeRemaining
    (@undoLastPick exampleHost
       (@makePick exampleHost playerA 0 twoTeamSessionAt57)) = 120 /\
  timeRemaining
    (@undoLastPick exampleHost
       (@makePick exampleHost playerA 0 twoTeamSessionAt57))
    <> timeRemaining twoTeamSessionAt57.
Proof.
  split; [left; reflexivity|]. vm_compute. repeat split; discriminate.
Qed.

(** When [availablePlayers] is not in name order, the round trip also
    reorders it. *)
Example makePick_undoLastPick_reorders :
  let s := @initializeDraft exampleHost (exampleSettings 2 snake)
             (map exampleTeam (seq 0 2)) [playerB; playerA] initialStore in
  availablePlayers s = [playerB; playerA] /\
  availablePlayers
    (@undoLastPick exampleHost (@makePick exampleHost playerB 0 s)) =
    [playerA; playerB].
Proof. vm_compute. split; reflexivity. Qed.

Lemma makePick_undoLastPick_round_trip_witness :
  In playerB (availablePlayers twoTeamSessionAt57) /\
  availablePlayers
    (@undoLastPick exampleHost
       (@makePick exampleHost playerB 0 twoTeamSessionAt57)) =
    availablePlayers twoTeamSessionAt57 /\
  teams
    (@undoLastPick exampleHost
       (@makePick exampleHost playerB 0 twoTeamSessionAt57)) =
    teams twoTeamSessionAt57.
Proof.
  assert (Hin : In playerB (availablePlayers twoTeamSessionAt57))
    by (right; left; reflexivity).
  split; [exact Hin|].
  destruct (@makePick_undoLastPick_round_trip exampleHost playerB 0
              twoTeamSessionAt57 (exampleSettings 2 snake)
              exampleHost_consistent eq_refl Hin)
    as (_ & T2 & T3 & _).
  - repeat constructor.
  - repeat constructor; cbn; intuition discriminate.
  - intros t q Ht Hq. cbn in Ht.
    destruct Ht as [<-|[<-|[]]]; destruct Hq.
  - split; assumption.
Defined.

(** C4 (counterexample): [playerA] belongs to the pool of the two-team
    session; after [markPlayerAsDrafted] with team index 5 it is neither
    available nor on a roster.  And after [makePick] twice for [playerA]
    the player is on two rosters. *)
Lemma pool_partition_broken :
  In playerA [playerA; playerB; playerC] /\
  availablePlayers twoTeamSession = [playerA; playerB; playerC] /\
  ~ In playerA
      (availablePlayers
         (@markPlayerAsDrafted exampleHost playerA 5 0 twoTeamSession)) /\
  ~ In playerA
      (rostered
         (@markPlayerAsDrafted exampleHost playerA 5 0 twoTeamSession)) /\
  rostered
    (@makePick exampleHost playerA 1
       (@makePick exampleHost playerA 0 twoTeamSession)) =
    [playerA; playerA].
Proof.
  split; [now left|]. split; [reflexivity|].
  split; [|split].
  - intros H. vm_compute in H. destruct H as [H|[H|[]]]; discriminate H.
  - intros H. vm_compute in H. destruct H.
  - reflexivity.
Qed.

Lemma reachable_pool_partition_witness :
  isActive (startDraft twoTeamSession) = true /\
  @reachable exampleHost [playerA; playerB; playerC]
    (@undoLastPick exampleHost
       (@handlePlayerPick exampleHost playerB 1
          (@handlePlayerPick exampleHost playerA 0
             (startDraft twoTeamSession)))) /\
  Permutation
    (availablePlayers
       (@undoLastPick exampleHost
          (@handlePlayerPick exampleHost playerB 1
             (@handlePlayerPick exampleHost playerA 0
                (startDraft twoTeamSession)))) ++
     rostered
       (@undoLastPick exampleHost
          (@handlePlayerPick exampleHost playerB 1
             (@handlePlayerPick exampleHost playerA 0
                (startDraft twoTeamSession)))))
    [playerA; playerB; playerC].
Proof.
  assert (H : @reachable exampleHost [playerA; playerB; playerC]
                (@undoLastPick exampleHost
                   (@handlePlayerPick exampleHost playerB 1
                      (@handlePlayerPick exampleHost playerA 0
                         (startDraft twoTeamSession))))).
  { apply reach_undoLastPick. apply handlePlayerPick_reachable.
    - apply handlePlayerPick_reachable.
      + apply reach_startDraft. unfold twoTeamSession.
        apply reach_initializeDraft.
        * repeat constructor; cbn; intuition discriminate.
        * repeat constructor.
        * reflexivity.
        * reflexivity.
      + left. reflexivity.
    - left. reflexivity. }
  split; [reflexivity|]. split; [exact H|].
  exact (proj2 (proj2 (proj2 (proj2
           (@reachable_pool_partition exampleHost _ _ H))))).
Defined.

(** ** Adjusted values *)

Local Open Scope Q_scope.

Lemma round_comp (x y : Q) :
  x == y -> inject_Z (Math_round x) / 100 == inject_Z (Qfloor (y + (1 # 2))) / 100.
Proof.
  intros H. unfold Math_round.
  assert (E : Qfloor (x + (1 # 2)) = Qfloor (y + (1 # 2)))
    by (apply Qfloor_comp; now rewrite H).
  now rewrite E.
Qed.

(** C6 (amended): for a player that has a preference record
    [calculateAdjustedValue] is the five-step pipeline; for a player
    without a record it returns the base value as it is, with no team
    multiplier and no rounding. *)
Theorem calculateAdjustedValue_pipeline :
  forall (state : UserPreferences) (p : Player) (baseValue : Q),
    match getPlayerNote state (id p) with
    | Some _ =>
      calculateAdjustedValue state p baseValue ==
      adjustedValue_spec state p baseValue
    | None => calculateAdjustedValue state p baseValue = baseValue
    end.
Proof.
  intros state p b.
  unfold calculateAdjustedValue, adjustedValue_spec.
  destruct (getPlayerNote state (id p)) as [n|]; [|reflexivity].
  cbv zeta. apply round_comp.
  destruct (includes (favoriteTeams state) (team p));
    destruct (includes (avoidTeams state) (team p)); ring.
Qed.

(** C6 (counterexample): a Baltimore player without a preference record,
    Baltimore being a favourite team: the base value 10 comes back as 10,
    where the pipeline gives 11; and the base value 0.123 comes back
    unrounded. *)
Lemma calculateAdjustedValue_skips_unannotated :
  getPlayerNote ravensFan (id playerA) = None /\
  includes (favoriteTeams ravensFan) (team playerA) = true /\
  calculateAdjustedValue ravensFan playerA 10 == 10 /\
  adjustedValue_spec ravensFan playerA 10 == 11 /\
  ~ calculateAdjustedValue ravensFan playerA 10 ==
    adjustedValue_spec ravensFan playerA 10 /\
  calculateAdjustedValue defaultPreferences playerA (123 # 1000)
    == 123 # 1000 /\
  adjustedValue_spec defaultPreferences playerA (123 # 1000) == 12 # 100.
Proof.
  repeat split; try reflexivity. vm_compute. discriminate.
Qed.

(** ** Marking a player *)

Lemma find_update (pid : string) (u : PlayerNoteUpdate) (l : list PlayerNote) :
  find (fun n => str_eqb (playerId n) pid)
       (map (fun n => if str_eqb (playerId n) pid then applyUpdate n u
                      else n) l) =
  option_map (fun n => applyUpdate n u)
             (find (fun n => str_eqb (playerId n) pid) l).
Proof.
  induction l as [|a l IH]; [reflexivity|]. cbn [map find].
  destruct (str_eqb (playerId a) pid) eqn:E.
  - cbn [applyUpdate playerId]. now rewrite E.
  - now rewrite E.
Qed.

Lemma find_snoc_none {A : Type} (f : A -> bool) (l : list A) (x : A) :
  find f l = None -> find f (l ++ [x]) = if f x then Some x else None.
Proof.
  induction l as [|a l IH]; intros H; [reflexivity|]. cbn in *.
  destruct (f a); [discriminate | now apply IH].
Qed.

(** After [setPlayerTarget pid true] on an unmarked player the record of
    the player has the target flag, no avoid flag and no custom rank; the
    team lists are untouched. *)
Lemma setPlayerTarget_unmarked (state : UserPreferences) (p : Player) :
  unmarked state p ->
  favoriteTeams (setPlayerTarget (id p) true state) = favoriteTeams state /\
  avoidTeams (setPlayerTarget (id p) true state) = avoidTeams state /\
  exists n, getPlayerNote (setPlayerTarget (id p) true state) (id p) = Some n
            /\ isTarget n = true /\ customRanking n = None.
Proof.
  unfold unmarked, getPlayerNote, setPlayerTarget. intros H.
  destruct (find _ (playerNotes state)) as [n|] eqn:E.
  - destruct H as (_ & _ & Hr).
    split; [reflexivity|]. split; [reflexivity|].
    cbn [updatePlayerNote setPlayerNotes playerNotes].
    rewrite find_update, E. cbn [option_map]. eexists. split; [reflexivity|].
    cbn. split; [reflexivity | assumption].
  - unfold addPlayerNote. rewrite E.
    split; [reflexivity|]. split; [reflexivity|].
    cbn [updatePlayerNote setPlayerNotes playerNotes].
    rewrite find_update, (find_snoc_none _ _ _ E).
    cbn [playerId]. rewrite str_eqb_refl. cbn [option_map].
    eexists. split; [reflexivity|]. cbn. split; reflexivity.
Qed.

Lemma setPlayerAvoid_unmarked (state : UserPreferences) (p : Player) :
  unmarked state p ->
  favoriteTeams (setPlayerAvoid (id p) true state) = favoriteTeams state /\
  avoidTeams (setPlayerAvoid (id p) true state) = avoidTeams state /\
  exists n, getPlayerNote (setPlayerAvoid (id p) true state) (id p) = Some n
            /\ isTarget n = false /\ isAvoid n = true
            /\ customRanking n = None.
Proof.
  unfold unmarked, getPlayerNote, setPlayerAvoid. intros H.
  destruct (find _ (playerNotes state)) as [n|] eqn:E.
  - destruct H as (_ & _ & Hr).
    split; [reflexivity|]. split; [reflexivity|].
    cbn [updatePlayerNote setPlayerNotes playerNotes].
    rewrite find_update, E. cbn [option_map]. eexists. split; [reflexivity|].
    cbn. repeat split; try reflexivity. assumption.
  - unfold addPlayerNote. rewrite E.
    split; [reflexivity|]. split; [reflexivity|].
    cbn [updatePlayerNote setPlayerNotes playerNotes].
    rewrite find_update, (find_snoc_none _ _ _ E).
    cbn [playerId]. rewrite str_eqb_refl. cbn [option_map].
    eexists. split; [reflexivity|]. cbn. repeat split; reflexivity.
Qed.

(** The two bounds that define [Qfloor], with the integer seen as a
    rational. *)
Lemma floor_bounds (x : Q) :
  inject_Z (Qfloor x) <= x /\ x < inject_Z (Qfloor x) + 1.
Proof.
  split; [apply Qfloor_le|].
  pose proof (Qlt_floor x) as H. rewrite inject_Z_plus in H. exact H.
Qed.

Ltac floor_facts :=
  repeat match goal with
  | |- context [Qfloor ?x] =>
    let z := fresh "z" in
    let H := fresh "Hz" in
    pose proof (floor_bounds x) as H;
    set (z := inject_Z (Qfloor x)) in *; clearbody z
  end.

Lemma Math_round_zero (x : Q) : x == 0 -> Math_round x = 0%Z.
Proof.
  intros E. unfold Math_round.
  assert (Ex : x + (1 # 2) == 1 # 2) by (rewrite E; reflexivity).
  now rewrite (Qfloor_comp _ _ Ex).
Qed.

Ltac marks_strict :=
  unfold Math_round; floor_facts; unfold Qdiv;
  change (/ 100) with (1 # 100); lra.

Ltac marks_zero Hb :=
  repeat match goal with
         | |- context [Math_round ?x] =>
           rewrite (Math_round_zero x) by lra
         end;
  repeat split; first [exact Hb | vm_compute; reflexivity].

(** C7 (amended): for a player the user has not marked, whatever the team
    preferences: at a base value of at least 0.1, marking the player as a
    target strictly raises the adjusted value and marking the player as
    one to avoid strictly lowers it; at a base value of at most -0.1 the
    direction is the opposite, the target mark strictly lowers the value
    and the avoid mark strictly raises it; and at the base value 0 the
    adjusted value is 0 with either mark and without. *)
Theorem marking_moves_adjusted_value :
  forall (state : UserPreferences) (p : Player) (baseValue : Q),
    unmarked state p ->
    (1 # 10 <= baseValue ->
     calculateAdjustedValue state p baseValue <
       calculateAdjustedValue (setPlayerTarget (id p) true state) p baseValue
     /\
     calculateAdjustedValue (setPlayerAvoid (id p) true state) p baseValue <
       calculateAdjustedValue state p baseValue) /\
    (baseValue <= - (1 # 10) ->
     calculateAdjustedValue (setPlayerTarget (id p) true state) p baseValue <
       calculateAdjustedValue state p baseValue
     /\
     calculateAdjustedValue state p baseValue <
       calculateAdjustedValue (setPlayerAvoid (id p) true state) p baseValue)
    /\
    (baseValue == 0 ->
     calculateAdjustedValue state p baseValue == 0 /\
     calculateAdjustedValue (setPlayerTarget (id p) true state) p baseValue
       == 0 /\
     calculateAdjustedValue (setPlayerAvoid (id p) true state) p baseValue
       == 0).
Proof.
  intros state p b Hu.
  destruct (setPlayerTarget_unmarked state p Hu)
    as (Tf & Ta & nt & Tn & Tt & Tr).
  destruct (setPlayerAvoid_unmarked state p Hu)
    as (Af & Aa & na & An & At & Av & Ar).
  unfold calculateAdjustedValue.
  rewrite Tn, An, Tf, Ta, Af, Aa, Tt, Tr, At, Av, Ar.
  unfold unmarked in Hu.
  destruct (getPlayerNote state (id p)) as [n|].
  - destruct Hu as (H1 & H2 & H3). rewrite H1, H2, H3. cbv zeta.
    destruct (includes (favoriteTeams state) (team p));
      destruct (includes (avoidTeams state) (team p));
      (split; [intros Hb; marks_strict
              |split; [intros Hb; marks_strict|intros Hb; marks_zero Hb]]).
  - cbv zeta.
    destruct (includes (favoriteTeams state) (team p));
      destruct (includes (avoidTeams state) (team p));
      (split; [intros Hb; marks_strict
              |split; [intros Hb; marks_strict|intros Hb; marks_zero Hb]]).
Qed.

(** C7 (counterexample): at the base value 0 the three adjusted values of
    [playerA] coincide, and at the base value -10 the target mark lowers
    the value. *)
Lemma marking_at_zero_moves_nothing :
  calculateAdjustedValue defaultPreferences playerA 0 == 0 /\
  calculateAdjustedValue
    (setPlayerTarget (id playerA) true defaultPreferences) playerA 0 == 0 /\
  calculateAdjustedValue
    (setPlayerAvoid (id playerA) true defaultPreferences) playerA 0 == 0 /\
  ~ calculateAdjustedValue defaultPreferences playerA 0 <
    calculateAdjustedValue
      (setPlayerTarget (id playerA) true defaultPreferences) playerA 0 /\
  ~ calculateAdjustedValue
      (setPlayerAvoid (id playerA) true defaultPreferences) playerA 0 <
    calculateAdjustedValue defaultPreferences playerA 0 /\
  calculateAdjustedValue
    (setPlayerTarget (id playerA) true defaultPreferences) playerA (-10)
    == -12 /\
  calculateAdjustedValue defaultPreferences playerA (-10) == -10.
Proof.
  split; [reflexivity|]. split; [reflexivity|]. split; [reflexivity|].
  split; [intros H; vm_compute in H; discriminate H|].
  split; [intros H; vm_compute in H; discriminate H|].
  split; reflexivity.
Qed.

Lemma marking_moves_adjusted_value_witness :
  unmarked ravensFan playerA /\ 1 # 10 <= 10 /\ -10 <= - (1 # 10) /\
  (calculateAdjustedValue ravensFan playerA 10 <
     calculateAdjustedValue (setPlayerTarget (id playerA) true ravensFan)
       playerA 10 /\
   calculateAdjustedValue (setPlayerAvoid (id playerA) true ravensFan)
       playerA 10 <
     calculateAdjustedValue ravensFan playerA 10) /\
  (calculateAdjustedValue (setPlayerTarget (id playerA) true ravensFan)
       playerA (-10) <
     calculateAdjustedValue ravensFan playerA (-10) /\
   calculateAdjustedValue ravensFan playerA (-10) <
     calculateAdjustedValue (setPlayerAvoid (id playerA) true ravensFan)
       playerA (-10)) /\
  calculateAdjustedValue (setPlayerTarget (id playerA) true ravensFan)
    playerA 0 == 0.
Proof.
  assert (Hu : unmarked ravensFan playerA) by exact I.
  assert (Hb : 1 # 10 <= 10) by (vm_compute; discriminate).
  assert (Hn : -10 <= - (1 # 10)) by (vm_compute; discriminate).
  assert (Hz : 0 == 0) by reflexivity.
  split; [exact Hu|]. split; [exact Hb|]. split; [exact Hn|].
  split; [|split].
  - exact (proj1 (marking_moves_adjusted_value ravensFan playerA 10 Hu) Hb).
  - exact (proj1 (proj2 (marking_moves_adjusted_value ravensFan playerA
                           (-10) Hu)) Hn).
  - exact (proj1 (proj2 (proj2 (proj2 (marking_moves_adjusted_value
                                         ravensFan playerA 0 Hu)) Hz))).
Defined.

Local Close Scope Q_scope.

(** ** Merging duplicate records *)

Lemma normalize_derrick_henry :
  normalizePlayerName "Derrick Henry" = "derrick henry"%string /\
  normalizePlayerName "Derrick Henry Jr." = "derrick henry"%string.
Proof. split; vm_compute; reflexivity. Qed.

(** C9 (amended): merging a record named "Derrick Henry" of team "BAL"
    followed by a record named "Derrick Henry Jr." with an empty team
    gives exactly one player, the first record with its team "BAL" kept,
    counts one duplicate, and reports the team mismatch as a conflict (and
    the position mismatch too, when the positions differ): the report is
    never empty. *)
Theorem merge_derrick_henry :
  forall (a b : Player) (sources : list string) (players : JsMap Player),
    name a = "Derrick Henry"%string -> team a = "BAL"%string ->
    name b = "Derrick Henry Jr."%string -> team b = EmptyString ->
    exists m : Player,
      mergedPlayers (snd (mergePlayersFromSources players [a; b] sources))
        = [m] /\
      team m = "BAL"%string /\ name m = name a /\ id m = id a /\
      position m = position a /\
      fst (mergePlayersFromSources players [a; b] sources)
        = mapSet (id a) m players /\
      duplicatesFound (snd (mergePlayersFromSources players [a; b] sources))
        = 1 /\
      conflicts (snd (mergePlayersFromSources players [a; b] sources)) =
        {| conflictPlayerId := id a; conflictPlayerName := name a;
           conflictType := teamConflict; conflictSources := sources |}
        :: (if Position_eqb (position b) (position a) then []
            else [{| conflictPlayerId := id a;
                     conflictPlayerName := name a;
                     conflictType := positionConflict;
                     conflictSources := sources |}]).
Proof.
  intros a b sources players Ha Hta Hb Htb.
  destruct normalize_derrick_henry as [Na Nb].
  assert (G : groupByName [a; b] = [("derrick henry"%string, [a; b])]).
  { unfold groupByName. cbn [fold_left]. rewrite Ha, Hb, Na, Nb.
    reflexivity. }
  assert (R : mergePlayersFromSources players [a; b] sources =
    (mapSet (id a) (setData a (mergeData (data b) (data a))) players,
     {| mergedPlayers := [setData a (mergeData (data b) (data a))];
        duplicatesFound := 1;
        conflicts :=
          {| conflictPlayerId := id a; conflictPlayerName := name a;
             conflictType := teamConflict; conflictSources := sources |}
          :: (if Position_eqb (position b) (position a) then []
              else [{| conflictPlayerId := id a;
                       conflictPlayerName := name a;
                       conflictType := positionConflict;
                       conflictSources := sources |}]) |})).
  { unfold mergePlayersFromSources. rewrite G.
    cbn [fold_left mergeGroup snd mergePlayerData mergeOne mergedPlayers
         duplicatesFound conflicts List.length].
    rewrite Hta, Htb.
    change (str_eqb "" "BAL") with false.
    change (str_eqb "" "") with true.
    cbn [negb andb app setData id].
    destruct (Position_eqb (position b) (position a)); reflexivity. }
  rewrite R. cbn [fst snd mergedPlayers duplicatesFound conflicts].
  eexists. split; [reflexivity|].
  cbn [setData team name id position]. repeat split. assumption.
Qed.

(** C9 (counterexample): on the two records of the scenario the conflict
    report holds one conflict, the team mismatch. *)
Lemma derrick_henry_merge_reports_conflict :
  name henryA = "Derrick Henry"%string /\ team henryA = "BAL"%string /\
  name henryB = "Derrick Henry Jr."%string /\ team henryB = EmptyString /\
  map team
    (mergedPlayers
       (snd (mergePlayersFromSources [] [henryA; henryB]
               ["A"; "B"]%string))) = ["BAL"%string] /\
  map conflictType
    (conflicts
       (snd (mergePlayersFromSources [] [henryA; henryB]
               ["A"; "B"]%string))) = [teamConflict] /\
  conflicts
    (snd (mergePlayersFromSources [] [henryA; henryB] ["A"; "B"]%string))
    <> [].
Proof.
  repeat split; try reflexivity. vm_compute. discriminate.
Qed.

Lemma merge_derrick_henry_witness :
  exists m : Player,
    mergedPlayers
      (snd (mergePlayersFromSources [] [henryA; henryB] ["A"; "B"]%string))
      = [m] /\
    team m = "BAL"%string.
Proof.
  destruct (merge_derrick_henry henryA henryB ["A"; "B"]%string []
              eq_refl eq_refl eq_refl eq_refl) as (m & T1 & T2 & _).
  exists m. split; assumption.
Defined.

(** * Further properties of the draft store *)

Section DraftStoreMore.
Context {host : Host}.

Lemma seq_snoc_map (n : nat) :
  map Z.of_nat (seq 1 (S n)) = map Z.of_nat (seq 1 n) ++ [Z.of_nat n + 1].
Proof.
  rewrite seq_S, map_app. cbn [map]. f_equal. f_equal. lia.
Qed.

(** After a pick is appended with the current pick number the log is still
    numbered. *)
Lemma logNumbered_record (s s' : DraftStore) (pk : DraftPick) :
  logNumbered s -> pickNumber pk = currentPick s ->
  picks s' = picks s ++ [pk] -> currentPick s' = currentPick s + 1 ->
  logNumbered s'.
Proof.
  intros [Hm Hc] Hpk Hp Hc'. unfold logNumbered.
  rewrite Hp, length_app, map_app. cbn [List.length map].
  replace (List.length (picks s) + 1)%nat with (S (List.length (picks s)))
    by lia.
  rewrite seq_snoc_map, Hm, Hpk, Hc. split; [reflexivity|lia].
Qed.

(** X1: the numbering of the pick log is an invariant of the store with no
    precondition: [initializeDraft] establishes it, and [makePick],
    [markPlayerAsDrafted] and [undoLastPick] keep it whatever their
    arguments. *)
Theorem pick_log_numbering_kept :
  forall (s : DraftStore) (p : Player) (ti now : Z) (st : DraftSettings)
         (ts : list DraftTeam) (ps : list Player),
    logNumbered (initializeDraft st ts ps s) /\
    (logNumbered s ->
       logNumbered (makePick p now s) /\
       logNumbered (markPlayerAsDrafted p ti now s) /\
       logNumbered (undoLastPick s)).
Proof.
  intros s p ti now st ts ps. split.
  { destruct (initializeDraft_fields st ts ps s)
      as (_ & _ & _ & E4 & E5 & _).
    unfold logNumbered. rewrite E4, E5. split; reflexivity. }
  intros Hl. split; [|split].
  - destruct (settings s) as [st'|] eqn:Es.
    + destruct (makePick_fields p now s st' Es) as (_ & M2 & _).
      destruct (makePick_counters p now s st' Es) as (_ & M7 & _).
      apply (logNumbered_record s _
               {| pickNumber := currentPick s;
                  teamIndex := currentTeamIndex s;
                  player := Some p; timestamp := Some now |} Hl eq_refl M2 M7).
    + unfold makePick. now rewrite Es.
  - destruct (markPlayerAsDrafted_counters p ti now s) as (_ & M7 & _).
    apply (logNumbered_record s _
             {| pickNumber := currentPick s; teamIndex := ti;
                player := Some p; timestamp := Some now |} Hl eq_refl);
      [|exact M7].
    unfold markPlayerAsDrafted. store_fields. reflexivity.
  - destruct (picks s) as [|pk0 rest] eqn:Epk.
    { now rewrite undoLastPick_empty_log. }
    destruct (exists_last (l := pk0 :: rest)) as (l & lastPick & Elast);
      [discriminate|].
    rewrite Elast in Epk. clear Elast pk0 rest.
    destruct (player lastPick) as [q|] eqn:Eq.
    + destruct (undoLastPick_fields s l lastPick q Epk Eq)
        as (_ & U2 & _ & U4 & _).
      destruct Hl as [Hm Hc]. rewrite Epk in Hm.
      rewrite length_app, map_app in Hm. cbn [List.length map] in Hm.
      replace (List.length l + 1)%nat with (S (List.length l)) in Hm by lia.
      rewrite seq_snoc_map in Hm. apply app_inj_tail in Hm.
      destruct Hm as [Hm Hlast].
      unfold logNumbered. rewrite U4, U2. split; assumption.
    + assert (E : undoLastPick s = s).
      { unfold undoLastPick. rewrite Epk, length_app. cbn [List.length].
        replace (List.length l + 1)%nat with (S (List.length l)) by lia.
        cbn [Nat.eqb].
        replace (S (List.length l) - 1)%nat with (List.length l) by lia.
        rewrite nth_error_app2 by lia. rewrite Nat.sub_diag.
        cbn [nth_error]. now rewrite Eq. }
      now rewrite E.
Qed.

Lemma removeFromRoster_absent (p : Player) (t : DraftTeam) :
  (forall q, In q (roster t) -> id q <> id p) -> removeFromRoster p t = t.
Proof.
  intros H. destruct t as [i n r u]. unfold removeFromRoster.
  cbn [teamId teamName roster isUser] in *.
  now rewrite filter_other_ids.
Qed.

(** X2: [undoLastPick] right after [markPlayerAsDrafted] restores the pick
    log and the pick number, but it puts the team of the recorded pick,
    [teamIndex], on the clock, whichever team was on the clock before;
    the rosters are restored when none of them held the id of the
    player. *)
Theorem undo_after_markPlayerAsDrafted :
  forall (p : Player) (ti now : Z) (s : DraftStore),
    let s' := undoLastPick (markPlayerAsDrafted p ti now s) in
    picks s' = picks s /\ currentPick s' = currentPick s /\
    currentTeamIndex s' = ti /\
    availablePlayers s' =
      sort (fun a b => localeCompare (name a) (name b))
           (filter (fun q => negb (str_eqb (id q) (id p)))
                   (availablePlayers s) ++ [p]) /\
    ((forall t q, In t (teams s) -> In q (roster t) -> id q <> id p) ->
     teams s' = teams s).
Proof.
  intros p ti now s s'. subst s'.
  set (m := markPlayerAsDrafted p ti now s).
  assert (Mp : picks m = picks s ++
                 [{| pickNumber := currentPick s; teamIndex := ti;
                     player := Some p; timestamp := Some now |}]).
  { unfold m, markPlayerAsDrafted. store_fields. reflexivity. }
  assert (Ma : availablePlayers m =
               filter (fun q => negb (str_eqb (id q) (id p)))
                      (availablePlayers s)).
  { unfold m, markPlayerAsDrafted. store_fields. reflexivity. }
  destruct (undoLastPick_fields m _ _ p Mp eq_refl)
    as (_ & U2 & U3 & U4 & _ & U6 & _ & U8).
  cbn [pickNumber teamIndex] in *.
  rewrite U2, U3, U4, U8, U6, Ma.
  repeat split. intros Hros.
  assert (Mt : teams m = teams s \/
               teams m = mapi (fun t index =>
                                 if Z.of_nat index =? ti
                                 then addToRoster p t else t) (teams s)).
  { unfold m, markPlayerAsDrafted. store_fields.
    destruct ((0 <=? ti) && (ti <? Z.of_nat (List.length (teams s))));
      [right | left]; reflexivity. }
  destruct Mt as [-> | ->].
  - unfold mapi. apply mapi_from_id_In. intros t n Ht.
    destruct (Z.of_nat n =? ti); [|reflexivity].
    apply removeFromRoster_absent. intros q Hq. now apply (Hros t q).
  - unfold mapi. rewrite mapi_from_compose. apply mapi_from_id_In.
    intros t n Ht. destruct (Z.of_nat n =? ti); [|reflexivity].
    apply remove_add_roster. intros q Hq. now apply (Hros t q).
Qed.

(** X3: in a snake draft [markPlayerAsDrafted] always puts on the clock
    the team that the turn-order formula gives for the next pick number,
    whatever team index the pick was recorded for. *)
Theorem markPlayerAsDrafted_snake_turn :
  forall (p : Player) (ti now : Z) (s : DraftStore) (st : DraftSettings),
    settings s = Some st -> draftType st = snake ->
    0 < numberOfTeams st -> 0 <= currentPick s ->
    currentPick (markPlayerAsDrafted p ti now s) = currentPick s + 1 /\
    currentTeamIndex (markPlayerAsDrafted p ti now s) =
      turnOrder_spec snake (numberOfTeams st) (currentPick s + 1).
Proof.
  intros p ti now s st Hs Hd Hn Hp.
  destruct (markPlayerAsDrafted_counters p ti now s) as (_ & -> & ->).
  split; [reflexivity|].
  rewrite Hs. apply markPlayerAsDrafted_follows_formula; [assumption|lia|lia].
Qed.

(** X4: in a snake draft [makePick] agrees with the turn-order formula
    whenever the pick on the clock is in a forward round or is the last
    pick of a reverse round. *)
Theorem makePick_snake_turn_where_right :
  forall (p : Player) (now : Z) (s : DraftStore) (st : DraftSettings),
    settings s = Some st -> draftType st = snake ->
    0 < numberOfTeams st -> 1 <= currentPick s ->
    Z.even ((currentPick s - 1) / numberOfTeams st) = true \/
    (currentPick s - 1) mod numberOfTeams st + 1 = numberOfTeams st ->
    currentTeamIndex (makePick p now s) =
      turnOrder_spec snake (numberOfTeams st) (currentPick s + 1).
Proof.
  intros p now s st Hs Hd Hn Hp Hcase.
  destruct (makePick_counters p now s st Hs) as (_ & _ & ->).
  destruct (Z.even ((currentPick s - 1) / numberOfTeams st)) eqn:Hev.
  - now apply makePick_forward_round.
  - destruct Hcase as [Hc|Hc]; [discriminate|].
    destruct (makePick_reverse_round_last st (currentPick s)
                (currentTeamIndex s) Hd Hn Hp Hev Hc) as [-> ->].
    reflexivity.
Qed.

(** X5: in a linear draft both ways of recording the pick of the team on
    the clock keep the session on the formula: when the team on the clock
    is the formula's team for the current pick number, the next team on
    the clock is the formula's team for the next pick number. *)
Theorem linear_turn_kept :
  forall (p : Player) (now : Z) (s : DraftStore) (st : DraftSettings),
    settings s = Some st -> draftType st = linear ->
    0 < numberOfTeams st -> 1 <= currentPick s ->
    currentTeamIndex s =
      turnOrder_spec linear (numberOfTeams st) (currentPick s) ->
    currentTeamIndex (makePick p now s) =
      turnOrder_spec linear (numberOfTeams st) (currentPick s + 1) /\
    currentTeamIndex (markPlayerAsDrafted p (currentTeamIndex s) now s) =
      turnOrder_spec linear (numberOfTeams st) (currentPick s + 1).
Proof.
  intros p now s st Hs Hd Hn Hp Hc.
  destruct (makePick_counters p now s st Hs) as (_ & _ & ->).
  destruct (markPlayerAsDrafted_counters p (currentTeamIndex s) now s)
    as (_ & _ & ->).
  rewrite Hs. unfold makePick_nextTeamIndex,
    markPlayerAsDrafted_nextTeamIndex, turnOrder_spec in *.
  rewrite Hd. cbv zeta.
  pose proof (Z.mod_pos_bound (currentPick s - 1) (numberOfTeams st) Hn).
  rewrite Z.rem_mod_nonneg by lia. rewrite Hc.
  replace (currentPick s + 1 - 1) with (currentPick s - 1 + 1) by ring.
  rewrite Zplus_mod_idemp_l. split; reflexivity.
Qed.

(** X6: with a positive number of teams, a pick number of at least 1 and a
    team index that is not negative, the team index that [makePick] and
    [markPlayerAsDrafted] leave is that of a team: it lies in
    [0, numberOfTeams). *)
Theorem next_team_index_in_range :
  forall (p : Player) (ti now : Z) (s : DraftStore) (st : DraftSettings),
    settings s = Some st -> 0 < numberOfTeams st -> 1 <= currentPick s ->
    0 <= currentTeamIndex s -> 0 <= ti ->
    0 <= currentTeamIndex (makePick p now s) < numberOfTeams st /\
    0 <= currentTeamIndex (markPlayerAsDrafted p ti now s)
      < numberOfTeams st.
Proof.
  intros p ti now s st Hs Hn Hp Hc Hti.
  destruct (makePick_counters p now s st Hs) as (_ & _ & ->).
  destruct (markPlayerAsDrafted_counters p ti now s) as (_ & _ & ->).
  rewrite Hs. split.
  - now apply makePick_nextTeamIndex_range.
  - now apply markPlayerAsDrafted_nextTeamIndex_range.
Qed.

(** On a session that has just been initialised, [undoLastPick]
    changes nothing. *)
Theorem undo_after_initializeDraft :
  forall (st : DraftSettings) (ts : list DraftTeam) (ps : list Player)
         (s : DraftStore),
    undoLastPick (initializeDraft st ts ps s) = initializeDraft st ts ps s.
Proof.
  intros st ts ps s. apply undoLastPick_empty_log.
  now destruct (initializeDraft_fields st ts ps s) as (_ & _ & _ & E & _).
Qed.

(** [undoLastPick] on a log whose entries all name a player: the last
    entry goes, the others stay. *)
Lemma undoLastPick_pops (s : DraftStore) :
  allWithPlayer (picks s) ->
  picks (undoLastPick s) = removelast (picks s).
Proof.
  intros Hall.
  destruct (picks s) as [|pk0 rest] eqn:Epk.
  { rewrite undoLastPick_empty_log by assumption. now rewrite Epk. }
  destruct (exists_last (l := pk0 :: rest)) as (l & lastPick & Elast);
    [discriminate|].
  rewrite Elast in *. clear Elast pk0 rest.
  apply Forall_app in Hall. destruct Hall as [_ Hlast].
  inversion Hlast as [|? ? Hq _]; subst.
  destruct (player lastPick) as [q|] eqn:Eq; [|now elim Hq].
  destruct (undoLastPick_fields s l lastPick q Epk Eq)
    as (_ & _ & _ & U4 & _).
  now rewrite U4, removelast_last.
Qed.

(** When every entry of the pick log names a player (as every entry
    written by the store does), pressing undo as many times as there are
    entries empties the log and brings the pick number back to the number
    of the first entry. *)
Theorem undo_all_empties_log :
  forall (s : DraftStore),
    allWithPlayer (picks s) ->
    picks (Nat.iter (List.length (picks s)) undoLastPick s) = [] /\
    (forall first, nth_error (picks s) 0 = Some first ->
       currentPick (Nat.iter (List.length (picks s)) undoLastPick s)
       = pickNumber first).
Proof.
  intros s.
  remember (List.length (picks s)) as n eqn:En.
  revert s En. induction n as [|n IH]; intros s En Hall.
  - cbn. destruct (picks s); [|discriminate]. split; [reflexivity|].
    intros first H. discriminate H.
  - assert (E : Nat.iter (S n) undoLastPick s
                = Nat.iter n undoLastPick (undoLastPick s)).
    { clear. induction n as [|n IHn]; [reflexivity|].
      cbn [Nat.iter nat_rect] in *. now rewrite IHn. }
    rewrite E.
    pose proof (undoLastPick_pops s Hall) as Hpop.
    destruct (exists_last (l := picks s)) as (l & lastPick & El).
    { intros H0. rewrite H0 in En. discriminate. }
    rewrite El, removelast_last in Hpop.
    assert (Hlen : n = List.length (picks (undoLastPick s))).
    { rewrite Hpop. rewrite El, length_app in En. cbn in En. lia. }
    assert (Hall' : allWithPlayer (picks (undoLastPick s))).
    { rewrite Hpop. rewrite El in Hall. apply Forall_app in Hall.
      now destruct Hall. }
    destruct (IH (undoLastPick s) Hlen Hall') as [IH1 IH2].
    split; [assumption|].
    intros first Hf. destruct l as [|a l].
    + rewrite El in Hf. cbn in Hf. injection Hf as <-.
      rewrite Hlen, Hpop. cbn [List.length Nat.iter nat_rect].
      rewrite El in Hall. inversion Hall as [|? ? Hq _]; subst.
      destruct (player lastPick) as [q|] eqn:Eq; [|now elim Hq].
      now destruct (undoLastPick_fields s [] lastPick q El Eq)
        as (_ & U2 & _).
    + apply IH2. rewrite Hpop. rewrite El in Hf. exact Hf.
Qed.

(** ** The draft room *)

(** In a reverse round, at any pick but the last of the round, [makePick]
    repeats the team that the formula gives for the current pick. *)
Lemma makePick_reverse_round_repeats (st : DraftSettings) (cp cti : Z) :
  draftType st = snake -> 0 < numberOfTeams st -> 1 <= cp ->
  Z.even ((cp - 1) / numberOfTeams st) = false ->
  (cp - 1) mod numberOfTeams st + 1 < numberOfTeams st ->
  makePick_nextTeamIndex st cp cti = turnOrder_spec snake (numberOfTeams st) cp
  /\ turnOrder_spec snake (numberOfTeams st) cp =
     turnOrder_spec snake (numberOfTeams st) (cp + 1) + 1.
Proof.
  intros Hd Hn Hp Hodd Hlast.
  unfold makePick_nextTeamIndex, turnOrder_spec. rewrite Hd. cbv zeta.
  set (n := numberOfTeams st) in *.
  pose proof (Z.div_mod (cp - 1) n ltac:(lia)) as Hdm.
  pose proof (Z.mod_pos_bound (cp - 1) n Hn) as Hb.
  set (q := (cp - 1) / n) in *. set (r := (cp - 1) mod n) in *.
  assert (Hq : 0 <= q) by (apply Z.div_pos; lia).
  replace cp with (n * q + r + 1) at 1 by lia.
  rewrite ceil_div_round by lia.
  rewrite !Z.rem_mod_nonneg by lia. fold r.
  assert (Ho : Zodd q).
  { apply Zodd_bool_iff. rewrite <- Z.negb_even. now rewrite Hodd. }
  destruct (Zodd_ex _ Ho) as [k Hk].
  assert (E1 : (q + 1) mod 2 = 0).
  { symmetry. apply (Z.mod_unique _ 2 (k + 1)); [left; lia | lia]. }
  rewrite E1. cbn [Z.eqb].
  replace (cp + 1 - 1) with cp by ring.
  destruct (Z.eqb_spec (r + 1) n) as [Er|Er]; [lia|].
  assert (Eq' : cp / n = q)
    by (symmetry; apply (Z.div_unique _ n _ (r + 1)); [left; lia | lia]).
  assert (Em : cp mod n = r + 1)
    by (symmetry; apply (Z.mod_unique _ n q); [left; lia | lia]).
  rewrite Eq', Em, Hodd. lia.
Qed.

Lemma isUserTurn_inv (s : DraftStore) :
  isUserTurn s = true ->
  exists t, 0 <= currentTeamIndex s /\
            nth_error (teams s) (Z.to_nat (currentTeamIndex s)) = Some t /\
            isUser t = true.
Proof.
  unfold isUserTurn, teamAt. intros H.
  destruct (Z.ltb_spec (currentTeamIndex s) 0); [discriminate|].
  destruct (nth_error _ _) as [t|]; [|discriminate].
  exists t. repeat split; assumption.
Qed.

(** In the draft room, when the user's team is on the clock in a
    reverse round of a snake draft (at any pick but the last of the round)
    and the user drafts a player, the pick number advances and the user's
    team is on the clock again, where the formula gives the next pick to
    the team one index lower. *)
Theorem user_pick_in_reverse_round_repeats :
  forall (p : Player) (now : Z) (s : DraftStore) (st : DraftSettings),
    isActive s = true -> isUserTurn s = true ->
    settings s = Some st -> draftType st = snake ->
    0 < numberOfTeams st -> 1 <= currentPick s ->
    Z.even ((currentPick s - 1) / numberOfTeams st) = false ->
    (currentPick s - 1) mod numberOfTeams st + 1 < numberOfTeams st ->
    currentTeamIndex s =
      turnOrder_spec snake (numberOfTeams st) (currentPick s) ->
    let s' := handlePlayerPick p now s in
    currentPick s' = currentPick s + 1 /\
    currentTeamIndex s' = currentTeamIndex s /\
    isUserTurn s' = true /\
    turnOrder_spec snake (numberOfTeams st) (currentPick s') =
      currentTeamIndex s - 1.
Proof.
  intros p now s st Ha Hu Hs Hd Hn Hp Hodd Hlast Hc s'. subst s'.
  unfold handlePlayerPick. rewrite Ha, Hu. cbn [negb].
  destruct (makePick_counters p now s st Hs) as (_ & M7 & M8).
  destruct (makePick_fields p now s st Hs) as (_ & _ & _ & M4 & _).
  destruct (makePick_reverse_round_repeats st (currentPick s)
              (currentTeamIndex s) Hd Hn Hp Hodd Hlast) as [G1 G2].
  assert (Hsame : currentTeamIndex (makePick p now s) = currentTeamIndex s)
    by (rewrite M8, G1; now symmetry).
  split; [assumption|]. split; [assumption|]. split.
  - destruct (isUserTurn_inv s Hu) as (t & H0 & Ht & Hut).
    unfold isUserTurn, teamAt. rewrite Hsame, M4.
    destruct (Z.ltb_spec (currentTeamIndex s) 0); [lia|].
    rewrite (mapi_nth_error _ _ _ _ Ht).
    replace (Z.of_nat (Z.to_nat (currentTeamIndex s)))
      with (currentTeamIndex s) by lia.
    rewrite Z.eqb_refl. exact Hut.
  - rewrite M7. lia.
Qed.

(** X7: in the draft room a pick is ignored while the draft is paused;
    and when the draft is running and a team other than the user's is on
    the clock in a snake draft, recording its pick puts on the clock the
    team that the formula gives for the next pick number. *)
Theorem other_team_pick_follows_formula :
  forall (p : Player) (now : Z) (s : DraftStore) (st : DraftSettings),
    settings s = Some st -> draftType st = snake ->
    0 < numberOfTeams st -> 0 <= currentPick s ->
    (isActive s = false -> handlePlayerPick p now s = s) /\
    (isActive s = true -> isUserTurn s = false ->
     currentPick (handlePlayerPick p now s) = currentPick s + 1 /\
     currentTeamIndex (handlePlayerPick p now s) =
       turnOrder_spec snake (numberOfTeams st) (currentPick s + 1)).
Proof.
  intros p now s st Hs Hd Hn Hp. unfold handlePlayerPick. split.
  - intros ->. reflexivity.
  - intros -> ->. cbn [negb].
    destruct (markPlayerAsDrafted_counters p (currentTeamIndex s) now s)
      as (_ & -> & ->).
    split; [reflexivity|]. rewrite Hs.
    apply markPlayerAsDrafted_follows_formula; [assumption|lia|lia].
Qed.

Lemma iter_succ_inside {A : Type} (f : A -> A) (n : nat) (x : A) :
  Nat.iter (S n) f x = Nat.iter n f (f x).
Proof.
  induction n as [|n IH]; [reflexivity|].
  cbn [Nat.iter nat_rect] in *. now rewrite IH.
Qed.

(** X8: the countdown.  While the draft is paused the timer effect
    changes nothing; while it runs, [n] firings from a time that is not
    negative leave [max 0 (time - n)] on the clock and touch nothing else:
    the clock stops at zero and nothing is picked when it gets there. *)
Theorem timer_counts_down_to_zero :
  forall (n : nat) (s : DraftStore),
    (isActive s = false -> Nat.iter n timerTick s = s) /\
    (isActive s = true -> 0 <= timeRemaining s ->
     Nat.iter n timerTick s =
       updateTimer (Z.max 0 (timeRemaining s - Z.of_nat n)) s).
Proof.
  intros n s. split.
  - intros Ha. induction n as [|n IH]; [reflexivity|].
    rewrite iter_succ_inside. unfold timerTick at 2. rewrite Ha.
    exact IH.
  - revert s. induction n as [|n IH]; intros s Ha Ht.
    + cbn [Nat.iter nat_rect]. rewrite Z.sub_0_r, Z.max_r by lia.
      now destruct s.
    + rewrite iter_succ_inside. unfold timerTick at 2. rewrite Ha.
      cbn [negb orb].
      destruct (Z.leb_spec (timeRemaining s) 0) as [H0|H0].
      * rewrite IH by assumption.
        f_equal. lia.
      * rewrite IH; cbn [updateTimer isActive timeRemaining];
          [|assumption|lia].
        unfold updateTimer. cbn. f_equal. lia.
Qed.

End DraftStoreMore.

(** * Further properties of the preference store *)

Lemma applyUpdate_playerId (n : PlayerNote) (u : PlayerNoteUpdate) :
  playerId (applyUpdate n u) = playerId n.
Proof. reflexivity. Qed.

(** Looking up [pid'] after notes of another player [pid] were rewritten. *)
Lemma find_update_other (pid pid' : string) (g : PlayerNote -> PlayerNote)
    (l : list PlayerNote) :
  pid' <> pid -> (forall n, playerId (g n) = playerId n) ->
  find (fun n => str_eqb (playerId n) pid')
       (map (fun n => if str_eqb (playerId n) pid then g n else n) l) =
  find (fun n => str_eqb (playerId n) pid') l.
Proof.
  intros Hne Hg. induction l as [|a l IH]; [reflexivity|]. cbn [map find].
  destruct (str_eqb (playerId a) pid) eqn:E.
  - rewrite Hg. apply String.eqb_eq in E.
    rewrite !str_eqb_neq by congruence. exact IH.
  - destruct (str_eqb (playerId a) pid'); [reflexivity | exact IH].
Qed.

Lemma find_snoc_other {A : Type} (f : A -> bool) (l : list A) (x : A) :
  f x = false -> find f (l ++ [x]) = find f l.
Proof.
  intros H. induction l as [|a l IH]; cbn; [now rewrite H|].
  destruct (f a); [reflexivity | exact IH].
Qed.

Lemma find_filter_other (pid pid' : string) (l : list PlayerNote) :
  pid' <> pid ->
  find (fun n => str_eqb (playerId n) pid')
       (filter (fun n => negb (str_eqb (playerId n) pid)) l) =
  find (fun n => str_eqb (playerId n) pid') l.
Proof.
  intros Hne. induction l as [|a l IH]; [reflexivity|]. cbn [filter find].
  destruct (str_eqb (playerId a) pid) eqn:E; cbn [negb].
  - apply String.eqb_eq in E. rewrite str_eqb_neq by congruence. exact IH.
  - cbn [find]. destruct (str_eqb (playerId a) pid'); [reflexivity|exact IH].
Qed.

Lemma getPlayerNote_updatePlayerNote (pid : string) (u : PlayerNoteUpdate)
    (state : UserPreferences) :
  getPlayerNote (updatePlayerNote pid u state) pid =
  option_map (fun n => applyUpdate n u) (getPlayerNote state pid).
Proof. unfold getPlayerNote, updatePlayerNote. cbn. apply find_update. Qed.

Lemma getPlayerNote_updatePlayerNote_other (pid pid' : string)
    (u : PlayerNoteUpdate) (state : UserPreferences) :
  pid' <> pid ->
  getPlayerNote (updatePlayerNote pid u state) pid' = getPlayerNote state pid'.
Proof.
  intros H. unfold getPlayerNote, updatePlayerNote. cbn.
  apply find_update_other; [assumption | reflexivity].
Qed.

Lemma getPlayerNote_addPlayerNote_other (pid pid' text : string)
    (state : UserPreferences) :
  pid' <> pid ->
  getPlayerNote (addPlayerNote pid text state) pid' = getPlayerNote state pid'.
Proof.
  intros H. unfold getPlayerNote, addPlayerNote.
  destruct (find _ (playerNotes state)); cbn.
  - apply find_update_other; [assumption | reflexivity].
  - apply find_snoc_other. cbn. apply str_eqb_neq. congruence.
Qed.

(** The note of [pid] after [addPlayerNote] when there was none. *)
Lemma getPlayerNote_addPlayerNote_new (pid text : string)
    (state : UserPreferences) :
  getPlayerNote state pid = None ->
  getPlayerNote (addPlayerNote pid text state) pid =
    Some {| playerId := pid; note := text; isTarget := false;
            isAvoid := false; customRanking := None |}.
Proof.
  unfold getPlayerNote, addPlayerNote. intros E. rewrite E. cbn.
  rewrite (find_snoc_none _ _ _ E). cbn. now rewrite str_eqb_refl.
Qed.

(** X9: the flags read back after they are set.  Marking a player as a
    target makes [isPlayerTarget] true and [isPlayerAvoid] false, marking a
    player as one to avoid does the opposite, whatever the state before;
    taking the target mark off leaves the avoid flag as it was. *)
Theorem flags_read_back :
  forall (state : UserPreferences) (pid : string),
    isPlayerTarget (setPlayerTarget pid true state) pid = true /\
    isPlayerAvoid (setPlayerTarget pid true state) pid = false /\
    isPlayerAvoid (setPlayerAvoid pid true state) pid = true /\
    isPlayerTarget (setPlayerAvoid pid true state) pid = false /\
    isPlayerTarget (setPlayerTarget pid false state) pid = false /\
    isPlayerAvoid (setPlayerTarget pid false state) pid =
      isPlayerAvoid state pid.
Proof.
  intros state pid.
  unfold isPlayerTarget, isPlayerAvoid, setPlayerTarget, setPlayerAvoid.
  destruct (find (fun n => str_eqb (playerId n) pid) (playerNotes state))
    as [n|] eqn:E.
  - rewrite !getPlayerNote_updatePlayerNote.
    unfold getPlayerNote. rewrite E. cbn. repeat split.
  - rewrite !getPlayerNote_updatePlayerNote.
    rewrite !(getPlayerNote_addPlayerNote_new pid EmptyString state E).
    unfold getPlayerNote. rewrite E. cbn. repeat split.
Qed.

Lemma exclusive_updatePlayerNote (pid : string) (u : PlayerNoteUpdate)
    (state : UserPreferences) :
  (forall n, In n (playerNotes state) -> str_eqb (playerId n) pid = true ->
             isTarget n && isAvoid n = false ->
             isTarget (applyUpdate n u) && isAvoid (applyUpdate n u) = false) ->
  exclusiveNotes state -> exclusiveNotes (updatePlayerNote pid u state).
Proof.
  intros Hu H. unfold exclusiveNotes, updatePlayerNote in *. cbn.
  rewrite Forall_forall in *. intros n' Hn'. apply in_map_iff in Hn'.
  destruct Hn' as (n & <- & Hn).
  destruct (str_eqb (playerId n) pid) eqn:E; auto.
Qed.

Lemma exclusive_addPlayerNote (pid text : string) (state : UserPreferences) :
  exclusiveNotes state -> exclusiveNotes (addPlayerNote pid text state).
Proof.
  intros H. unfold exclusiveNotes, addPlayerNote in *.
  destruct (find _ (playerNotes state)); cbn.
  - rewrite Forall_forall in *. intros n' Hn'. apply in_map_iff in Hn'.
    destruct Hn' as (n & <- & Hn).
    destruct (str_eqb (playerId n) pid); cbn; auto.
  - apply Forall_app. split; [exact H|]. constructor; [reflexivity|constructor].
Qed.

(** The notes of [pid] after [addPlayerNote pid] on a state without one:
    only the fresh note. *)
Lemma fresh_note_only (pid text : string) (state : UserPreferences)
    (n : PlayerNote) :
  find (fun n => str_eqb (playerId n) pid) (playerNotes state) = None ->
  In n (playerNotes (addPlayerNote pid text state)) ->
  str_eqb (playerId n) pid = true ->
  isTarget n = false /\ isAvoid n = false.
Proof.
  intros E Hin Hp. unfold addPlayerNote in Hin. rewrite E in Hin. cbn in Hin.
  apply in_app_or in Hin. destruct Hin as [Hin|[<-|[]]].
  - pose proof (find_none _ _ E n Hin) as Hf. cbn in Hf. congruence.
  - split; reflexivity.
Qed.

(** X10: target and avoid stay exclusive.  When no note carries both
    flags, none does after [setPlayerTarget], [setPlayerAvoid],
    [setCustomRanking], [clearCustomRanking], [addPlayerNote] or
    [removePlayerNote], whatever their arguments. *)
Theorem target_and_avoid_stay_exclusive :
  forall (state : UserPreferences) (pid text : string) (b : bool) (r : Q),
    exclusiveNotes state ->
    exclusiveNotes (setPlayerTarget pid b state) /\
    exclusiveNotes (setPlayerAvoid pid b state) /\
    exclusiveNotes (setCustomRanking pid r state) /\
    exclusiveNotes (clearCustomRanking pid state) /\
    exclusiveNotes (addPlayerNote pid text state) /\
    exclusiveNotes (removePlayerNote pid state).
Proof.
  intros state pid text b r H.
  pose proof (exclusive_addPlayerNote pid EmptyString state H) as Ha.
  repeat split.
  - unfold setPlayerTarget.
    destruct (find _ (playerNotes state)) as [e|] eqn:E;
      apply exclusive_updatePlayerNote; try assumption.
    + intros n _ _ _. cbn. destruct b; cbn; rewrite ?andb_false_r; reflexivity.
    + intros n Hin Hp _.
      destruct (fresh_note_only pid EmptyString state n E Hin Hp) as [_ Hv].
      cbn. rewrite Hv. apply andb_false_r.
  - unfold setPlayerAvoid.
    destruct (find _ (playerNotes state)) as [e|] eqn:E;
      apply exclusive_updatePlayerNote; try assumption.
    + intros n _ _ _. cbn. destruct b; cbn; rewrite ?andb_false_r; reflexivity.
    + intros n Hin Hp _.
      destruct (fresh_note_only pid EmptyString state n E Hin Hp) as [Ht _].
      cbn. now rewrite Ht.
  - unfold setCustomRanking.
    destruct (find _ (playerNotes state));
      apply exclusive_updatePlayerNote; auto.
  - unfold clearCustomRanking. apply exclusive_updatePlayerNote; auto.
  - now apply exclusive_addPlayerNote.
  - unfold exclusiveNotes, removePlayerNote in *. cbn.
    rewrite Forall_forall in *.
    intros n Hn. apply filter_In in Hn. now apply H.
Qed.

(** X11: the record of one player is never touched by an action on
    another: after any of the six actions on [pid], the note of every other
    player reads as before. *)
Theorem other_players_untouched :
  forall (state : UserPreferences) (pid pid' text : string) (b : bool)
         (r : Q),
    pid' <> pid ->
    getPlayerNote (setPlayerTarget pid b state) pid' =
      getPlayerNote state pid' /\
    getPlayerNote (setPlayerAvoid pid b state) pid' =
      getPlayerNote state pid' /\
    getPlayerNote (setCustomRanking pid r state) pid' =
      getPlayerNote state pid' /\
    getPlayerNote (clearCustomRanking pid state) pid' =
      getPlayerNote state pid' /\
    getPlayerNote (addPlayerNote pid text state) pid' =
      getPlayerNote state pid' /\
    getPlayerNote (removePlayerNote pid state) pid' =
      getPlayerNote state pid'.
Proof.
  intros state pid pid' text b r Hne.
  unfold setPlayerTarget, setPlayerAvoid, setCustomRanking,
    clearCustomRanking.
  destruct (find _ (playerNotes state));
    rewrite !getPlayerNote_updatePlayerNote_other by assumption;
    rewrite !getPlayerNote_addPlayerNote_other by assumption;
    repeat split;
    unfold getPlayerNote, removePlayerNote; cbn;
    now apply find_filter_other.
Qed.

Lemma find_filter_self (pid : string) (l : list PlayerNote) :
  find (fun n => str_eqb (playerId n) pid)
       (filter (fun n => negb (str_eqb (playerId n) pid)) l) = None.
Proof.
  induction l as [|a l IH]; [reflexivity|]. cbn [filter].
  destruct (str_eqb (playerId a) pid) eqn:E; cbn [negb]; [exact IH|].
  cbn [find]. now rewrite E.
Qed.

(** X12: [removePlayerNote] removes every record of the player: afterwards
    the player has no note, is neither target nor avoided, has no custom
    rank, and [calculateAdjustedValue] gives the base value back. *)
Theorem removePlayerNote_forgets :
  forall (state : UserPreferences) (p : Player) (baseValue : Q),
    getPlayerNote (removePlayerNote (id p) state) (id p) = None /\
    isPlayerTarget (removePlayerNote (id p) state) (id p) = false /\
    isPlayerAvoid (removePlayerNote (id p) state) (id p) = false /\
    getCustomRanking (removePlayerNote (id p) state) (id p) = None /\
    calculateAdjustedValue (removePlayerNote (id p) state) p baseValue
      = baseValue.
Proof.
  intros state p b.
  assert (E : getPlayerNote (removePlayerNote (id p) state) (id p) = None).
  { unfold getPlayerNote, removePlayerNote. cbn. apply find_filter_self. }
  unfold isPlayerTarget, isPlayerAvoid, getCustomRanking,
    calculateAdjustedValue.
  rewrite E. repeat split.
Qed.

Lemma updatePlayerNote_absent (pid : string) (u : PlayerNoteUpdate)
    (state : UserPreferences) :
  getPlayerNote state pid = None -> updatePlayerNote pid u state = state.
Proof.
  unfold getPlayerNote, updatePlayerNote, setPlayerNotes. intros E.
  destruct state as [f a l d pp]. cbn in *. f_equal.
  rewrite <- (map_id l) at 2. apply map_ext_in. intros n Hn.
  now rewrite (find_none _ _ E n Hn).
Qed.

(** X13: the custom rank reads back after it is set, whether or not the
    player had a note, and reads as absent after it is cleared; clearing
    the rank of a player without a note changes nothing (no note is
    created), and setting a rank keeps the flags the player had. *)
Theorem custom_ranking_reads_back :
  forall (state : UserPreferences) (pid : string) (r : Q),
    getCustomRanking (setCustomRanking pid r state) pid = Some r /\
    getCustomRanking (clearCustomRanking pid state) pid = None /\
    (getPlayerNote state pid = None ->
     clearCustomRanking pid state = state) /\
    isPlayerTarget (setCustomRanking pid r state) pid =
      isPlayerTarget state pid /\
    isPlayerAvoid (setCustomRanking pid r state) pid =
      isPlayerAvoid state pid.
Proof.
  intros state pid r.
  unfold getCustomRanking, isPlayerTarget, isPlayerAvoid, setCustomRanking,
    clearCustomRanking.
  split; [|split; [|split]].
  - destruct (find _ (playerNotes state)) as [n|] eqn:E;
      rewrite getPlayerNote_updatePlayerNote.
    + unfold getPlayerNote. now rewrite E.
    + now rewrite (getPlayerNote_addPlayerNote_new pid EmptyString state E).
  - rewrite getPlayerNote_updatePlayerNote.
    now destruct (getPlayerNote state pid).
  - apply updatePlayerNote_absent.
  - destruct (find _ (playerNotes state)) as [n|] eqn:E;
      rewrite !getPlayerNote_updatePlayerNote.
    + unfold getPlayerNote. rewrite E. split; reflexivity.
    + rewrite !(getPlayerNote_addPlayerNote_new pid EmptyString state E).
      unfold getPlayerNote. rewrite E. split; reflexivity.
Qed.

(** [addPlayerNote] writes the text and nothing else: the note of the
    player then carries the text, and the flags and the custom rank read
    as before. *)
Theorem addPlayerNote_keeps_marks :
  forall (state : UserPreferences) (pid text : string),
    option_map note (getPlayerNote (addPlayerNote pid text state) pid)
      = Some text /\
    isPlayerTarget (addPlayerNote pid text state) pid =
      isPlayerTarget state pid /\
    isPlayerAvoid (addPlayerNote pid text state) pid =
      isPlayerAvoid state pid /\
    getCustomRanking (addPlayerNote pid text state) pid =
      getCustomRanking state pid.
Proof.
  intros state pid text.
  unfold isPlayerTarget, isPlayerAvoid, getCustomRanking.
  destruct (getPlayerNote state pid) as [n|] eqn:E.
  - assert (E' : getPlayerNote (addPlayerNote pid text state) pid =
                 Some (applyUpdate n
                         {| updNote := Some text; updIsTarget := None;
                            updIsAvoid := None; updCustomRanking := None |})).
    { unfold getPlayerNote, addPlayerNote in *. rewrite E. cbn.
      now rewrite find_update, E. }
    rewrite E'. repeat split.
  - rewrite (getPlayerNote_addPlayerNote_new pid text state E).
    repeat split.
Qed.

Local Open Scope Q_scope.

Lemma floor_of_half_above (k : Z) : Qfloor (inject_Z k + (1 # 2)) = k.
Proof.
  pose proof (floor_bounds (inject_Z k + (1 # 2))) as [H1 H2].
  set (z := Qfloor (inject_Z k + (1 # 2))) in *.
  assert (A : (z < k + 1)%Z).
  { rewrite Zlt_Qlt, inject_Z_plus. change (inject_Z 1) with 1. lra. }
  assert (B : (k - 1 < z)%Z).
  { rewrite Zlt_Qlt. unfold Z.sub. rewrite inject_Z_plus.
    change (inject_Z (Z.opp 1)) with (-1 # 1). lra. }
  lia.
Qed.

(** X14: a custom rank overrides the base value.  For a player whose note
    carries a custom rank the adjusted value does not depend on the base
    value at all; and with no flag set and no team preference for the
    team of the player, a whole-number rank [k] gives exactly [2 * k]. *)
Theorem custom_rank_overrides_base :
  forall (state : UserPreferences) (p : Player) (n : PlayerNote) (r : Q),
    getPlayerNote state (id p) = Some n -> customRanking n = Some r ->
    (forall b1 b2 : Q,
       calculateAdjustedValue state p b1 = calculateAdjustedValue state p b2)
    /\
    (isTarget n = false -> isAvoid n = false ->
     includes (favoriteTeams state) (team p) = false ->
     includes (avoidTeams state) (team p) = false ->
     forall (k : Z) (b : Q), r == inject_Z k ->
       calculateAdjustedValue state p b == inject_Z (2 * k)).
Proof.
  intros state p n r En Er. unfold calculateAdjustedValue.
  rewrite En, Er. split; [reflexivity|].
  intros -> -> -> -> k b Hk. cbv zeta. unfold Math_round.
  assert (E : r * 2 * (1 * 1) * 100 + (1 # 2) ==
              inject_Z (200 * k) + (1 # 2)).
  { rewrite Hk, (inject_Z_mult 200 k). change (inject_Z 200) with 200. ring. }
  rewrite (Qfloor_comp _ _ E), floor_of_half_above.
  rewrite (inject_Z_mult 200 k), (inject_Z_mult 2 k).
  change (inject_Z 200) with 200. change (inject_Z 2) with 2. field.
Qed.

Lemma scaled_floor_le (c b1 b2 : Q) :
  0 <= c -> b1 <= b2 ->
  inject_Z (Math_round (b1 * c * 100)) / 100 <=
  inject_Z (Math_round (b2 * c * 100)) / 100.
Proof.
  intros Hc Hb. unfold Math_round, Qdiv. change (/ 100) with (1 # 100).
  assert (H : (Qfloor (b1 * c * 100 + (1 # 2)) <=
               Qfloor (b2 * c * 100 + (1 # 2)))%Z).
  { apply Qfloor_resp_le. nra. }
  rewrite Zle_Qle in H. lra.
Qed.

(** X15: the adjustment keeps the order of base values: a larger base
    value never gives a smaller adjusted value, whatever the notes and the
    team preferences. *)
Theorem calculateAdjustedValue_monotone :
  forall (state : UserPreferences) (p : Player) (b1 b2 : Q),
    b1 <= b2 ->
    calculateAdjustedValue state p b1 <= calculateAdjustedValue state p b2.
Proof.
  intros state p b1 b2 Hb. unfold calculateAdjustedValue.
  destruct (getPlayerNote state (id p)) as [n|]; [|exact Hb].
  cbv zeta. destruct (customRanking n) as [r|]; [apply Qle_refl|].
  destruct (isTarget n); [|destruct (isAvoid n)];
    destruct (includes (favoriteTeams state) (team p));
    destruct (includes (avoidTeams state) (team p));
    match goal with
    | |- inject_Z (Math_round (?x1 * ?c * 100)) / 100 <= _ =>
      first [ apply (scaled_floor_le c); [lra | nra]
            | apply (scaled_floor_le c b1 b2); [lra | exact Hb] ]
    end.
Qed.

Local Close Scope Q_scope.

(** * Further properties of the player database *)

(** ** Normalised names *)

Lemma removeSpecial_chars (s : list ascii) :
  Forall (fun c => is_lower c || is_digit c || is_space c = true)
         (removeSpecial s).
Proof.
  apply Forall_forall. intros c Hc. unfold removeSpecial in Hc.
  apply filter_In in Hc. now destruct Hc.
Qed.

Lemma collapseSpaces_chars (s : list ascii) :
  Forall (fun c => is_lower c || is_digit c || is_space c = true) s ->
  forall b, Forall (fun c => nameChar c = true) (collapseSpaces b s).
Proof.
  induction 1 as [|c s Hc _ IH]; intros b; cbn; [constructor|].
  destruct (is_space c) eqn:Es.
  - destruct b; [apply IH|]. constructor; [reflexivity | apply IH].
  - constructor; [|apply IH]. unfold nameChar.
    rewrite orb_false_r in Hc. now rewrite Hc.
Qed.

Lemma trimStart_suffix (s : list ascii) :
  exists pre, s = pre ++ trimStart s.
Proof.
  induction s as [|c s [pre IH]]; [now exists []|]. cbn.
  destruct (is_space c).
  - exists (c :: pre). cbn. now rewrite <- IH.
  - now exists [].
Qed.

Lemma trimStart_head (s : list ascii) (c : ascii) (l : list ascii) :
  trimStart s = c :: l -> is_space c = false.
Proof.
  induction s as [|a s IH]; [discriminate|]. cbn.
  destruct (is_space a) eqn:E; [exact IH|].
  intros H. injection H as <- _. exact E.
Qed.

Lemma trimStart_Forall (P : ascii -> Prop) (s : list ascii) :
  Forall P s -> Forall P (trimStart s).
Proof.
  intros H. destruct (trimStart_suffix s) as [pre E].
  rewrite E in H. apply Forall_app in H. now destruct H.
Qed.

Lemma trim_Forall (P : ascii -> Prop) (s : list ascii) :
  Forall P s -> Forall P (trim s).
Proof.
  intros H. unfold trim. apply Forall_rev, trimStart_Forall, Forall_rev.
  now apply trimStart_Forall.
Qed.

Lemma trim_ends (s : list ascii) :
  (forall c l, trim s = c :: l -> is_space c = false) /\
  (forall l c, trim s = l ++ [c] -> is_space c = false).
Proof.
  unfold trim. set (t := trimStart s). set (u := trimStart (rev t)).
  split.
  - intros c l H.
    destruct (trimStart_suffix (rev t)) as [pre E]. fold u in E.
    assert (Et : t = rev u ++ rev pre).
    { rewrite <- rev_app_distr, <- E. now rewrite rev_involutive. }
    rewrite H in Et. cbn in Et. now apply (trimStart_head s c _ Et).
  - intros l c H.
    assert (Eu : u = c :: rev l).
    { rewrite <- (rev_involutive u), H, rev_app_distr. reflexivity. }
    now apply (trimStart_head (rev t) c _ Eu).
Qed.

Lemma removeSuffixes_Forall (P : ascii -> Prop) (s : list ascii) :
  Forall P s -> forall b k, Forall P (removeSuffixes b k s).
Proof.
  induction 1 as [|c s Hc _ IH]; intros b k; cbn [removeSuffixes];
    [constructor|].
  destruct k as [|k]; [|apply IH].
  destruct (if wordBoundary b (c :: s)
            then matchAlternative suffixAlternatives (c :: s) else None)
    as [[|k]|]; try apply IH; constructor; auto.
Qed.

(** A normalised name is made of lower-case letters, digits and the
    space character only, and it neither starts nor ends with a space. *)
Theorem normalizePlayerName_shape :
  forall (s : string),
    let r := list_ascii_of_string (normalizePlayerName s) in
    Forall (fun c => nameChar c = true) r /\
    (forall c l, r = c :: l -> c <> " "%char) /\
    (forall l c, r = l ++ [c] -> c <> " "%char).
Proof.
  intros s r. subst r. unfold normalizePlayerName.
  rewrite list_ascii_of_string_of_list_ascii.
  split; [|split].
  - apply trim_Forall, removeSuffixes_Forall, trim_Forall,
      collapseSpaces_chars, removeSpecial_chars.
  - intros c l H E. subst c.
    now pose proof (proj1 (trim_ends _) _ _ H).
  - intros l c H E. subst c.
    now pose proof (proj2 (trim_ends _) _ _ H).
Qed.

Lemma lower_not_upper (c : ascii) : is_upper c = false -> lower c = c.
Proof. unfold lower. now intros ->. Qed.

Lemma lower_idempotent (c : ascii) : lower (lower c) = lower c.
Proof.
  destruct c as [[] [] [] [] [] [] [] []]; reflexivity.
Qed.

(** X16: punctuation and letter case never matter when duplicates are
    looked for: deleting a character that is neither a letter, a digit
    nor white space, and lower-casing the whole name, leave the
    normalised name unchanged. *)
Theorem normalizePlayerName_ignores_punctuation_and_case :
  forall (l1 l2 : list ascii) (c : ascii),
    punctuation c = true ->
    normalizePlayerName (string_of_list_ascii (l1 ++ c :: l2)) =
      normalizePlayerName (string_of_list_ascii (l1 ++ l2)) /\
    normalizePlayerName (string_of_list_ascii (toLowerCase (l1 ++ l2))) =
      normalizePlayerName (string_of_list_ascii (l1 ++ l2)).
Proof.
  intros l1 l2 c Hc. unfold normalizePlayerName.
  rewrite !list_ascii_of_string_of_list_ascii. split.
  - do 5 f_equal. unfold toLowerCase, removeSpecial.
    rewrite !map_app, !filter_app. cbn [map filter].
    unfold punctuation in Hc. apply negb_true_iff in Hc.
    apply orb_false_iff in Hc. destruct Hc as [Hc Hs].
    apply orb_false_iff in Hc. destruct Hc as [Hc Hd].
    apply orb_false_iff in Hc. destruct Hc as [Hu Hl].
    rewrite (lower_not_upper c Hu), Hl, Hd, Hs. reflexivity.
  - do 6 f_equal. unfold toLowerCase. rewrite map_map.
    apply map_ext. intros a. apply lower_idempotent.
Qed.

(** ** Grouping by normalised name *)

Section Upsert.
Variable k : string.
Variable p : Player.

(** The step of the grouping loop on a map that starts with [(k', g)]. *)
Lemma upsert_cons (k' : string) (g : list Player) (m : JsMap (list Player)) :
  mapSet k (orElse (mapGet k ((k', g) :: m)) [] ++ [p]) ((k', g) :: m) =
  if str_eqb k' k then (k', g ++ [p]) :: m
  else (k', g) :: mapSet k (orElse (mapGet k m) [] ++ [p]) m.
Proof. cbn. now destruct (str_eqb k' k). Qed.

Lemma upsert_perm (m : JsMap (list Player)) :
  Permutation
    (List.concat (map snd (mapSet k (orElse (mapGet k m) [] ++ [p]) m)))
    (p :: List.concat (map snd m)).
Proof.
  induction m as [|[k' g] m IH]; [reflexivity|].
  rewrite upsert_cons. destruct (str_eqb k' k); cbn [map snd List.concat].
  - rewrite <- app_assoc. cbn. symmetry. apply Permutation_middle.
  - rewrite IH. symmetry. apply Permutation_middle.
Qed.

Lemma upsert_keys (m : JsMap (list Player)) (x : string) :
  In x (map fst (mapSet k (orElse (mapGet k m) [] ++ [p]) m)) ->
  x = k \/ In x (map fst m).
Proof.
  induction m as [|[k' g] m IH].
  - cbn. intuition.
  - rewrite upsert_cons. destruct (str_eqb k' k); cbn [map fst In].
    + intuition.
    + intros [H|H]; [now right; left|]. apply IH in H. intuition.
Qed.

Lemma upsert_NoDup (m : JsMap (list Player)) :
  NoDup (map fst m) ->
  NoDup (map fst (mapSet k (orElse (mapGet k m) [] ++ [p]) m)).
Proof.
  induction m as [|[k' g] m IH]; intros H.
  - cbn. constructor; [intros []|constructor].
  - rewrite upsert_cons. cbn [map fst] in H.
    apply NoDup_cons_iff in H. destruct H as [Hk' Hm].
    destruct (str_eqb k' k) eqn:E; cbn [map fst]; [now constructor|].
    constructor; [|now apply IH].
    intros Hin. apply upsert_keys in Hin. destruct Hin as [->|Hin]; [|auto].
    unfold str_eqb in E. now rewrite String.eqb_refl in E.
Qed.

Lemma upsert_groupOk (m : JsMap (list Player)) :
  groupKey p = k -> Forall groupOk m ->
  Forall groupOk (mapSet k (orElse (mapGet k m) [] ++ [p]) m).
Proof.
  intros Hk. induction m as [|[k' g] m IH]; intros H.
  - cbn. constructor; [|constructor]. split; cbn; [discriminate|].
    constructor; [assumption|constructor].
  - rewrite upsert_cons. apply Forall_cons_iff in H.
    destruct H as [[Hne Hg] Hm].
    destruct (str_eqb k' k) eqn:E.
    + constructor; [|assumption]. split; cbn in *.
      * intros H0. now apply app_eq_nil in H0 as [_ H0].
      * apply Forall_app. split; [assumption|].
        constructor; [|constructor]. apply String.eqb_eq in E. congruence.
    + constructor; [now split | now apply IH].
Qed.

Lemma upsert_length (m : JsMap (list Player)) :
  ~ In k (map fst m) ->
  mapSet k (orElse (mapGet k m) [] ++ [p]) m = m ++ [(k, [p])].
Proof.
  induction m as [|[k' g] m IH]; intros H; [reflexivity|].
  rewrite upsert_cons. cbn [map fst In] in H.
  destruct (str_eqb k' k) eqn:E.
  - apply String.eqb_eq in E. intuition.
  - cbn. f_equal. apply IH. intuition.
Qed.

End Upsert.

Lemma groupByName_from (l : list Player) :
  forall (m : JsMap (list Player)) (seen : list Player),
    Permutation (List.concat (map snd m)) seen ->
    NoDup (map fst m) -> Forall groupOk m ->
    let m' := fold_left
                (fun nameMap p =>
                   let normalizedName := normalizePlayerName (name p) in
                   let existing := orElse (mapGet normalizedName nameMap) [] in
                   mapSet normalizedName (existing ++ [p]) nameMap) l m in
    Permutation (List.concat (map snd m')) (seen ++ l) /\
    NoDup (map fst m') /\ Forall groupOk m'.
Proof.
  induction l as [|p l IH]; intros m seen Hp Hn Hg; cbn [fold_left].
  - rewrite app_nil_r. repeat split; assumption.
  - cbv zeta.
    specialize (IH (mapSet (normalizePlayerName (name p))
                      (orElse (mapGet (normalizePlayerName (name p)) m) []
                       ++ [p]) m) (seen ++ [p])).
    cbv zeta in IH. rewrite <- app_assoc in IH. cbn [app] in IH.
    apply IH.
    + rewrite upsert_perm, Hp. apply Permutation_cons_append.
    + now apply upsert_NoDup.
    + now apply upsert_groupOk.
Qed.

(** Grouping loses and invents nothing.  The groups of [groupByName]
    together hold exactly the input records, under pairwise distinct keys;
    no group is empty, and every record sits in the group of its own
    normalised name. *)
Theorem groupByName_partitions :
  forall (newPlayers : list Player),
    Permutation (List.concat (map snd (groupByName newPlayers))) newPlayers /\
    NoDup (map fst (groupByName newPlayers)) /\
    Forall groupOk (groupByName newPlayers).
Proof.
  intros l. unfold groupByName.
  apply (groupByName_from l [] []); constructor.
Qed.

(** ** Merging *)

(** The counts after the second loop, for well-formed groups. *)
Lemma merge_groups_count (sources : list string)
    (groups : JsMap (list Player)) :
  Forall groupOk groups ->
  forall (players : JsMap Player) (res : PlayerMergeResult),
    let out := snd (fold_left (mergeGroup sources) groups (players, res)) in
    List.length (mergedPlayers out) =
      (List.length (mergedPlayers res) + List.length groups)%nat /\
    Z.of_nat (List.length (mergedPlayers out)) + duplicatesFound out =
      Z.of_nat (List.length (mergedPlayers res)) + duplicatesFound res +
      Z.of_nat (List.length (List.concat (map snd groups))).
Proof.
  induction 1 as [|[k g] groups [Hne _] _ IH]; intros players res;
    cbn [fold_left].
  - cbn. split; lia.
  - cbn [snd fst] in Hne. cbn [map snd List.concat]. rewrite length_app.
    destruct g as [|p [|q g]]; [contradiction| |].
    + cbn [mergeGroup snd].
      match goal with
      | |- context [fold_left (mergeGroup sources) groups (?a, ?b)] =>
        destruct (IH a b) as [IH1 IH2]
      end.
      cbv zeta in IH1, IH2.
      cbn [mergedPlayers duplicatesFound] in IH1, IH2.
      rewrite length_app in IH1, IH2. cbn [List.length] in *. split; lia.
    + cbn [mergeGroup snd mergePlayerData].
      destruct (fold_left (mergeOne p sources) (q :: g)
                  (p, conflicts res)) as [m cs].
      match goal with
      | |- context [fold_left (mergeGroup sources) groups (?a, ?b)] =>
        destruct (IH a b) as [IH1 IH2]
      end.
      cbv zeta in IH1, IH2.
      cbn [mergedPlayers duplicatesFound] in IH1, IH2.
      rewrite length_app in IH1, IH2. cbn [List.length] in *. split; lia.
Qed.

(** X17: the merge accounts for every record: the number of merged players
    is the number of distinct normalised names, and merged players plus
    duplicates found is the number of input records. *)
Theorem merge_accounts_for_every_record :
  forall (players : JsMap Player) (newPlayers : list Player)
         (sources : list string),
    let res := snd (mergePlayersFromSources players newPlayers sources) in
    List.length (mergedPlayers res) =
      List.length (groupByName newPlayers) /\
    Z.of_nat (List.length (mergedPlayers res)) + duplicatesFound res =
      Z.of_nat (List.length newPlayers).
Proof.
  intros players l sources res. subst res. unfold mergePlayersFromSources.
  destruct (groupByName_partitions l) as (Hperm & _ & Hok).
  destruct (merge_groups_count sources (groupByName l) Hok players
              {| mergedPlayers := []; duplicatesFound := 0;
                 conflicts := [] |}) as [H1 H2].
  cbv zeta in H1, H2. cbn [mergedPlayers duplicatesFound List.length] in *.
  rewrite (Permutation_length Hperm) in H2. split; lia.
Qed.

Lemma groupByName_distinct_from (l : list Player) :
  forall (seen : list Player),
    NoDup (map groupKey (seen ++ l)) ->
    fold_left
      (fun nameMap p =>
         let normalizedName := normalizePlayerName (name p) in
         let existing := orElse (mapGet normalizedName nameMap) [] in
         mapSet normalizedName (existing ++ [p]) nameMap)
      l (map (fun p => (groupKey p, [p])) seen) =
    map (fun p => (groupKey p, [p])) (seen ++ l).
Proof.
  induction l as [|p l IH]; intros seen Hn; cbn [fold_left].
  - now rewrite app_nil_r.
  - cbv zeta. fold (groupKey p). rewrite upsert_length.
    + replace (map (fun p0 => (groupKey p0, [p0])) seen ++ [(groupKey p, [p])])
        with (map (fun p0 => (groupKey p0, [p0])) (seen ++ [p]))
        by (now rewrite map_app).
      rewrite IH; rewrite <- app_assoc; [reflexivity | exact Hn].
    + rewrite map_map. cbn [fst]. rewrite map_app in Hn. cbn [map] in Hn.
      apply NoDup_remove_2 in Hn. intros Hin. apply Hn.
      apply in_or_app. now left.
Qed.

Lemma merge_singletons (sources : list string) (l : list Player) :
  forall (players : JsMap Player) (res : PlayerMergeResult),
    fold_left (mergeGroup sources) (map (fun p => (groupKey p, [p])) l)
              (players, res) =
    (fold_left (fun m p => mapSet (id p) p m) l players,
     {| mergedPlayers := mergedPlayers res ++ l;
        duplicatesFound := duplicatesFound res;
        conflicts := conflicts res |}).
Proof.
  induction l as [|p l IH]; intros players res; cbn [map fold_left].
  - rewrite app_nil_r. now destruct res.
  - cbn [mergeGroup snd]. rewrite IH.
    cbn [mergedPlayers duplicatesFound conflicts].
    now rewrite <- app_assoc.
Qed.

(** X18: records whose normalised names are pairwise distinct pass through
    the merge untouched: the merged players are the input records in
    their order, no duplicate is counted, no conflict is reported, and
    each record is stored in the database map under its id. *)
Theorem merge_without_duplicates :
  forall (players : JsMap Player) (newPlayers : list Player)
         (sources : list string),
    NoDup (map groupKey newPlayers) ->
    mergePlayersFromSources players newPlayers sources =
      (fold_left (fun m p => mapSet (id p) p m) newPlayers players,
       {| mergedPlayers := newPlayers; duplicatesFound := 0;
          conflicts := [] |}).
Proof.
  intros players l sources Hn. unfold mergePlayersFromSources, groupByName.
  pose proof (groupByName_distinct_from l [] Hn) as E.
  cbn [map app] in E. rewrite E.
  now rewrite merge_singletons.
Qed.

(** What one turn of the merge loop does to the identity, the team and
    the conflicts. *)
Lemma mergeOne_spec (basePlayer : Player) (sources : list string)
    (m : Player) (cs : list Conflict) (p : Player) :
  let out := mergeOne basePlayer sources (m, cs) p in
  id (fst out) = id m /\ name (fst out) = name m /\
  position (fst out) = position m /\ byeWeek (fst out) = byeWeek m /\
  team (fst out) =
    (if negb (str_eqb (team p) (team basePlayer))
        && negb (str_eqb (team p) EmptyString)
        && str_eqb (team m) EmptyString
     then team p else team m) /\
  data (fst out) = mergeData (data p) (data m) /\
  snd out = cs ++ conflictsAgainst basePlayer sources p.
Proof.
  unfold mergeOne, conflictsAgainst. cbv zeta.
  destruct (str_eqb (team p) (team basePlayer)); cbn [negb andb];
    destruct (Position_eqb (position p) (position basePlayer)); cbn [negb];
    destruct (negb (str_eqb (team p) EmptyString)
              && str_eqb (team m) EmptyString);
    cbn; rewrite ?app_nil_r, <- ?app_assoc; repeat split.
Qed.

Lemma firstTeam_snoc (l : list Player) (p : Player) :
  firstTeam (l ++ [p]) =
  if str_eqb (firstTeam l) EmptyString then team p else firstTeam l.
Proof.
  unfold firstTeam. induction l as [|a l IH]; cbn [app find].
  - destruct (str_eqb (team p) EmptyString) eqn:E; cbn;
      [now apply String.eqb_eq in E | reflexivity].
  - destruct (str_eqb (team a) EmptyString) eqn:E; cbn [negb];
      [exact IH | now rewrite E].
Qed.

Lemma mergePlayerData_from (basePlayer : Player) (sources : list string)
    (others : list Player) :
  forall (seen : list Player) (m : Player) (cs0 cs : list Conflict),
    id m = id basePlayer /\ name m = name basePlayer /\
    position m = position basePlayer /\ byeWeek m = byeWeek basePlayer ->
    team m = firstTeam (basePlayer :: seen) ->
    cs = cs0 ++ flat_map (conflictsAgainst basePlayer sources) seen ->
    let out := fold_left (mergeOne basePlayer sources) others (m, cs) in
    (id (fst out) = id basePlayer /\ name (fst out) = name basePlayer /\
     position (fst out) = position basePlayer /\
     byeWeek (fst out) = byeWeek basePlayer) /\
    team (fst out) = firstTeam (basePlayer :: seen ++ others) /\
    snd out =
      cs0 ++ flat_map (conflictsAgainst basePlayer sources) (seen ++ others).
Proof.
  induction others as [|p others IH]; intros seen m cs0 cs Hid Ht Hc;
    cbn [fold_left].
  - rewrite app_nil_r. repeat split; tauto.
  - destruct (mergeOne_spec basePlayer sources m cs p)
      as (E1 & E2 & E3 & E4 & E5 & _ & E7).
    destruct (mergeOne basePlayer sources (m, cs) p) as [m' cs'].
    cbn [fst snd] in *.
    replace (seen ++ p :: others) with ((seen ++ [p]) ++ others)
      by (now rewrite <- app_assoc).
    apply IH.
    + destruct Hid as (H1 & H2 & H3 & H4). repeat split; congruence.
    + rewrite E5, Ht.
      change (basePlayer :: seen ++ [p]) with ((basePlayer :: seen) ++ [p]).
      rewrite firstTeam_snoc.
      destruct (str_eqb (firstTeam (basePlayer :: seen)) EmptyString) eqn:Ef.
      * rewrite andb_true_r.
        assert (Eb : team basePlayer = EmptyString).
        { unfold firstTeam in Ef. cbn [find] in Ef.
          destruct (str_eqb (team basePlayer) EmptyString) eqn:Eb;
            [now apply String.eqb_eq in Eb|].
          cbn [negb] in Ef. now rewrite Ef in Eb. }
        rewrite Eb. apply String.eqb_eq in Ef.
        destruct (str_eqb (team p) EmptyString) eqn:Ep; cbn;
          [apply String.eqb_eq in Ep; congruence | reflexivity].
      * now rewrite andb_false_r.
    + rewrite E7, Hc, flat_map_app. cbn. now rewrite app_nil_r, app_assoc.
Qed.

(** X19: what [mergePlayerData] does besides the statistics.  The merged
    record keeps the id, the name, the position and the bye week of the
    first record of the group; its team is the team of the first record
    of the group that has one; and the conflict array grows by the
    conflicts of each later record against the first, in order: earlier
    entries are never touched. *)
Theorem mergePlayerData_identity_and_conflicts :
  forall (basePlayer : Player) (others : list Player)
         (cs : list Conflict) (sources : list string),
    exists (m : Player),
      mergePlayerData (basePlayer :: others) cs sources =
        Some (m, cs ++ flat_map (conflictsAgainst basePlayer sources) others)
      /\ id m = id basePlayer /\ name m = name basePlayer /\
      position m = position basePlayer /\ byeWeek m = byeWeek basePlayer /\
      team m = firstTeam (basePlayer :: others).
Proof.
  intros basePlayer others cs sources. cbn [mergePlayerData].
  destruct (mergePlayerData_from basePlayer sources others [] basePlayer
              cs cs) as ((H1 & H2 & H3 & H4) & H5 & H6).
  - repeat split.
  - unfold firstTeam. cbn [find].
    destruct (str_eqb (team basePlayer) EmptyString) eqn:E; cbn;
      [now apply String.eqb_eq in E | reflexivity].
  - cbn. now rewrite app_nil_r.
  - cbv zeta in *. cbn [app] in *.
    destruct (fold_left (mergeOne basePlayer sources) others
                (basePlayer, cs)) as [m cs'].
    cbn [fst snd] in *. exists m. rewrite H6. repeat split; assumption.
Qed.

Local Open Scope Q_scope.

Lemma merged_vorp_from (basePlayer : Player) (sources : list string)
    (f : Q) (adp av : option Q) (others : list Player) :
  forall (seen : list Player) (m : Player) (cs : list Conflict) (v : Q)
         (ps : Stats),
    data m = OffensiveData v f ps adp av ->
    (forall q vq, In q seen -> vorpOf q = Some vq -> vq <= v) ->
    (exists q, In q seen /\ vorpOf q = Some v) ->
    exists (v' : Q) (ps' : Stats),
      data (fst (fold_left (mergeOne basePlayer sources) others (m, cs)))
        = OffensiveData v' f ps' adp av /\
      (forall q vq, In q (seen ++ others) -> vorpOf q = Some vq -> vq <= v')
      /\ (exists q, In q (seen ++ others) /\ vorpOf q = Some v').
Proof.
  induction others as [|p others IH]; intros seen m cs v ps Hd Hle Hex;
    cbn [fold_left].
  - exists v, ps. rewrite app_nil_r. repeat split; assumption.
  - destruct (mergeOne_spec basePlayer sources m cs p)
      as (_ & _ & _ & _ & _ & E6 & _).
    destruct (mergeOne basePlayer sources (m, cs) p) as [m' cs'].
    cbn [fst] in E6. rewrite Hd in E6.
    replace (seen ++ p :: others) with ((seen ++ [p]) ++ others)
      by (now rewrite <- app_assoc).
    destruct (data p) as [vp fp psp adpp avp|tp psp|psp|psp] eqn:Ep;
      cbn [mergeData] in E6.
    + destruct (Qlt_le_dec v vp) as [Hlt|Hge].
      * apply (IH (seen ++ [p]) m' cs' vp _ E6).
        -- intros q vq Hq Hv. apply in_app_or in Hq.
           destruct Hq as [Hq|[<-|[]]].
           ++ apply Qle_trans with v; [now apply (Hle q)|now apply Qlt_le_weak].
           ++ unfold vorpOf in Hv. rewrite Ep in Hv. injection Hv as <-.
              apply Qle_refl.
        -- exists p. split; [apply in_or_app; right; now left|].
           unfold vorpOf. now rewrite Ep.
      * apply (IH (seen ++ [p]) m' cs' v _ E6).
        -- intros q vq Hq Hv. apply in_app_or in Hq.
           destruct Hq as [Hq|[<-|[]]]; [now apply (Hle q)|].
           unfold vorpOf in Hv. rewrite Ep in Hv. now injection Hv as <-.
        -- destruct Hex as (q & Hq & Hv). exists q.
           split; [apply in_or_app; now left | assumption].
    + apply (IH (seen ++ [p]) m' cs' v _ E6).
      * intros q vq Hq Hv. apply in_app_or in Hq.
        destruct Hq as [Hq|[<-|[]]]; [now apply (Hle q)|].
        unfold vorpOf in Hv. now rewrite Ep in Hv.
      * destruct Hex as (q & Hq & Hv). exists q.
        split; [apply in_or_app; now left | assumption].
    + apply (IH (seen ++ [p]) m' cs' v _ E6).
      * intros q vq Hq Hv. apply in_app_or in Hq.
        destruct Hq as [Hq|[<-|[]]]; [now apply (Hle q)|].
        unfold vorpOf in Hv. now rewrite Ep in Hv.
      * destruct Hex as (q & Hq & Hv). exists q.
        split; [apply in_or_app; now left | assumption].
    + apply (IH (seen ++ [p]) m' cs' v _ E6).
      * intros q vq Hq Hv. apply in_app_or in Hq.
        destruct Hq as [Hq|[<-|[]]]; [now apply (Hle q)|].
        unfold vorpOf in Hv. now rewrite Ep in Hv.
      * destruct Hex as (q & Hq & Hv). exists q.
        split; [apply in_or_app; now left | assumption].
Qed.

Lemma merged_tier_from (basePlayer : Player) (sources : list string)
    (ps : Stats) (others : list Player) :
  forall (seen : list Player) (m : Player) (cs : list Conflict) (t : Q),
    data m = IDPData t ps ->
    (forall q tq, In q seen -> tierOf q = Some tq -> t <= tq) ->
    (exists q, In q seen /\ tierOf q = Some t) ->
    exists (t' : Q),
      data (fst (fold_left (mergeOne basePlayer sources) others (m, cs)))
        = IDPData t' ps /\
      (forall q tq, In q (seen ++ others) -> tierOf q = Some tq -> t' <= tq)
      /\ (exists q, In q (seen ++ others) /\ tierOf q = Some t').
Proof.
  induction others as [|p others IH]; intros seen m cs t Hd Hle Hex;
    cbn [fold_left].
  - exists t. rewrite app_nil_r. repeat split; assumption.
  - destruct (mergeOne_spec basePlayer sources m cs p)
      as (_ & _ & _ & _ & _ & E6 & _).
    destruct (mergeOne basePlayer sources (m, cs) p) as [m' cs'].
    cbn [fst] in E6. rewrite Hd in E6.
    replace (seen ++ p :: others) with ((seen ++ [p]) ++ others)
      by (now rewrite <- app_assoc).
    destruct (data p) as [vp fp psp adpp avp|tp psp|psp|psp] eqn:Ep;
      cbn [mergeData] in E6.
    2:{ destruct (Qlt_le_dec tp t) as [Hlt|Hge].
        - apply (IH (seen ++ [p]) m' cs' tp E6).
          + intros q tq Hq Hv. apply in_app_or in Hq.
            destruct Hq as [Hq|[<-|[]]].
            * apply Qle_trans with t;
                [now apply Qlt_le_weak | now apply (Hle q)].
            * unfold tierOf in Hv. rewrite Ep in Hv. injection Hv as <-.
              apply Qle_refl.
          + exists p. split; [apply in_or_app; right; now left|].
            unfold tierOf. now rewrite Ep.
        - apply (IH (seen ++ [p]) m' cs' t E6).
          + intros q tq Hq Hv. apply in_app_or in Hq.
            destruct Hq as [Hq|[<-|[]]]; [now apply (Hle q)|].
            unfold tierOf in Hv. rewrite Ep in Hv. now injection Hv as <-.
          + destruct Hex as (q & Hq & Hv). exists q.
            split; [apply in_or_app; now left | assumption]. }
    all: apply (IH (seen ++ [p]) m' cs' t E6);
      [ intros q tq Hq Hv; apply in_app_or in Hq;
        destruct Hq as [Hq|[<-|[]]]; [now apply (Hle q)|];
        unfold tierOf in Hv; now rewrite Ep in Hv
      | destruct Hex as (q & Hq & Hv); exists q;
        split; [apply in_or_app; now left | assumption] ].
Qed.

(** X20: the numbers that the merge reconciles.  For a group whose first
    record is an offensive record, the merged record is an offensive
    record whose vorp is the largest vorp of the offensive records of the
    group, while its fps, adp and auction value are those of the first
    record, never merged.  For a group whose first record is an IDP
    record, the merged record carries the smallest tier of the IDP
    records of the group and the statistics of the first record. *)
Theorem merged_vorp_is_largest_tier_smallest :
  forall (basePlayer : Player) (others : list Player) (cs : list Conflict)
         (sources : list string),
    (forall v f ps adp av,
       data basePlayer = OffensiveData v f ps adp av ->
       exists m cs' v' ps',
         mergePlayerData (basePlayer :: others) cs sources = Some (m, cs') /\
         data m = OffensiveData v' f ps' adp av /\
         (forall q vq, In q (basePlayer :: others) ->
                       vorpOf q = Some vq -> vq <= v') /\
         (exists q, In q (basePlayer :: others) /\ vorpOf q = Some v')) /\
    (forall t ps,
       data basePlayer = IDPData t ps ->
       exists m cs' t',
         mergePlayerData (basePlayer :: others) cs sources = Some (m, cs') /\
         data m = IDPData t' ps /\
         (forall q tq, In q (basePlayer :: others) ->
                       tierOf q = Some tq -> t' <= tq) /\
         (exists q, In q (basePlayer :: others) /\ tierOf q = Some t')).
Proof.
  intros basePlayer others cs sources. split.
  - intros v f ps adp av Hd. cbn [mergePlayerData].
    destruct (merged_vorp_from basePlayer sources f adp av others
                [basePlayer] basePlayer cs v ps Hd)
      as (v' & ps' & H1 & H2 & H3).
    + intros q vq [<-|[]] Hv. unfold vorpOf in Hv. rewrite Hd in Hv.
      injection Hv as <-. apply Qle_refl.
    + exists basePlayer. split; [now left|]. unfold vorpOf. now rewrite Hd.
    + destruct (fold_left (mergeOne basePlayer sources) others
                  (basePlayer, cs)) as [m cs'].
      exists m, cs', v', ps'. repeat split; assumption.
  - intros t ps Hd. cbn [mergePlayerData].
    destruct (merged_tier_from basePlayer sources ps others
                [basePlayer] basePlayer cs t Hd)
      as (t' & H1 & H2 & H3).
    + intros q tq [<-|[]] Hv. unfold tierOf in Hv. rewrite Hd in Hv.
      injection Hv as <-. apply Qle_refl.
    + exists basePlayer. split; [now left|]. unfold tierOf. now rewrite Hd.
    + destruct (fold_left (mergeOne basePlayer sources) others
                  (basePlayer, cs)) as [m cs'].
      exists m, cs', t'. repeat split; assumption.
Qed.

Local Close Scope Q_scope.

(** * The database map, the quick setup, team and position codes *)

Lemma mapSet_keys {V : Type} (k : string) (v : V) (m : JsMap V) (x : string) :
  In x (map fst (mapSet k v m)) -> x = k \/ In x (map fst m).
Proof.
  induction m as [|[k' w] m IH]; cbn.
  - intuition.
  - destruct (str_eqb k' k); cbn; intuition.
Qed.

Lemma mapSet_NoDup {V : Type} (k : string) (v : V) (m : JsMap V) :
  NoDup (map fst m) -> NoDup (map fst (mapSet k v m)).
Proof.
  induction m as [|[k' w] m IH]; cbn; intros H.
  - constructor; [intros []|constructor].
  - apply NoDup_cons_iff in H. destruct H as [Hk Hm].
    destruct (str_eqb k' k) eqn:E; cbn; [now constructor|].
    constructor; [|now apply IH].
    intros Hin. apply mapSet_keys in Hin. destruct Hin as [->|Hin]; [|auto].
    unfold str_eqb in E. now rewrite String.eqb_refl in E.
Qed.

Lemma mapSet_Forall {V : Type} (P : string * V -> Prop) (k : string) (v : V)
    (m : JsMap V) :
  P (k, v) -> (forall k', str_eqb k' k = true -> P (k', v)) ->
  Forall P m -> Forall P (mapSet k v m).
Proof.
  intros Hk Hk'. induction 1 as [|[k0 w] m Hw Hm IH]; cbn.
  - constructor; [assumption|constructor].
  - destruct (str_eqb k0 k) eqn:E; constructor; auto.
Qed.

Lemma keyedById_set (p : Player) (players : JsMap Player) :
  keyedById players -> keyedById (mapSet (id p) p players).
Proof.
  intros [Hn Hf]. split; [now apply mapSet_NoDup|].
  apply mapSet_Forall; [reflexivity| |assumption].
  intros k' E. cbn. now apply String.eqb_eq in E.
Qed.

Lemma mapDelete_incl {V : Type} (k : string) (m : JsMap V) :
  forall e, In e (fst (mapDelete k m)) -> In e m.
Proof.
  induction m as [|[k' w] m IH]; cbn; [auto|].
  destruct (str_eqb k' k); [cbn; auto|].
  destruct (mapDelete k m) as [m' b]. cbn in *. intuition.
Qed.

Lemma mapDelete_NoDup {V : Type} (k : string) (m : JsMap V) :
  NoDup (map fst m) -> NoDup (map fst (fst (mapDelete k m))).
Proof.
  induction m as [|[k' w] m IH]; cbn; intros H; [constructor|].
  apply NoDup_cons_iff in H. destruct H as [Hk Hm].
  destruct (str_eqb k' k); [exact Hm|].
  pose proof (mapDelete_incl k m) as Hincl.
  destruct (mapDelete k m) as [m' b]. cbn in *.
  constructor; [|now apply IH].
  intros Hin. apply Hk. apply in_map_iff in Hin.
  destruct Hin as (e & <- & He). apply in_map. now apply Hincl.
Qed.

Lemma merge_keeps_keyedById (sources : list string)
    (groups : JsMap (list Player)) :
  forall (players : JsMap Player) (res : PlayerMergeResult),
    keyedById players ->
    keyedById (fst (fold_left (mergeGroup sources) groups (players, res))).
Proof.
  induction groups as [|[k g] groups IH]; intros players res H;
    cbn [fold_left]; [exact H|].
  destruct g as [|p [|q g]]; cbn [mergeGroup snd mergePlayerData].
  - now apply IH.
  - apply IH. now apply keyedById_set.
  - destruct (fold_left (mergeOne p sources) (q :: g) (p, conflicts res)).
    apply IH. now apply keyedById_set.
Qed.

Lemma mapGet_keyed (players : JsMap Player) (p : Player) :
  keyedById players -> In p (map snd players) ->
  mapGet (id p) players = Some p.
Proof.
  intros [Hn Hf]. induction players as [|[k q] players IH]; cbn;
    [intros []|].
  cbn in Hn. apply NoDup_cons_iff in Hn. destruct Hn as [Hk Hn].
  apply Forall_cons_iff in Hf. destruct Hf as [Hq Hf]. cbn in Hq. subst k.
  intros [->|Hin]; [now rewrite str_eqb_refl|].
  destruct (str_eqb (id q) (id p)) eqn:E; [|now apply IH].
  exfalso. apply Hk. apply String.eqb_eq in E. rewrite E.
  apply in_map_iff in Hin. destruct Hin as ([k' p'] & Hp & Hin).
  cbn in Hp. subst p'. rewrite Forall_forall in Hf.
  pose proof (Hf _ Hin) as Hk'. cbn in Hk'. subst k'.
  change (id p) with (fst (id p, p)). now apply in_map.
Qed.

(** X21: the database map stays keyed by id.  When every player is stored
    under its own id without a repeated key, the same holds after a merge,
    after [addPlayer] and after [removePlayer]; the players that
    [getAllPlayers] returns then have pairwise distinct ids, and
    [getPlayer] finds each of them by its id. *)
Theorem database_stays_keyed_by_id :
  forall (players : JsMap Player) (newPlayers : list Player)
         (sources : list string) (p : Player) (pid : string),
    keyedById players ->
    keyedById (fst (mergePlayersFromSources players newPlayers sources)) /\
    keyedById (addPlayer p players) /\
    keyedById (fst (removePlayer pid players)) /\
    NoDup (map id (getAllPlayers players)) /\
    (forall q, In q (getAllPlayers players) ->
               getPlayer players (id q) = Some q).
Proof.
  intros players l sources p pid H. split; [|split; [|split; [|split]]].
  - unfold mergePlayersFromSources. now apply merge_keeps_keyedById.
  - now apply keyedById_set.
  - destruct H as [Hn Hf]. unfold removePlayer. split.
    + now apply mapDelete_NoDup.
    + rewrite Forall_forall in *. intros e He. apply Hf.
      now apply (mapDelete_incl pid players).
  - destruct H as [Hn Hf]. unfold getAllPlayers. rewrite map_map.
    replace (map (fun e => id (snd e)) players) with (map fst players);
      [assumption|].
    apply map_ext_in. intros e He. rewrite Forall_forall in Hf.
    now apply Hf.
  - intros q Hq. now apply mapGet_keyed.
Qed.

Lemma quickTeams_facts (n d : Z) :
  List.length (quickTeams n d) = Z.to_nat n /\
  Forall (fun t => roster t = []) (quickTeams n d).
Proof.
  unfold quickTeams. split.
  - now rewrite length_map, length_seq.
  - apply Forall_forall. intros t Ht. apply in_map_iff in Ht.
    now destruct Ht as (i & <- & _).
Qed.

(** The indices of a run that hit a given one: exactly one when the run
    covers it. *)
Lemma one_index_matches (k start len : nat) :
  (start <= k < start + len)%nat ->
  List.length (filter (fun i => Nat.eqb i k) (seq start len)) = 1%nat.
Proof.
  revert start. induction len as [|len IH]; intros start H; [lia|].
  cbn [seq filter]. destruct (Nat.eqb_spec start k) as [->|Hne].
  - cbn. f_equal. clear. generalize (S k), (Nat.lt_succ_diag_r k).
    induction len as [|len IH]; intros s Hs; [reflexivity|].
    cbn. destruct (Nat.eqb_spec s k); [lia|]. apply IH. lia.
  - apply IH. lia.
Qed.

Lemma quickTeams_user_count (n d : Z) :
  1 <= d ->
  List.length (filter isUser (quickTeams n d)) =
  List.length (filter (fun i => Nat.eqb i (Z.to_nat (d - 1)))
                      (seq 0 (Z.to_nat n))).
Proof.
  intros Hd. unfold quickTeams.
  induction (seq 0 (Z.to_nat n)) as [|i l IH]; [reflexivity|].
  cbn [map filter isUser].
  assert (Eb : (Z.of_nat i =? d - 1) = Nat.eqb i (Z.to_nat (d - 1))).
  { destruct (Z.eqb_spec (Z.of_nat i) (d - 1));
      destruct (Nat.eqb_spec i (Z.to_nat (d - 1))); try reflexivity; lia. }
  rewrite Eb. destruct (Nat.eqb i (Z.to_nat (d - 1)));
    cbn [List.length]; now rewrite IH.
Qed.

Section QuickStartFacts.
Context {host : Host}.

(** X22: a quick start opens a well-formed session.  With an empty
    database nothing is initialised.  Otherwise, when the database is
    keyed by id and there is at least one team, the session has one team
    per count of the settings, all rosters empty, an empty pick log, and
    the players of the database as available players, with pairwise
    distinct ids; the session, and the session once started, are
    reachable sessions, those for which the pool partition holds; and
    when the draft position lies between 1 and the number of teams,
    exactly one team is the user's. *)
Theorem quick_start_is_well_formed :
  forall (n d : Z) (dt : DraftType) (limit : Z) (ds : option DraftSettings)
         (players : JsMap Player) (s : DraftStore),
    (players = [] -> handleQuickStart n d dt limit ds players s = s) /\
    (players <> [] -> keyedById players -> 1 <= n ->
     let s' := handleQuickStart n d dt limit ds players s in
     Z.of_nat (List.length (teams s')) = n /\
     Forall (fun t => roster t = []) (teams s') /\
     picks s' = [] /\
     availablePlayers s' = getAllPlayers players /\
     NoDup (map id (availablePlayers s')) /\
     reachable (getAllPlayers players) s' /\
     reachable (getAllPlayers players) (startDraft s') /\
     (1 <= d <= n -> List.length (filter isUser (teams s')) = 1%nat)).
Proof.
  intros n d dt limit ds players s. split.
  - intros ->. reflexivity.
  - intros Hne Hk Hn s'. subst s'. unfold handleQuickStart.
    destruct players as [|e players]; [contradiction|].
    cbn [getAllPlayers map List.length Nat.eqb]. cbv zeta.
    destruct (quickTeams_facts n d) as [Hlen Hempty].
    assert (Hnd : NoDup (map id (snd e :: map snd players))).
    { destruct Hk as [Hk1 Hk2].
      change (snd e :: map snd players) with (map snd (e :: players)).
      rewrite map_map.
      replace (map (fun x => id (snd x)) (e :: players))
        with (map fst (e :: players)); [assumption|].
      apply map_ext_in. intros x Hx. rewrite Forall_forall in Hk2.
      now apply Hk2. }
    set (quickSettings :=
           {| numberOfTeams := n; userTeamIndex := d - 1;
              draftType := dt; pickTimeLimit := limit;
              rosterPositions :=
                match ds with
                | Some d0 => rosterPositions d0
                | None => quickDefaultRoster
                end |}).
    assert (Hr : reachable (snd e :: map snd players)
                   (initializeDraft quickSettings (quickTeams n d)
                      (snd e :: map snd players) s)).
    { apply reach_initializeDraft.
      - exact Hnd.
      - exact Hempty.
      - cbn [numberOfTeams quickSettings]. rewrite Hlen. lia.
      - cbn [numberOfTeams quickSettings]. lia. }
    destruct (initializeDraft_fields quickSettings (quickTeams n d)
                (snd e :: map snd players) s)
      as (_ & Et & Ea & Ep & _).
    rewrite Et, Ea, Ep.
    refine (conj _ (conj Hempty (conj eq_refl (conj eq_refl
             (conj Hnd (conj Hr (conj _ _))))))).
    + rewrite Hlen. lia.
    + now apply reach_startDraft.
    + intros Hd. rewrite quickTeams_user_count by lia.
      apply one_index_matches. lia.
Qed.

End QuickStartFacts.

(** ** Team and position codes *)

Lemma upper_idempotent (c : ascii) : upper (upper c) = upper c.
Proof. destruct c as [[] [] [] [] [] [] [] []]; reflexivity. Qed.

Lemma is_space_upper (c : ascii) : is_space (upper c) = is_space c.
Proof. destruct c as [[] [] [] [] [] [] [] []]; reflexivity. Qed.

Lemma trimStart_upper (s : list ascii) :
  trimStart (map upper s) = map upper (trimStart s).
Proof.
  induction s as [|c s IH]; [reflexivity|]. cbn.
  rewrite is_space_upper. now destruct (is_space c).
Qed.

Lemma trim_upper (s : list ascii) :
  trim (map upper s) = map upper (trim s).
Proof.
  unfold trim.
  now rewrite trimStart_upper, <- map_rev, trimStart_upper, map_rev.
Qed.

Lemma trimStart_fixed (s : list ascii) :
  (forall c l, s = c :: l -> is_space c = false) -> trimStart s = s.
Proof.
  destruct s as [|c s]; [reflexivity|]. intros H. cbn.
  now rewrite (H c s eq_refl).
Qed.

Lemma trim_idempotent (s : list ascii) : trim (trim s) = trim s.
Proof.
  destruct (trim_ends s) as [Hh Hl]. set (r := trim s) in *.
  unfold trim. rewrite (trimStart_fixed r) by exact Hh.
  rewrite (trimStart_fixed (rev r)); [apply rev_involutive|].
  intros c l E. apply (Hl (rev l)).
  rewrite <- (rev_involutive r), E. reflexivity.
Qed.

Lemma upperTrim_idempotent (s : string) :
  upperTrim (upperTrim s) = upperTrim s.
Proof.
  unfold upperTrim, toUpperCase.
  rewrite list_ascii_of_string_of_list_ascii.
  rewrite trim_upper, trim_idempotent, <- trim_upper, map_map.
  do 2 f_equal. apply map_ext. intros c. apply upper_idempotent.
Qed.

Lemma mapGet_In {V : Type} (k : string) (m : JsMap V) (v : V) :
  mapGet k m = Some v -> exists k', In (k', v) m.
Proof.
  induction m as [|[k0 w] m IH]; cbn; [discriminate|].
  destruct (str_eqb k0 k).
  - intros H. injection H as <-. exists k0. now left.
  - intros H. destruct (IH H) as [k' Hk']. exists k'. now right.
Qed.

Lemma team_codes_fixed :
  Forall (fun e => normalizeTeam (snd e) = snd e) TEAM_ABBREVIATIONS.
Proof. repeat constructor. Qed.

(** X23: [normalizeTeam] is idempotent: a normalised team code is left as
    it is by a second normalisation, whether it came out of the table of
    abbreviations or is an unknown code that was only upper-cased and
    trimmed. *)
Theorem normalizeTeam_idempotent :
  forall (team0 : string),
    normalizeTeam (normalizeTeam team0) = normalizeTeam team0.
Proof.
  intros t. remember (normalizeTeam t) as r eqn:Er.
  unfold normalizeTeam in Er. cbv zeta in Er.
  destruct (mapGet (upperTrim t) TEAM_ABBREVIATIONS) as [v|] eqn:E;
    subst r.
  - destruct (mapGet_In _ _ _ E) as [k Hk].
    pose proof team_codes_fixed as H. rewrite Forall_forall in H.
    exact (H _ Hk).
  - unfold normalizeTeam. cbv zeta.
    now rewrite upperTrim_idempotent, E.
Qed.

Lemma afterPrefix_app (a b s : list ascii) (r : list ascii) :
  afterPrefix (a ++ b) s = Some r -> exists r', afterPrefix a s = Some r'.
Proof.
  revert s. induction a as [|x a IH]; intros s H; cbn in *.
  - now exists s.
  - destruct s as [|c s]; [discriminate|].
    destruct (Ascii.eqb x c); [now apply IH | discriminate].
Qed.

Lemma includesStr_prefix (a b s : list ascii) :
  includesStr (a ++ b) s = true -> includesStr a s = true.
Proof.
  induction s as [|c s IH]; cbn [includesStr].
  - destruct (afterPrefix (a ++ b) []) eqn:E; [|discriminate].
    destruct (afterPrefix_app _ _ _ _ E) as [r' ->]. reflexivity.
  - destruct (afterPrefix (a ++ b) (c :: s)) eqn:E.
    + destruct (afterPrefix_app _ _ _ _ E) as [r' ->]. reflexivity.
    + intros H. destruct (afterPrefix a (c :: s)); [reflexivity|].
      now apply IH.
Qed.

(** X24: [normalizePosition] never recognises a code that contains "DEF":
    the test for "DE", which comes first, catches it, so that "DEF" itself
    is classed as a defensive lineman ("DL").  The answer "DEF" is given
    only for the codes "DST" and "D/ST". *)
Theorem normalizePosition_never_sees_DEF :
  forall (position0 : string),
    (posIncludes (cleanPosition position0) "DEF" = true ->
     normalizePosition position0 = "LB"%string \/
     normalizePosition position0 = "DL"%string) /\
    (normalizePosition position0 = "DEF"%string ->
     cleanPosition position0 = "DST"%string \/
     cleanPosition position0 = "D/ST"%string) /\
    normalizePosition "DEF" = "DL"%string.
Proof.
  intros s.
  assert (Hpre : posIncludes (cleanPosition s) "DEF" = true ->
                 posIncludes (cleanPosition s) "DE" = true).
  { unfold posIncludes. intros H.
    apply (includesStr_prefix (list_ascii_of_string "DE")
             (list_ascii_of_string "F")). exact H. }
  split; [|split; [|reflexivity]].
  - intros H. apply Hpre in H. unfold normalizePosition. cbv zeta.
    rewrite H. cbn [orb].
    destruct (posIncludes (cleanPosition s) "LB" || _ || _ || _);
      [now left | now right].
  - unfold normalizePosition. cbv zeta.
    set (c := cleanPosition s) in *.
    destruct (posIncludes c "LB" || _ || _ || _); [discriminate|].
    destruct (posIncludes c "DE") eqn:Ede; cbn [orb]; [discriminate|].
    destruct (posIncludes c "DT" || _ || _); [discriminate|].
    destruct (posIncludes c "DB" || _ || _ || _ || _); [discriminate|].
    destruct (posIncludes c "DEF") eqn:Edef.
    { specialize (Hpre eq_refl). discriminate Hpre. }
    cbn [orb].
    destruct (str_eqb c "DST") eqn:E1.
    { intros _. left. now apply String.eqb_eq in E1. }
    destruct (str_eqb c "D/ST") eqn:E2.
    { intros _. right. now apply String.eqb_eq in E2. }
    cbn [orb].
    destruct (str_eqb c "K" || _); [discriminate|].
    destruct (str_eqb c "QB"); [discriminate|].
    destruct (str_eqb c "RB" || _); [discriminate|].
    destruct (str_eqb c "WR"); [discriminate|].
    destruct (str_eqb c "TE"); [discriminate|].
    intros ->. discriminate Edef.
Qed.

(** ** The scoring engine *)

Lemma firstn_all_ge {A : Type} (n : nat) (l : list A) :
  (List.length l <= n)%nat -> firstn n l = l.
Proof.
  revert n. induction l as [|x l IH]; intros [|n] H; cbn in *;
    try reflexivity; try lia.
  f_equal. apply IH. lia.
Qed.

Lemma replacementLevelPlayers_eq {A : Type} (ranked : list A) :
  replacementLevelPlayers ranked
  = firstn 13 (skipn (Nat.min 23 (List.length ranked - 13)) ranked).
Proof.
  unfold replacementLevelPlayers, slice, replacementEnd, replacementStart.
  set (len := List.length ranked).
  replace (Z.to_nat (Z.max 0 (Z.min 23 (Z.of_nat len - 13))))
    with (Nat.min 23 (len - 13)) by lia.
  destruct (Nat.le_gt_cases len 13) as [Hs|Hl].
  - replace (Nat.min 23 (len - 13)) with 0%nat by lia.
    cbn [skipn]. rewrite Nat.sub_0_r.
    rewrite !firstn_all_ge; [reflexivity| fold len; lia | fold len; lia].
  - f_equal. lia.
Qed.

(** X25: replacement window.  The players whose average is the replacement
    level of [calculateVORP] are the thirteen that follow rank
    [min 23 (n - 13)] in the ranking of the [n] players of the position:
    ranks 24 to 36 when there are at least 36, the last thirteen when there
    are fewer, and all of them when there are at most thirteen. *)
Theorem replacement_window_is_thirteen_wide {A : Type} (ranked : list A) :
  replacementLevelPlayers ranked
  = firstn 13 (skipn (Nat.min 23 (List.length ranked - 13)) ranked)
  /\ List.length (replacementLevelPlayers ranked)
     = Nat.min 13 (List.length ranked).
Proof.
  pose proof (replacementLevelPlayers_eq ranked) as E.
  split; [exact E|].
  rewrite E, length_firstn, length_skipn. lia.
Qed.

(** A list of statistics with one more reading of [pointsAllowed] in
    front. *)
Lemma statOr0_other (stats : Stats) (key : string) (v : Q) :
  str_eqb "pointsAllowed" key = false ->
  statOr0 (("pointsAllowed"%string, v) :: stats) key = statOr0 stats key.
Proof. intros E. unfold statOr0. cbn [statsGet]. now rewrite E. Qed.

(** X26: a shutout counts as 21 points allowed.  A team defence whose
    projection has no [pointsAllowed], or has 0 there, is scored by
    [calculateDefensePoints] exactly as if it allowed 21 points: the bonus
    of the range that holds 0 is never given. *)
Theorem shutout_scored_as_21_allowed (leagueSettings : LeagueSettings)
    (stats : Stats) :
  truthy (statsGet "pointsAllowed" stats) = false ->
  calculateDefensePoints leagueSettings stats
  = calculateDefensePoints leagueSettings
      (("pointsAllowed"%string, 21%Q) :: stats).
Proof.
  intros H. unfold calculateDefensePoints.
  rewrite !statOr0_other by reflexivity.
  unfold pointsAllowedOr21. rewrite H.
  cbn [statsGet]. change (str_eqb "pointsAllowed" "pointsAllowed") with true.
  cbv iota. reflexivity.
Qed.

(** ** Searching the player database *)

Lemma Position_eqb_eq (a b : Position) : Position_eqb a b = true <-> a = b.
Proof. destruct a, b; cbn; split; intros H; try reflexivity; discriminate. Qed.

Lemma existsb_Position (a : Position) (l : list Position) :
  existsb (Position_eqb a) l = true <-> In a l.
Proof.
  rewrite existsb_exists. split.
  - intros (x & Hx & E). apply Position_eqb_eq in E. now subst.
  - intros H. exists a. split; [exact H|]. now apply Position_eqb_eq.
Qed.

Lemma includes_In (l : list string) (x : string) :
  includes l x = true <-> In x l.
Proof.
  unfold includes. rewrite existsb_exists. split.
  - intros (y & Hy & E). apply String.eqb_eq in E. now subst.
  - intros H. exists x. split; [exact H|]. apply String.eqb_refl.
Qed.

Lemma includesStr_nil (s : list ascii) : includesStr [] s = true.
Proof. destruct s; reflexivity. Qed.

Lemma In_firstn_inv {A : Type} (n : nat) (l : list A) (x : A) :
  In x (firstn n l) -> In x l.
Proof.
  revert n. induction l as [|y l IH]; intros [|n]; cbn; try tauto.
  intros [->|H]; [now left|right; eauto].
Qed.

Lemma In_sort {A : Type} (cmp : A -> A -> Z) (l : list A) (x : A) :
  In x (sort cmp l) <-> In x l.
Proof.
  pose proof (sort_perm _ cmp l) as P. split; intros H.
  - exact (Permutation_in _ P H).
  - exact (Permutation_in _ (Permutation_sym P) H).
Qed.

Lemma vorpInRange_spec (options : PlayerSearchOptions) (p : Player) :
  vorpInRange options p = true <->
  exists v, vorpOf p = Some v /\
            (forall m, minVorp options = Some m -> (m <= v)%Q) /\
            (forall m, maxVorp options = Some m -> (v <= m)%Q).
Proof.
  unfold vorpInRange. destruct (vorpOf p) as [v|].
  - destruct (minVorp options) as [lo|], (maxVorp options) as [hi|];
      repeat match goal with
             | |- context [Qle_bool ?a ?b] =>
               let E := fresh "E" in
               destruct (Qle_bool a b) eqn:E;
               [apply Qle_bool_iff in E
               |assert (~ (a <= b)%Q)
                  by (rewrite <- Qle_bool_iff; congruence)]
             end; cbn; split;
      try discriminate;
      try (intros _; exists v; split; [reflexivity|];
           split; intros m Hm; now (discriminate Hm || injection Hm as <-));
      intros (v' & Ev & Hlo & Hhi); injection Ev as <-;
      try (exfalso; eauto; fail); reflexivity.
  - split; [discriminate|]. intros (v & Ev & _). discriminate.
Qed.

Section SearchFacts.
Context {host : Host}.
Variable leagueSettings : LeagueSettings.

(** The players that pass the filters of a search, before they are sorted
    and cut. *)
Lemma search_filters (options : PlayerSearchOptions)
    (players : JsMap Player) :
  exists passed,
    (forall r, In r passed <->
               In r (getAllPlayers players) /\ satisfies options r) /\
    searchPlayers leagueSettings options players
    = (let results :=
         match sortBy options with
         | Some key => sort (searchCompare leagueSettings key
                                           (sortDirection options)) passed
         | None => passed
         end in
       match limit options with
       | Some n => if 0 <? n then firstn (Z.to_nat n) results else results
       | None => results
       end).
Proof.
  unfold searchPlayers.
  set (r0 := getAllPlayers players).
  set (r1 := match searchPosition options with
             | Some ps => filter _ r0 | None => r0 end).
  set (r2 := if truthyTeam (searchTeam options) then _ else r1).
  set (r3 := if truthyName (searchName options) then _ else r2).
  set (r4 := if isSome (minVorp options) || isSome (maxVorp options)
             then _ else r3).
  exists r4. split; [|reflexivity].
  assert (H1 : forall r, In r r1 <->
             In r r0 /\ forall ps, searchPosition options = Some ps ->
                                   In (position r) (asArray ps)).
  { intros r. unfold r1. destruct (searchPosition options) as [ps|].
    - rewrite filter_In, existsb_Position. split.
      + intros [Hin Hp]. split; [exact Hin|]. now intros ? [= <-].
      + intros [Hin Hp]. split; [exact Hin|]. now apply Hp.
    - split; [intros H; split; [exact H|discriminate]|tauto]. }
  assert (H2 : forall r, In r r2 <->
             In r r1 /\ forall ts, searchTeam options = Some ts ->
                                   ts <> one EmptyString ->
                                   In (team r) (asArray ts)).
  { intros r. unfold r2. destruct (searchTeam options) as [[t|ts]|]; cbn [truthyTeam].
    - destruct (str_eqb t "") eqn:Et; cbn [negb].
      + apply String.eqb_eq in Et. subst t.
        split; [intros H; split; [exact H|]|tauto].
        intros ts [= <-] Hne. now elim Hne.
      + rewrite filter_In, includes_In. split.
        * intros [Hin Hp]. split; [exact Hin|]. now intros ? [= <-] _.
        * intros [Hin Hp]. split; [exact Hin|]. apply (Hp _ eq_refl).
          intros [= ->]. cbn in Et. discriminate.
    - rewrite filter_In, includes_In. split.
      + intros [Hin Hp]. split; [exact Hin|]. now intros ? [= <-] _.
      + intros [Hin Hp]. split; [exact Hin|]. now apply (Hp _ eq_refl).
    - split; [intros H; split; [exact H|discriminate]|tauto]. }
  assert (H3 : forall r, In r r3 <->
             In r r2 /\ forall n, searchName options = Some n ->
                hasSubstring (lowerCase n) (lowerCase (name r)) = true).
  { intros r. unfold r3. destruct (searchName options) as [n|]; cbn [truthyName].
    - destruct (str_eqb n "") eqn:En; cbn [negb].
      + apply String.eqb_eq in En. subst n.
        split; [intros H; split; [exact H|]|tauto].
        intros n [= <-]. apply includesStr_nil.
      + rewrite filter_In. split.
        * intros [Hin Hp]. split; [exact Hin|]. now intros ? [= <-].
        * intros [Hin Hp]. split; [exact Hin|]. now apply Hp.
    - split; [intros H; split; [exact H|discriminate]|tauto]. }
  assert (H4 : forall r, In r r4 <->
             In r r3 /\ (minVorp options <> None \/ maxVorp options <> None ->
                         exists v, vorpOf r = Some v /\
                           (forall m, minVorp options = Some m -> (m <= v)%Q) /\
                           (forall m, maxVorp options = Some m -> (v <= m)%Q))).
  { intros r. unfold r4.
    destruct (isSome (minVorp options) || isSome (maxVorp options)) eqn:E.
    - rewrite filter_In, vorpInRange_spec. split.
      + intros [Hin Hp]. split; [exact Hin|]. intros _. exact Hp.
      + intros [Hin Hp]. split; [exact Hin|]. apply Hp.
        apply orb_true_iff in E.
        destruct E as [E|E]; [left|right]; intros E'; rewrite E' in E;
          discriminate.
    - apply orb_false_iff in E. destruct E as [E1 E2].
      split; [intros H; split; [exact H|]|tauto].
      intros [Hn|Hn]; exfalso; apply Hn;
        [destruct (minVorp options)|destruct (maxVorp options)];
        now (reflexivity || discriminate). }
  intros r. rewrite H4, H3, H2, H1. unfold satisfies. tauto.
Qed.

Lemma searchPlayers_In (options : PlayerSearchOptions)
    (players : JsMap Player) (r : Player) :
  (In r (searchPlayers leagueSettings options players) ->
   In r (getAllPlayers players) /\ satisfies options r) /\
  (limit options = None ->
   In r (getAllPlayers players) -> satisfies options r ->
   In r (searchPlayers leagueSettings options players)).
Proof.
  destruct (search_filters options players) as (passed & Hp & ->).
  cbv zeta. split.
  - intros H. apply Hp.
    assert (H' : In r match sortBy options with
                      | Some key => sort (searchCompare leagueSettings key
                                            (sortDirection options)) passed
                      | None => passed
                      end).
    { destruct (limit options) as [n|]; [|exact H].
      destruct (0 <? n); [|exact H]. exact (In_firstn_inv _ _ _ H). }
    destruct (sortBy options); [now apply In_sort in H'|exact H'].
  - intros -> Hin Hs.
    assert (H : In r passed) by (apply Hp; now split).
    destruct (sortBy options); [now apply In_sort|exact H].
Qed.

(** X27: what a search returns.  Every player that [searchPlayers]
    returns is a player of the database that satisfies every filter of the
    options; and without a limit it returns every such player. *)
Theorem searchPlayers_returns_the_matches (options : PlayerSearchOptions)
    (players : JsMap Player) (r : Player) :
  (In r (searchPlayers leagueSettings options players) ->
   In r (getAllPlayers players) /\ satisfies options r) /\
  (limit options = None ->
   In r (getAllPlayers players) -> satisfies options r ->
   In r (searchPlayers leagueSettings options players)).
Proof. exact (searchPlayers_In options players r). Qed.

End SearchFacts.

Section SortSorted.
Variable A : Type.
Variable cmp : A -> A -> Z.
Variable R : A -> A -> Prop.
Hypothesis cmp_le : forall a b, cmp a b <= 0 -> R a b.
Hypothesis cmp_gt : forall a b, 0 < cmp a b -> R b a.
Hypothesis R_trans : forall a b c, R a b -> R b c -> R a c.

Lemma sort_insert_Forall (P : A -> Prop) (x : A) (l : list A) :
  P x -> Forall P l -> Forall P (sort_insert cmp x l).
Proof.
  intros Hx. induction 1 as [|y l Hy Hl IH]; cbn.
  - now constructor.
  - destruct (cmp x y <=? 0); repeat constructor; assumption.
Qed.

Lemma sort_insert_sorted (x : A) (l : list A) :
  StronglySorted R l -> StronglySorted R (sort_insert cmp x l).
Proof.
  induction 1 as [|y l Hs IH Hy]; cbn.
  - repeat constructor.
  - destruct (Z.leb_spec (cmp x y) 0) as [Hc|Hc].
    + constructor; [now constructor|].
      constructor; [now apply cmp_le|].
      eapply Forall_impl; [|exact Hy]. intros z Hz.
      eapply R_trans; [apply cmp_le, Hc|exact Hz].
    + constructor; [exact IH|].
      apply sort_insert_Forall; [now apply cmp_gt|exact Hy].
Qed.

Lemma sort_sorted (l : list A) : StronglySorted R (sort cmp l).
Proof.
  induction l as [|x l IH]; cbn; [constructor|].
  now apply sort_insert_sorted.
Qed.

Lemma firstn_sorted (n : nat) (l : list A) :
  StronglySorted R l -> StronglySorted R (firstn n l).
Proof.
  intros H. revert n. induction H as [|y l Hs IH Hy]; intros [|n]; cbn;
    try constructor.
  - apply IH.
  - rewrite Forall_forall in *. intros z Hz. apply Hy.
    exact (In_firstn_inv _ _ _ Hz).
Qed.

Lemma sorted_firstn_skipn (n : nat) (l : list A) (r q : A) :
  StronglySorted R l -> In r (firstn n l) -> In q (skipn n l) -> R r q.
Proof.
  intros H. revert n. induction H as [|y l Hs IH Hy]; intros [|n]; cbn;
    try tauto.
  intros [<-|Hr] Hq.
  - rewrite Forall_forall in Hy. apply Hy.
    rewrite <- (firstn_skipn n l). apply in_or_app. now right.
  - now apply (IH n).
Qed.

End SortSorted.

Lemma Qsign_le (q : Q) : Qsign q <= 0 <-> (q <= 0)%Q.
Proof.
  unfold Qsign, Qle. destruct q as [[|n|n] d]; cbn; split; intros; lia.
Qed.

Lemma Qsign_gt (q : Q) : 0 < Qsign q <-> (0 < q)%Q.
Proof.
  unfold Qsign, Qlt. destruct q as [[|n|n] d]; cbn; split; intros; lia.
Qed.

Lemma sort_descending {A : Type} (f : A -> Q) (l : list A) :
  descending f (sort (fun a b => Qsign (f b - f a)) l).
Proof.
  apply sort_sorted.
  - intros a b H. apply Qsign_le in H. lra.
  - intros a b H. apply Qsign_gt in H. lra.
  - intros a b c H1 H2. lra.
Qed.

Lemma sort_ascending {A : Type} (f : A -> Q) (l : list A) :
  ascending f (sort (fun a b => Qsign (f a - f b)) l).
Proof.
  apply sort_sorted.
  - intros a b H. apply Qsign_le in H. lra.
  - intros a b H. apply Qsign_gt in H. lra.
  - intros a b c H1 H2. lra.
Qed.

Section SearchOrder.
Context {host : Host}.
Variable leagueSettings : LeagueSettings.

(** X28: a sorted search.  A search sorted by a numeric key returns its
    players in the order of that number: going down when the direction is
    ['desc'], and going up otherwise, also when no direction is given.  A
    player without the field counts as 0 (as 999 for the draft
    position); the [fps] of a team defence is read when its record has
    one. *)
Theorem searchPlayers_sorted (options : PlayerSearchOptions)
    (players : JsMap Player) (key : SortKey) :
  sortBy options = Some key -> key <> byName ->
  let results := searchPlayers leagueSettings options players in
  (sortDirection options = Some desc ->
   descending (sortNumber leagueSettings key) results) /\
  (sortDirection options <> Some desc ->
   ascending (sortNumber leagueSettings key) results).
Proof.
  intros Hk Hn results.
  destruct (search_filters leagueSettings options players)
    as (passed & _ & E).
  unfold results. rewrite E, Hk. cbv zeta. clear E results.
  split; intros Hd.
  - assert (S : descending (sortNumber leagueSettings key)
                  (sort (searchCompare leagueSettings key
                                       (sortDirection options)) passed)).
    { rewrite Hd.
      replace (searchCompare leagueSettings key (Some desc))
        with (fun a b => Qsign (sortNumber leagueSettings key b
                                - sortNumber leagueSettings key a))
        by (destruct key; [now elim Hn|reflexivity..]).
      apply sort_descending. }
    destruct (limit options) as [n|]; [|exact S].
    destruct (0 <? n); [|exact S]. now apply firstn_sorted.
  - assert (S : ascending (sortNumber leagueSettings key)
                  (sort (searchCompare leagueSettings key
                                       (sortDirection options)) passed)).
    { replace (searchCompare leagueSettings key (sortDirection options))
        with (fun a b => Qsign (sortNumber leagueSettings key a
                                - sortNumber leagueSettings key b)).
      - apply sort_ascending.
      - destruct key; [now elim Hn|..];
          (destruct (sortDirection options) as [[|]|];
           [reflexivity|now elim Hd|reflexivity]). }
    destruct (limit options) as [n|]; [|exact S].
    destruct (0 <? n); [|exact S]. now apply firstn_sorted.
Qed.

(** X29: the top performers.  [getTopPerformers] returns players of the
    asked position, the best first, and no player of that position that it
    leaves out is projected for more points than one it returns. *)
Theorem getTopPerformers_are_the_best (pos : Position) (limit0 : Z)
    (players : JsMap Player) :
  let points := calculateWeeklyPoints leagueSettings in
  let top := getTopPerformers leagueSettings pos limit0 players in
  descending points top /\
  (forall r, In r top -> In r (getAllPlayers players) /\ position r = pos) /\
  (forall q r, In q (getAllPlayers players) -> position q = pos ->
               ~ In q top -> In r top -> (points q <= points r)%Q).
Proof.
  intros points top. unfold top, getTopPerformers.
  set (options := mkPlayerSearchOptions _ _ _ _ _ _ _ _).
  destruct (search_filters leagueSettings options players)
    as (passed & Hp & E).
  rewrite E. cbn. clear E.
  set (sorted := sort _ passed).
  assert (S : descending points sorted) by apply sort_descending.
  assert (Hin : forall r, In r sorted <->
                          In r (getAllPlayers players) /\ position r = pos).
  { intros r. unfold sorted. rewrite In_sort, Hp. unfold satisfies. cbn.
    split.
    - intros (Hr & Hpos & _). split; [exact Hr|].
      destruct (Hpos _ eq_refl) as [E|[]]. now symmetry.
    - intros (Hr & Hpos). split; [exact Hr|]. repeat split.
      + intros ps [= <-]. cbn. now left.
      + discriminate.
      + discriminate.
      + intros [H|H]; now elim H. }
  destruct (Z.ltb_spec 0 limit0) as [Hl|Hl].
  - refine (conj _ (conj _ _)).
    + now apply firstn_sorted.
    + intros r Hr. apply Hin. exact (In_firstn_inv _ _ _ Hr).
    + intros q r Hq Hpos Hout Hr.
      assert (Hq' : In q sorted) by (apply Hin; now split).
      rewrite <- (firstn_skipn (Z.to_nat limit0) sorted) in Hq'.
      apply in_app_or in Hq'. destruct Hq' as [Hq'|Hq']; [now elim Hout|].
      exact (sorted_firstn_skipn _ _ (Z.to_nat limit0) sorted r q S Hr Hq').
  - refine (conj S (conj _ _)).
    + intros r Hr. now apply Hin.
    + intros q r Hq Hpos Hout _. elim Hout. apply Hin. now split.
Qed.

(** X30: handcuffs.  Every player that [getHandcuffRecommendations]
    returns is a running back of the database who is not on the roster and
    plays for the team of a running back of the roster; and there is at
    most one recommendation for each running back of the roster. *)
Theorem handcuffs_are_free_backups (rosterPlayers : list Player)
    (players : JsMap Player) :
  let handcuffs :=
    getHandcuffRecommendations leagueSettings rosterPlayers players in
  (forall h, In h handcuffs ->
     In h (getAllPlayers players) /\ position h = RB /\
     (forall rp, In rp rosterPlayers -> id rp <> id h) /\
     exists starter, In starter rosterPlayers /\ position starter = RB /\
                     team h = team starter) /\
  (List.length handcuffs
   <= List.length (filter (fun p => Position_eqb (position p) RB)
                          rosterPlayers))%nat.
Proof.
  intros handcuffs. unfold handcuffs, getHandcuffRecommendations. split.
  - intros h Hh. apply in_flat_map in Hh. destruct Hh as (starter & Hs & Hh).
    apply In_firstn_inv in Hh. apply filter_In in Hh.
    destruct Hh as [Hh Hc].
    apply andb_true_iff in Hc. destruct Hc as [Hc Hfree].
    apply andb_true_iff in Hc. destruct Hc as [Hteam _].
    apply filter_In in Hs. destruct Hs as [Hs Hrb].
    apply Position_eqb_eq in Hrb. apply String.eqb_eq in Hteam.
    unfold getPlayersByPosition in Hh.
    apply (searchPlayers_In leagueSettings) in Hh.
    destruct Hh as [Hdb (Hpos & _)]. cbn in Hpos.
    refine (conj Hdb (conj _ (conj _ _))).
    + destruct (Hpos _ eq_refl) as [E|[]]. now symmetry.
    + intros rp Hrp E. apply negb_true_iff in Hfree.
      assert (Hex : existsb (fun rp0 => str_eqb (id rp0) (id h))
                            rosterPlayers = true).
      { apply existsb_exists. exists rp. split; [exact Hrp|].
        rewrite E. apply String.eqb_refl. }
      congruence.
    + exists starter. now repeat split.
  - induction (filter (fun p => Position_eqb (position p) RB) rosterPlayers)
      as [|s l IH]; cbn [flat_map List.length]; [lia|].
    rewrite length_app, length_firstn. lia.
Qed.

End SearchOrder.

(** ** The properties above at concrete sessions, preferences and
    databases *)

Lemma pick_log_numbering_kept_witness :
  logNumbered twoTeamSession /\
  logNumbered (@makePick exampleHost playerA 0 twoTeamSession) /\
  logNumbered (@markPlayerAsDrafted exampleHost playerA 1 0 twoTeamSession) /\
  logNumbered (@undoLastPick exampleHost twoTeamSession).
Proof.
  assert (H : logNumbered twoTeamSession) by (split; reflexivity).
  split; [exact H|].
  exact (proj2 (@pick_log_numbering_kept exampleHost twoTeamSession playerA
                  1 0 (exampleSettings 2 snake) [] []) H).
Defined.

Lemma undo_after_markPlayerAsDrafted_witness :
  (forall t q, In t (teams twoTeamSession) -> In q (roster t) ->
               id q <> id playerA) /\
  teams (@undoLastPick exampleHost
           (@markPlayerAsDrafted exampleHost playerA 1 0 twoTeamSession))
  = teams twoTeamSession.
Proof.
  assert (H : forall t q, In t (teams twoTeamSession) -> In q (roster t) ->
                          id q <> id playerA).
  { intros t q [<-|[<-|[]]] []. }
  split; [exact H|].
  exact (proj2 (proj2 (proj2 (proj2
           (@undo_after_markPlayerAsDrafted exampleHost playerA 1 0
              twoTeamSession)))) H).
Defined.

Lemma markPlayerAsDrafted_snake_turn_witness :
  settings sessionAtPick13 = Some (exampleSettings 12 snake) /\
  currentPick (@markPlayerAsDrafted exampleHost (letterPlayer 12) 11 0
                 sessionAtPick13) = 14 /\
  currentTeamIndex (@markPlayerAsDrafted exampleHost (letterPlayer 12) 11 0
                      sessionAtPick13)
  = turnOrder_spec snake 12 14.
Proof.
  assert (Hs : settings sessionAtPick13 = Some (exampleSettings 12 snake))
    by reflexivity.
  assert (Hn : 0 < numberOfTeams (exampleSettings 12 snake))
    by reflexivity.
  assert (Hp : 0 <= currentPick sessionAtPick13)
    by (vm_compute; discriminate).
  split; [exact Hs|].
  exact (@markPlayerAsDrafted_snake_turn exampleHost (letterPlayer 12) 11 0
           sessionAtPick13 (exampleSettings 12 snake) Hs eq_refl Hn Hp).
Defined.

Lemma makePick_snake_turn_where_right_witness :
  Z.even ((currentPick twelveTeamSession - 1) / 12) = true /\
  currentTeamIndex (@makePick exampleHost (letterPlayer 0) 0
                      twelveTeamSession)
  = turnOrder_spec snake 12 2.
Proof.
  assert (Hs : settings twelveTeamSession = Some (exampleSettings 12 snake))
    by reflexivity.
  assert (Hn : 0 < numberOfTeams (exampleSettings 12 snake))
    by reflexivity.
  assert (Hp : 1 <= currentPick twelveTeamSession)
    by (vm_compute; discriminate).
  assert (He : Z.even ((currentPick twelveTeamSession - 1) / 12) = true)
    by reflexivity.
  split; [exact He|].
  exact (@makePick_snake_turn_where_right exampleHost (letterPlayer 0) 0
           twelveTeamSession (exampleSettings 12 snake) Hs eq_refl Hn Hp
           (or_introl He)).
Defined.

Lemma linear_turn_kept_witness :
  currentTeamIndex linearSession
  = turnOrder_spec linear 2 (currentPick linearSession) /\
  currentTeamIndex (@makePick exampleHost playerA 0 linearSession)
  = turnOrder_spec linear 2 2 /\
  currentTeamIndex (@markPlayerAsDrafted exampleHost playerA 0 0
                      linearSession)
  = turnOrder_spec linear 2 2.
Proof.
  assert (Hs : settings linearSession = Some (exampleSettings 2 linear))
    by reflexivity.
  assert (Hn : 0 < numberOfTeams (exampleSettings 2 linear))
    by reflexivity.
  assert (Hp : 1 <= currentPick linearSession)
    by (vm_compute; discriminate).
  assert (Hc : currentTeamIndex linearSession
               = turnOrder_spec linear 2 (currentPick linearSession))
    by reflexivity.
  split; [exact Hc|].
  exact (@linear_turn_kept exampleHost playerA 0 linearSession
           (exampleSettings 2 linear) Hs eq_refl Hn Hp Hc).
Defined.

Lemma next_team_index_in_range_witness :
  settings twoTeamSession = Some (exampleSettings 2 snake) /\
  0 <= currentTeamIndex (@makePick exampleHost playerA 0 twoTeamSession)
    < 2 /\
  0 <= currentTeamIndex (@markPlayerAsDrafted exampleHost playerA 1 0
                           twoTeamSession) < 2.
Proof.
  assert (Hs : settings twoTeamSession = Some (exampleSettings 2 snake))
    by reflexivity.
  assert (Hn : 0 < numberOfTeams (exampleSettings 2 snake))
    by reflexivity.
  assert (Hp : 1 <= currentPick twoTeamSession)
    by (vm_compute; discriminate).
  assert (Hc : 0 <= currentTeamIndex twoTeamSession)
    by (vm_compute; discriminate).
  assert (Ht : 0 <= 1) by (vm_compute; discriminate).
  split; [exact Hs|].
  exact (@next_team_index_in_range exampleHost playerA 1 0 twoTeamSession
           (exampleSettings 2 snake) Hs Hn Hp Hc Ht).
Defined.

Lemma other_team_pick_follows_formula_witness :
  isActive runningAtPick13 = true /\ isUserTurn runningAtPick13 = false /\
  currentPick (@handlePlayerPick exampleHost (letterPlayer 12) 0
                 runningAtPick13) = 14 /\
  currentTeamIndex (@handlePlayerPick exampleHost (letterPlayer 12) 0
                      runningAtPick13)
  = turnOrder_spec snake 12 14.
Proof.
  assert (Hs : settings runningAtPick13 = Some (exampleSettings 12 snake))
    by reflexivity.
  assert (Hn : 0 < numberOfTeams (exampleSettings 12 snake))
    by reflexivity.
  assert (Hp : 0 <= currentPick runningAtPick13)
    by (vm_compute; discriminate).
  assert (Ha : isActive runningAtPick13 = true) by reflexivity.
  assert (Hu : isUserTurn runningAtPick13 = false) by reflexivity.
  split; [exact Ha|]. split; [exact Hu|].
  exact (proj2 (@other_team_pick_follows_formula exampleHost
                  (letterPlayer 12) 0 runningAtPick13
                  (exampleSettings 12 snake) Hs eq_refl Hn Hp) Ha Hu).
Defined.

Lemma timer_counts_down_to_zero_witness :
  isActive runningAt57 = true /\
  Nat.iter 60 timerTick runningAt57 = updateTimer 0 runningAt57.
Proof.
  assert (Ha : isActive runningAt57 = true) by reflexivity.
  assert (Ht : 0 <= timeRemaining runningAt57)
    by (vm_compute; discriminate).
  split; [exact Ha|].
  exact (proj2 (timer_counts_down_to_zero 60 runningAt57) Ha Ht).
Defined.

Lemma target_and_avoid_stay_exclusive_witness :
  exclusiveNotes annotated /\
  exclusiveNotes (setPlayerTarget (id playerA) true annotated) /\
  exclusiveNotes (setPlayerAvoid (id playerB) true annotated).
Proof.
  assert (H : exclusiveNotes annotated)
    by (repeat constructor).
  split; [exact H|].
  split.
  - exact (proj1 (target_and_avoid_stay_exclusive annotated (id playerA)
                    EmptyString true 0%Q H)).
  - exact (proj1 (proj2 (target_and_avoid_stay_exclusive annotated
                           (id playerB) EmptyString true 0%Q H))).
Defined.

Lemma other_players_untouched_witness :
  id playerB <> id playerA /\
  getPlayerNote (setPlayerTarget (id playerA) true annotated) (id playerB)
  = getPlayerNote annotated (id playerB) /\
  getPlayerNote (removePlayerNote (id playerA) annotated) (id playerB)
  = getPlayerNote annotated (id playerB).
Proof.
  assert (H : id playerB <> id playerA) by (vm_compute; discriminate).
  split; [exact H|].
  pose proof (other_players_untouched annotated (id playerA) (id playerB)
                EmptyString true 0%Q H) as (T1 & _ & _ & _ & _ & T6).
  split; [exact T1|exact T6].
Defined.

Lemma custom_ranking_reads_back_witness :
  getPlayerNote ravensFan (id playerA) = None /\
  clearCustomRanking (id playerA) ravensFan = ravensFan /\
  getCustomRanking (setCustomRanking (id playerA) (5 # 1) ravensFan)
                   (id playerA) = Some (5 # 1)%Q.
Proof.
  assert (H : getPlayerNote ravensFan (id playerA) = None) by reflexivity.
  split; [exact H|].
  pose proof (custom_ranking_reads_back ravensFan (id playerA) (5 # 1)%Q)
    as (T1 & _ & T3 & _).
  split; [exact (T3 H)|exact T1].
Defined.

Lemma custom_rank_overrides_base_witness :
  (forall b1 b2 : Q,
     calculateAdjustedValue rankedOnly playerC b1
     = calculateAdjustedValue rankedOnly playerC b2) /\
  (forall b : Q,
     (calculateAdjustedValue rankedOnly playerC b == inject_Z (2 * 5))%Q).
Proof.
  pose proof (custom_rank_overrides_base rankedOnly playerC
                {| playerId := id playerC; note := ""; isTarget := false;
                   isAvoid := false; customRanking := Some (5 # 1)%Q |}
                (5 # 1)%Q eq_refl eq_refl) as (T1 & T2).
  split; [exact T1|].
  intros b.
  exact (T2 eq_refl eq_refl eq_refl eq_refl 5 b (Qeq_refl (5 # 1))).
Defined.

Lemma calculateAdjustedValue_monotone_witness :
  (10 <= 20)%Q /\
  (calculateAdjustedValue annotated playerB 10
   <= calculateAdjustedValue annotated playerB 20)%Q.
Proof.
  assert (H : (10 <= 20)%Q) by (vm_compute; discriminate).
  split; [exact H|].
  exact (calculateAdjustedValue_monotone annotated playerB 10%Q 20%Q H).
Defined.

Lemma normalizePlayerName_ignores_punctuation_and_case_witness :
  punctuation "'"%char = true /\
  normalizePlayerName "O'Neil" = normalizePlayerName "ONeil" /\
  normalizePlayerName "oneil" = normalizePlayerName "ONeil".
Proof.
  assert (H : punctuation "'"%char = true) by reflexivity.
  split; [exact H|].
  exact (normalizePlayerName_ignores_punctuation_and_case
           (list_ascii_of_string "O") (list_ascii_of_string "Neil")
           "'"%char H).
Defined.

Lemma merge_without_duplicates_witness :
  NoDup (map groupKey [playerA; playerB]) /\
  mergePlayersFromSources [] [playerA; playerB] ["A"; "B"]%string
  = ([(id playerA, playerA); (id playerB, playerB)],
     {| mergedPlayers := [playerA; playerB]; duplicatesFound := 0;
        conflicts := [] |}).
Proof.
  assert (H : NoDup (map groupKey [playerA; playerB])).
  { repeat constructor; vm_compute; intuition discriminate. }
  split; [exact H|].
  exact (merge_without_duplicates [] [playerA; playerB] ["A"; "B"]%string H).
Defined.

Lemma merged_vorp_is_largest_tier_smallest_witness :
  data henryA = noStats /\
  exists m cs' v' ps',
    mergePlayerData [henryA; henryB] [] ["A"; "B"]%string = Some (m, cs') /\
    data m = OffensiveData v' 0 ps' None None /\
    (forall q vq, In q [henryA; henryB] -> vorpOf q = Some vq ->
                  (vq <= v')%Q) /\
    (exists q, In q [henryA; henryB] /\ vorpOf q = Some v').
Proof.
  assert (H : data henryA = noStats) by reflexivity.
  split; [exact H|].
  exact (proj1 (merged_vorp_is_largest_tier_smallest henryA [henryB] []
                  ["A"; "B"]%string) 0%Q 0%Q [] None None H).
Defined.

Lemma database_stays_keyed_by_id_witness :
  keyedById exampleDatabase /\
  keyedById (addPlayer playerZ exampleDatabase) /\
  NoDup (map id (getAllPlayers exampleDatabase)).
Proof.
  assert (H : keyedById exampleDatabase).
  { split.
    - repeat constructor; vm_compute; intuition discriminate.
    - repeat constructor. }
  split; [exact H|].
  pose proof (database_stays_keyed_by_id exampleDatabase [] [] playerZ
                EmptyString H) as (_ & T2 & _ & T4 & _).
  split; [exact T2|exact T4].
Defined.

Lemma quick_start_is_well_formed_witness :
  exampleDatabase <> [] /\ keyedById exampleDatabase /\
  Forall (fun t => roster t = [])
    (teams (@handleQuickStart exampleHost 2 1 snake 120 None exampleDatabase
              initialStore)) /\
  @reachable exampleHost (getAllPlayers exampleDatabase)
    (startDraft
       (@handleQuickStart exampleHost 2 1 snake 120 None exampleDatabase
          initialStore)) /\
  List.length
    (filter isUser
       (teams (@handleQuickStart exampleHost 2 1 snake 120 None
                 exampleDatabase initialStore))) = 1%nat.
Proof.
  assert (Hne : exampleDatabase <> []) by discriminate.
  assert (Hk : keyedById exampleDatabase).
  { split.
    - repeat constructor; vm_compute; intuition discriminate.
    - repeat constructor. }
  assert (Hn : 1 <= 2) by (vm_compute; discriminate).
  assert (Hd : 1 <= 1 <= 2) by (split; vm_compute; discriminate).
  split; [exact Hne|]. split; [exact Hk|].
  pose proof (proj2 (@quick_start_is_well_formed exampleHost 2 1 snake 120
                       None exampleDatabase initialStore) Hne Hk Hn)
    as (_ & T2 & _ & _ & _ & _ & T7 & T8).
  split; [exact T2|]. split; [exact T7|exact (T8 Hd)].
Defined.

Lemma normalizePosition_never_sees_DEF_witness :
  posIncludes (cleanPosition "DEF") "DEF" = true /\
  (normalizePosition "DEF" = "LB"%string \/
   normalizePosition "DEF" = "DL"%string).
Proof.
  assert (H : posIncludes (cleanPosition "DEF") "DEF" = true)
    by reflexivity.
  split; [exact H|].
  exact (proj1 (normalizePosition_never_sees_DEF "DEF") H).
Defined.

Lemma shutout_scored_as_21_allowed_witness :
  truthy (statsGet "pointsAllowed" shutoutStats) = false /\
  calculateDefensePoints defaultLeagueSettings shutoutStats
  = calculateDefensePoints defaultLeagueSettings
      (("pointsAllowed"%string, 21%Q) :: shutoutStats).
Proof.
  assert (H : truthy (statsGet "pointsAllowed" shutoutStats) = false)
    by reflexivity.
  split; [exact H|].
  exact (shutout_scored_as_21_allowed defaultLeagueSettings shutoutStats H).
Defined.

Lemma searchPlayers_returns_the_matches_witness :
  In playerB (@searchPlayers exampleHost defaultLeagueSettings backsByVorp
                exampleDatabase) /\
  In playerB (getAllPlayers exampleDatabase) /\
  satisfies backsByVorp playerB.
Proof.
  assert (H : In playerB (@searchPlayers exampleHost defaultLeagueSettings
                            backsByVorp exampleDatabase))
    by (vm_compute; tauto).
  split; [exact H|].
  exact (proj1 (@searchPlayers_returns_the_matches exampleHost
                  defaultLeagueSettings backsByVorp exampleDatabase playerB)
               H).
Defined.

Lemma searchPlayers_sorted_witness :
  sortBy allByFps = Some byFps /\
  sortNumber defaultLeagueSettings byFps billsDefense = (8 # 1)%Q /\
  nth_error (@searchPlayers exampleHost defaultLeagueSettings allByFps
               mixedDatabase) 0 = Some billsDefense /\
  descending (sortNumber defaultLeagueSettings byFps)
    (@searchPlayers exampleHost defaultLeagueSettings allByFps
       mixedDatabase).
Proof.
  assert (Hk : sortBy allByFps = Some byFps) by reflexivity.
  assert (Hn : byFps <> byName) by discriminate.
  split; [exact Hk|]. split; [reflexivity|]. split; [reflexivity|].
  exact (proj1 (@searchPlayers_sorted exampleHost defaultLeagueSettings
                  allByFps mixedDatabase byFps Hk Hn) eq_refl).
Defined.

Lemma getTopPerformers_are_the_best_witness :
  In playerA (@getTopPerformers exampleHost defaultLeagueSettings RB 2
                exampleDatabase) /\
  In playerA (getAllPlayers exampleDatabase) /\ position playerA = RB.
Proof.
  assert (H : In playerA (@getTopPerformers exampleHost
                            defaultLeagueSettings RB 2 exampleDatabase))
    by (vm_compute; tauto).
  split; [exact H|].
  exact (proj1 (proj2 (@getTopPerformers_are_the_best exampleHost
                         defaultLeagueSettings RB 2 exampleDatabase))
               playerA H).
Defined.

Lemma handcuffs_are_free_backups_witness :
  In (letterPlayer 1)
     (@getHandcuffRecommendations exampleHost defaultLeagueSettings
        [playerA] backfield) /\
  position (letterPlayer 1) = RB /\
  (forall rp, In rp [playerA] -> id rp <> id (letterPlayer 1)).
Proof.
  assert (H : In (letterPlayer 1)
                 (@getHandcuffRecommendations exampleHost
                    defaultLeagueSettings [playerA] backfield))
    by (vm_compute; tauto).
  split; [exact H|].
  pose proof (proj1 (@handcuffs_are_free_backups exampleHost
                       defaultLeagueSettings [playerA] backfield)
                    (letterPlayer 1) H) as (_ & T2 & T3 & _).
  split; [exact T2|exact T3].
Defined.
